(** * MotoFinAI back office: query shaping, payment summaries, approval workflow

    A shallow embedding of the query-refinement mixin
    ([motofinai/apps/core/mixins.py]), the payment-schedule views
    ([motofinai/apps/payments/views.py]) and the motor approval views
    ([motofinai/apps/inventory/views.py]), together with the parts of the
    Python runtime they rely on: [decimal.Decimal] arithmetic in the default
    context, [datetime] calendar arithmetic, [str] methods, exceptions. *)

From Stdlib Require Import ZArith Lia List Bool Ascii String Permutation Sorted.
From stdpp Require Import base option gmap strings pretty.

Local Open Scope Z_scope.

(** ** Python exceptions *)

(** The exception classes that the modelled code can meet.  Only
    [KeyboardInterrupt] and [SystemExit] are outside the [Exception]
    hierarchy. *)
Inductive exn_class : Type :=
| DivisionByZero
| DivisionUndefined
| InvalidOperation
| AttributeError
| TypeError
| ValidationError
| InvalidTransition
| Http404
| DatabaseError
| OverflowError
| ValueError
| KeyboardInterrupt
| SystemExit.

Record exn : Type := mkExn { exn_cls : exn_class; exn_msg : string }.

(** [isinstance(e, Exception)] *)
Definition is_Exception (e : exn) : bool :=
  match exn_cls e with
  | KeyboardInterrupt | SystemExit => false
  | _ => true
  end.

(** The outcome of evaluating a Python expression: a value or a raised
    exception. *)
Inductive result (A : Type) : Type :=
| Ok (a : A)
| Raise (e : exn).

Arguments Ok {A} a.
Arguments Raise {A} e.

Definition bind {A B : Type} (r : result A) (k : A -> result B) : result B :=
  match r with
  | Ok a => k a
  | Raise e => Raise e
  end.

Notation "'let*' x ':=' r 'in' k" := (bind r (fun x => k))
  (at level 10, x name, r at level 100, k at level 200).

(** ** [decimal.Decimal] in the default context *)

Module PyDecimal.

(** [getcontext().prec]; the rounding mode is ROUND_HALF_EVEN. *)
Definition prec : Z := 28.

(** A finite decimal [coef * 10 ^ expo].  The sign is carried by the
    coefficient, so the two zeros of one exponent are not distinguished. *)
Record Decimal : Type := mkDec { coef : Z; expo : Z }.

Fixpoint ndigits_aux (fuel : nat) (n : Z) : Z :=
  match fuel with
  | O => 1
  | S fuel' => if n <? 10 then 1 else 1 + ndigits_aux fuel' (n / 10)
  end.

(** [len(self._int)]: the number of decimal digits of the magnitude. *)
Definition ndigits (n : Z) : Z :=
  ndigits_aux (Z.to_nat (Z.log2 (Z.abs n))) (Z.abs n).

(** The integer nearest to [n / d] for [0 < d], ties going to the even
    neighbour. *)
Definition round_half_even (n d : Z) : Z :=
  let q := n / d in
  let r := n mod d in
  if 2 * r <? d then q
  else if d <? 2 * r then q + 1
  else if Z.even q then q else q + 1.

(** [Decimal._fix]: keep at most [prec] digits. *)
Definition fix_ (d : Decimal) : Decimal :=
  if coef d =? 0 then d
  else
    let exp_min := ndigits (coef d) + expo d - prec in
    if expo d <? exp_min then
      let c := round_half_even (coef d) (10 ^ (exp_min - expo d)) in
      if prec <? ndigits c then mkDec (c / 10) (exp_min + 1)
      else mkDec c exp_min
    else d.

(** [Decimal.__add__]: the exact sum at the smaller exponent, then [_fix]. *)
Definition add (a b : Decimal) : Decimal :=
  let e := Z.min (expo a) (expo b) in
  fix_ (mkDec (coef a * 10 ^ (expo a - e) + coef b * 10 ^ (expo b - e)) e).

(** [Decimal.__mul__] *)
Definition mul (a b : Decimal) : Decimal :=
  fix_ (mkDec (coef a * coef b) (expo a + expo b)).

(** The loop of [__truediv__] that moves an exact quotient towards the
    ideal exponent. *)
Fixpoint strip_zeros (fuel : nat) (c e ideal : Z) : Z * Z :=
  match fuel with
  | O => (c, e)
  | S fuel' =>
      if (e <? ideal) && (c mod 10 =? 0)
      then strip_zeros fuel' (c / 10) (e + 1) ideal
      else (c, e)
  end.

(** [Decimal.__truediv__] *)
Definition div (a b : Decimal) : result Decimal :=
  if coef b =? 0 then
    if coef a =? 0 then Raise (mkExn DivisionUndefined "0 / 0")
    else Raise (mkExn DivisionByZero "x / 0")
  else if coef a =? 0 then Ok (fix_ (mkDec 0 (expo a - expo b)))
  else
    let sign := Z.sgn (coef a) * Z.sgn (coef b) in
    let i1 := Z.abs (coef a) in
    let i2 := Z.abs (coef b) in
    let shift := ndigits i2 - ndigits i1 + prec + 1 in
    let exp := expo a - expo b - shift in
    let num := if 0 <=? shift then i1 * 10 ^ shift else i1 in
    let den := if 0 <=? shift then i2 else i2 * 10 ^ (- shift) in
    let q := num / den in
    if num mod den =? 0 then
      let '(c, e) := strip_zeros (Z.to_nat shift) q exp (expo a - expo b) in
      Ok (fix_ (mkDec (sign * c) e))
    else
      let c := if q mod 5 =? 0 then q + 1 else q in
      Ok (fix_ (mkDec (sign * c) exp)).

(** [Decimal.adjusted] *)
Definition adjusted (d : Decimal) : Z := expo d + ndigits (coef d) - 1.

(** [Decimal._rescale] with ROUND_HALF_EVEN *)
Definition rescale (d : Decimal) (exp : Z) : Decimal :=
  if coef d =? 0 then mkDec 0 exp
  else if exp <=? expo d then mkDec (coef d * 10 ^ (expo d - exp)) exp
  else mkDec (round_half_even (coef d) (10 ^ (exp - expo d))) exp.

(** [Decimal.quantize] *)
Definition quantize (d exp : Decimal) : result Decimal :=
  if coef d =? 0 then Ok (fix_ (mkDec 0 (expo exp)))
  else if prec <? adjusted d - expo exp + 1 then
    Raise (mkExn InvalidOperation "quantize result has too many digits for current context")
  else
    let ans := rescale d (expo exp) in
    if prec <? ndigits (coef ans) then
      Raise (mkExn InvalidOperation "quantize result has too many digits for current context")
    else Ok (fix_ ans).

(** [bool(d)] *)
Definition truthy (d : Decimal) : bool := negb (coef d =? 0).

(** [d > 0] *)
Definition gt0 (d : Decimal) : bool := 0 <? coef d.

End PyDecimal.

Import PyDecimal.

(** ** [datetime.date] and [calendar] *)

Module Calendar.

Record date : Type := mkDate { year : Z; month : Z; day : Z }.

(** [datetime._is_leap] *)
Definition is_leap (y : Z) : bool :=
  (y mod 4 =? 0) && (negb (y mod 100 =? 0) || (y mod 400 =? 0)).

(** [datetime._days_before_year] *)
Definition days_before_year (y : Z) : Z :=
  let y := y - 1 in y * 365 + y / 4 - y / 100 + y / 400.

(** [datetime._DAYS_IN_MONTH] *)
Definition DAYS_IN_MONTH (m : Z) : Z :=
  match m with
  | 1 => 31 | 2 => 28 | 3 => 31 | 4 => 30 | 5 => 31 | 6 => 30
  | 7 => 31 | 8 => 31 | 9 => 30 | 10 => 31 | 11 => 30 | 12 => 31
  | _ => -1
  end.

(** [datetime._DAYS_BEFORE_MONTH] *)
Definition DAYS_BEFORE_MONTH (m : Z) : Z :=
  match m with
  | 1 => 0 | 2 => 31 | 3 => 59 | 4 => 90 | 5 => 120 | 6 => 151
  | 7 => 181 | 8 => 212 | 9 => 243 | 10 => 273 | 11 => 304 | 12 => 334
  | _ => -1
  end.

(** [datetime._days_in_month]; also the second component of
    [calendar.monthrange]. *)
Definition days_in_month (y m : Z) : Z :=
  if (m =? 2) && is_leap y then 29 else DAYS_IN_MONTH m.

(** [datetime._days_before_month] *)
Definition days_before_month (y m : Z) : Z :=
  DAYS_BEFORE_MONTH m + (if (2 <? m) && is_leap y then 1 else 0).

(** [datetime._ymd2ord]: 0001-01-01 is day 1. *)
Definition ymd2ord (y m d : Z) : Z :=
  days_before_year y + days_before_month y m + d.

Definition DI400Y : Z := days_before_year 401.
Definition DI100Y : Z := days_before_year 101.
Definition DI4Y : Z := days_before_year 5.

(** [datetime._ord2ymd] *)
Definition ord2ymd (n : Z) : date :=
  let n := n - 1 in
  let n400 := n / DI400Y in
  let n := n mod DI400Y in
  let y := n400 * 400 + 1 in
  let n100 := n / DI100Y in
  let n := n mod DI100Y in
  let n4 := n / DI4Y in
  let n := n mod DI4Y in
  let n1 := n / 365 in
  let n := n mod 365 in
  let y := y + n100 * 100 + n4 * 4 + n1 in
  if (n1 =? 4) || (n100 =? 4) then mkDate (y - 1) 12 31
  else
    let leapyear := (n1 =? 3) && (negb (n4 =? 24) || (n100 =? 3)) in
    let m := Z.shiftr (n + 50) 5 in
    let preceding := DAYS_BEFORE_MONTH m + (if (2 <? m) && leapyear then 1 else 0) in
    if n <? preceding then
      let m' := m - 1 in
      let preceding' :=
        preceding - (DAYS_IN_MONTH m' + (if (m' =? 2) && leapyear then 1 else 0)) in
      mkDate y m' (n - preceding' + 1)
    else mkDate y m (n - preceding + 1).

Definition MAXORDINAL : Z := 3652059.

(** [date.toordinal] *)
Definition toordinal (d : date) : Z := ymd2ord (year d) (month d) (day d).

(** [date.fromordinal], as used by [date - timedelta] *)
Definition fromordinal (n : Z) : result date :=
  if (1 <=? n) && (n <=? MAXORDINAL) then Ok (ord2ymd n)
  else Raise (mkExn OverflowError "date value out of range").

(** [d - timedelta(days=n)] *)
Definition sub_days (d : date) (n : Z) : result date :=
  fromordinal (toordinal d - n).

(** [d.replace(day=k)] *)
Definition replace_day (d : date) (k : Z) : result date :=
  if (1 <=? k) && (k <=? days_in_month (year d) (month d))
  then Ok (mkDate (year d) (month d) k)
  else Raise (mkExn ValueError "day is out of range for month").

(** [a < b] on dates: the order of the triples (year, month, day). *)
Definition date_ltb (a b : date) : bool :=
  (year a <? year b)
  || ((year a =? year b)
      && ((month a <? month b) || ((month a =? month b) && (day a <? day b)))).

Definition date_leb (a b : date) : bool := negb (date_ltb b a).

(** [d.strftime('%b')] in the C locale *)
Definition month_abbr (m : Z) : string :=
  match m with
  | 1 => "Jan" | 2 => "Feb" | 3 => "Mar" | 4 => "Apr" | 5 => "May" | 6 => "Jun"
  | 7 => "Jul" | 8 => "Aug" | 9 => "Sep" | 10 => "Oct" | 11 => "Nov" | 12 => "Dec"
  | _ => ""
  end.

End Calendar.

Import Calendar.

(** ** [str] methods *)

Module PyStr.

(** [str.isspace] on one character; a character is a code point below 256. *)
Definition is_space (c : ascii) : bool :=
  let n := N_of_ascii c in
  (((9 <=? n) && (n <=? 13)) || ((28 <=? n) && (n <=? 32))
   || (n =? 133) || (n =? 160))%N.

Fixpoint lstrip (s : string) : string :=
  match s with
  | EmptyString => EmptyString
  | String c s' => if is_space c then lstrip s' else s
  end.

Fixpoint rstrip (s : string) : string :=
  match s with
  | EmptyString => EmptyString
  | String c s' =>
      match rstrip s' with
      | EmptyString => if is_space c then EmptyString else String c EmptyString
      | r => String c r
      end
  end.

(** [s.strip()] *)
Definition strip (s : string) : string := rstrip (lstrip s).

(** Python truth value of a string *)
Definition nonempty (s : string) : bool :=
  match s with EmptyString => false | _ => true end.

Definition lower_char (c : ascii) : ascii :=
  let n := N_of_ascii c in
  if ((65 <=? n) && (n <=? 90))%N then ascii_of_N (n + 32) else c.

(** Case folding of the letters A to Z. *)
Fixpoint lower (s : string) : string :=
  match s with
  | EmptyString => EmptyString
  | String c s' => String (lower_char c) (lower s')
  end.

(** [needle in hay] *)
Fixpoint contains (hay needle : string) : bool :=
  String.prefix needle hay
  || match hay with
     | EmptyString => false
     | String _ hay' => contains hay' needle
     end.

(** [zfill]: left padding with zeros up to [width] characters. *)
Definition zfill (width : nat) (s : string) : string :=
  string_of_list_ascii (repeat "0"%char (width - String.length s)) ++ s.

(** [format(n, '06d')] *)
Definition format_06d (n : Z) : string :=
  if n <? 0 then "-" ++ zfill 5 (pretty (Z.abs n)) else zfill 6 (pretty n).

(** [d.strftime('%Y-%m-%d')] *)
Definition strftime_ymd (d : date) : string :=
  zfill 4 (pretty (year d)) ++ "-" ++ zfill 2 (pretty (month d))
  ++ "-" ++ zfill 2 (pretty (day d)).

(** [str(d)] for a [Decimal] with exponent -2, given in hundredths. *)
Definition str_hundredths (c : Z) : string :=
  (if c <? 0 then "-" else "")
  ++ pretty (Z.abs c / 100) ++ "." ++ zfill 2 (pretty (Z.abs c mod 100)).

End PyStr.

Import PyStr.

(** ** Query sets *)

(** A column value as the database returns it; a decimal column with two
    places is held in hundredths. *)
Inductive Value : Type :=
| VNull
| VInt (n : Z)
| VDec (hundredths : Z)
| VStr (s : string)
| VDate (d : date).

(** The text of a value, as the database casts it for a text lookup. *)
Definition text_of (v : Value) : option string :=
  match v with
  | VNull => None
  | VInt n => Some (pretty n)
  | VDec c => Some (str_hundredths c)
  | VStr t => Some t
  | VDate d => Some (strftime_ymd d)
  end.

(** The lookup [field__icontains=s]; NULL never matches. *)
Definition icontains (v : Value) (s : string) : bool :=
  match text_of v with
  | Some t => contains (lower t) (lower s)
  | None => false
  end.

(** The lookup [field=s] against a request parameter, compared as text;
    NULL never matches. *)
Definition exact (v : Value) (s : string) : bool :=
  match text_of v with
  | Some t => String.eqb t s
  | None => false
  end.

Module QuerySet.

Section Rows.

Context {Row : Type}.

(** [attr f r] is the value of the column (or related column) named [f]. *)
Variable attr : string -> Row -> Value.

(** The order the database sorts column values in. *)
Variable leb : Value -> Value -> bool.

(** One term of an ORDER BY clause: the column and whether it is descending. *)
Definition OrderTerm : Type := (string * bool)%type.

(** A lazy query: the accumulated WHERE condition and the ORDER BY clause. *)
Record t : Type := mk { where_ : Row -> bool; ordering : list OrderTerm }.

(** [Model.objects.all()] *)
Definition all : t := mk (fun _ => true) [].

(** [qs.filter(cond)] *)
Definition filter (cond : Row -> bool) (qs : t) : t :=
  mk (fun r => where_ qs r && cond r) (ordering qs).

(** A leading minus sign asks for descending order. *)
Definition parse_order (spec : string) : OrderTerm :=
  match spec with
  | String "-"%char f => (f, true)
  | _ => (spec, false)
  end.

(** [qs.order_by(spec, ...)] replaces the ordering. *)
Definition order_by (specs : list string) (qs : t) : t :=
  mk (where_ qs) (map parse_order specs).

(** Whether [a] may come before [b] under the ORDER BY clause. *)
Fixpoint row_leb (terms : list OrderTerm) (a b : Row) : bool :=
  match terms with
  | [] => true
  | (f, desc) :: terms' =>
      let ka := attr f a in
      let kb := attr f b in
      if leb ka kb && leb kb ka then row_leb terms' a b
      else if desc then leb kb ka else leb ka kb
  end.

Fixpoint insert_row (terms : list OrderTerm) (x : Row) (l : list Row) : list Row :=
  match l with
  | [] => [x]
  | y :: l' =>
      if row_leb terms x y then x :: l else y :: insert_row terms x l'
  end.

Fixpoint sort_rows (terms : list OrderTerm) (l : list Row) : list Row :=
  match l with
  | [] => []
  | x :: l' => insert_row terms x (sort_rows terms l')
  end.

(** Evaluating the query against the rows of its table. *)
Definition fetch (table : list Row) (qs : t) : list Row :=
  sort_rows (ordering qs) (List.filter (where_ qs) table).

End Rows.

Arguments t : clear implicits.

End QuerySet.

(** ** The persistent state and the view monad *)

(** Modelled from the spec: [Motor.ApprovalStatus] of
    motofinai/apps/inventory/models.py, which is not part of the sources:
    "one of PENDING, APPROVED, REJECTED". *)
Inductive ApprovalStatus : Type := PENDING | APPROVED | REJECTED.

(** Modelled from the spec: the columns of [Motor] that the approval
    workflow reads and writes ("update ApprovalStatus (+ approver, notes,
    timestamp)"); [display_name] is the text the views show. *)
Record Motor : Type := mkMotor {
  motor_pk : Z;
  display_name : string;
  approval_status : ApprovalStatus;
  approved_by : option string;
  approval_notes : string
}.

(** Modelled from the spec: [PaymentSchedule.Status] of
    motofinai/apps/loans/models.py, which is not part of the sources:
    "one of DUE, OVERDUE, PAID". *)
Inductive Status : Type := DUE | OVERDUE | PAID.

(** The stored text and the label of each choice, as a Django
    [TextChoices] declares them. *)
Definition Status_value (s : Status) : string :=
  match s with DUE => "due" | OVERDUE => "overdue" | PAID => "paid" end.

Definition Status_label (s : Status) : string :=
  match s with DUE => "Due" | OVERDUE => "Overdue" | PAID => "Paid" end.

(** [PaymentSchedule.Status.choices] *)
Definition Status_choices : list (string * string) :=
  map (fun s => (Status_value s, Status_label s)) [DUE; OVERDUE; PAID].

Definition Status_eqb (a b : Status) : bool :=
  match a, b with
  | DUE, DUE | OVERDUE, OVERDUE | PAID, PAID => true
  | _, _ => false
  end.

(** The columns of [LoanApplication] that the payment views read; the
    related motor is joined in by [select_related]. *)
Record LoanApplication : Type := mkLoan {
  applicant_first_name : string;
  applicant_last_name : string;
  applicant_email : string;
  motor : option Motor
}.

(** A [PaymentSchedule] row with its related loan application joined in.
    [total_amount] is a decimal column with two places, held in
    hundredths. *)
Record PaymentSchedule : Type := mkSchedule {
  id : Z;
  loan_application : option LoanApplication;
  sequence : Z;
  due_date : date;
  total_amount : Z;
  status : Status
}.

Inductive msg_level : Type := msg_success | msg_warning | msg_error.

(** Everything a view can read or change.  [db_faults] is the fate of the
    coming database operations, one entry each: [Some e] makes the
    operation raise [e]; an exhausted list means no more failures. *)
Record World : Type := mkWorld {
  schedule_table : list PaymentSchedule;
  motor_table : gmap Z Motor;
  db_faults : list (option exn);
  messages : list (msg_level * string);
  stderr : list string
}.

(** A computation that reads and updates the world and may raise. *)
Definition View (A : Type) : Type := World -> result A * World.

Definition ret {A : Type} (a : A) : View A := fun w => (Ok a, w).

Definition raise {A : Type} (e : exn) : View A := fun w => (Raise e, w).

Definition vbind {A B : Type} (m : View A) (k : A -> View B) : View B :=
  fun w =>
    match m w with
    | (Ok a, w') => k a w'
    | (Raise e, w') => (Raise e, w')
    end.

Notation "'do' x '<-' m 'in' k" := (vbind m (fun x => k))
  (at level 10, x name, m at level 100, k at level 200).

(** A pure computation that may raise, run inside a view. *)
Definition lift {A : Type} (r : result A) : View A := fun w => (r, w).

(** [try: body / except <classes> as e: handler(e)] *)
Definition try_except {A : Type} (body : View A) (catches : exn -> bool)
    (handler : exn -> View A) : View A :=
  fun w =>
    match body w with
    | (Ok a, w') => (Ok a, w')
    | (Raise e, w') => if catches e then handler e w' else (Raise e, w')
    end.

(** One database round trip: consult the next entry of [db_faults]. *)
Definition db_op : View unit :=
  fun w =>
    let rest := tail (db_faults w) in
    let w' := mkWorld (schedule_table w) (motor_table w) rest (messages w) (stderr w) in
    match db_faults w with
    | Some e :: _ => (Raise e, w')
    | _ => (Ok tt, w')
    end.

Definition set_schedule_table (t : list PaymentSchedule) : View unit :=
  fun w => (Ok tt, mkWorld t (motor_table w) (db_faults w) (messages w) (stderr w)).

Definition set_motor_table (t : gmap Z Motor) : View unit :=
  fun w => (Ok tt, mkWorld (schedule_table w) t (db_faults w) (messages w) (stderr w)).

(** [messages.add_message(request, level, text)] *)
Definition add_message (lvl : msg_level) (text : string) : View unit :=
  fun w =>
    (Ok tt, mkWorld (schedule_table w) (motor_table w) (db_faults w)
                    (messages w ++ [(lvl, text)]) (stderr w)).

(** [traceback.print_exc()] *)
Definition print_exc (e : exn) : View unit :=
  fun w =>
    (Ok tt, mkWorld (schedule_table w) (motor_table w) (db_faults w)
                    (messages w) (stderr w ++ [exn_msg e])).

(** An HTTP request: query parameters, form parameters, the signed-in user
    and the date of [timezone.now()]. *)
Record Request : Type := mkRequest {
  GET : gmap string string;
  POST : gmap string string;
  user : string;
  today : date
}.

(** [params.get(key, default)] *)
Definition get_param (params : gmap string string) (key default : string) : string :=
  match params !! key with Some v => v | None => default end.

(** ** Payment schedules: motofinai/apps/payments/views.py *)

(** The columns and related columns that the payment views name. *)
Definition schedule_attr (f : string) (s : PaymentSchedule) : Value :=
  let related (g : LoanApplication -> string) : Value :=
    match loan_application s with
    | Some l => VStr (g l)
    | None => VNull
    end in
  match f with
  | "id" => VInt (id s)
  | "sequence" => VInt (sequence s)
  | "due_date" => VDate (due_date s)
  | "total_amount" => VDec (total_amount s)
  | "status" => VStr (Status_value (status s))
  | "loan_application__applicant_first_name" => related applicant_first_name
  | "loan_application__applicant_last_name" => related applicant_last_name
  | "loan_application__applicant_email" => related applicant_email
  | _ => VNull
  end.

Definition set_status (st : Status) (s : PaymentSchedule) : PaymentSchedule :=
  mkSchedule (id s) (loan_application s) (sequence s) (due_date s)
             (total_amount s) st.

(** Modelled from the spec: [PaymentSchedule.objects.mark_overdue] of
    motofinai/apps/loans/models.py, which is not part of the sources: "any
    record with status DUE and due_date strictly before a supplied reference
    date (normally today) is transitioned to OVERDUE". *)
Definition mark_overdue_row (reference_date : date) (s : PaymentSchedule)
    : PaymentSchedule :=
  if Status_eqb (status s) DUE && date_ltb (due_date s) reference_date
  then set_status OVERDUE s
  else s.

Definition mark_overdue (reference_date : date) : View unit :=
  do _ <- db_op in
  fun w =>
    set_schedule_table (map (mark_overdue_row reference_date) (schedule_table w)) w.

(** [Sum("total_amount", filter=cond)]: NULL when no row satisfies [cond]. *)
Definition Sum (cond : PaymentSchedule -> bool) (rows : list PaymentSchedule)
    : option Decimal :=
  match List.filter cond rows with
  | [] => None
  | matching => Some (mkDec (fold_right Z.add 0 (map total_amount matching)) (-2))
  end.

(** [Count("id", filter=cond)] *)
Definition Count (cond : PaymentSchedule -> bool) (rows : list PaymentSchedule) : Z :=
  Z.of_nat (List.length (List.filter cond rows)).

(** [x or Decimal("0.00")] for an aggregate [x] that may be [None]. *)
Definition or_zero (x : option Decimal) : Decimal :=
  match x with
  | Some d => if truthy d then d else mkDec 0 (-2)
  | None => mkDec 0 (-2)
  end.

Record Summary : Type := mkSummary {
  due_total : Decimal;
  overdue_total : Decimal;
  paid_total : Decimal;
  due_count : Z;
  overdue_count : Z;
  paid_count : Z;
  collection_rate : Decimal;
  pending_amount : Decimal;
  total_collected : Decimal
}.

Definition has_status (st : Status) (s : PaymentSchedule) : bool :=
  Status_eqb (status s) st.

(** [PaymentScheduleListView.get_summary]; [rows] are the rows of
    [schedules], over which the database evaluates the aggregates. *)
Definition get_summary (rows : list PaymentSchedule) : result Summary :=
  let due_total := or_zero (Sum (has_status DUE) rows) in
  let overdue_total := or_zero (Sum (has_status OVERDUE) rows) in
  let paid_total := or_zero (Sum (has_status PAID) rows) in
  let denominator := add (add due_total overdue_total) paid_total in
  let* collection_rate :=
    if gt0 denominator then
      let* ratio := div paid_total denominator in
      quantize (mul ratio (mkDec 100 0)) (mkDec 1 (-2))
    else Ok (mkDec 0 (-2)) in
  Ok (mkSummary due_total overdue_total paid_total
                (Count (has_status DUE) rows)
                (Count (has_status OVERDUE) rows)
                (Count (has_status PAID) rows)
                collection_rate
                (add due_total overdue_total)
                paid_total).

(** One month of the chart: its label, the bounds of the [due_date] filter
    and the two sums, in hundredths; the source converts the sums to binary
    floating point and derives a rate from them. *)
Record ChartMonth : Type := mkChartMonth {
  month_label : string;
  month_start : date;
  month_end : date;
  collected : Z;
  pending : Z
}.

Definition sum_hundredths (x : option Decimal) : Z :=
  match x with Some d => coef d | None => 0 end.

(** The body of the loop of [get_chart_data] for offset [i]. *)
Definition chart_month (now : date) (i : Z) : View ChartMonth :=
  do month_date <- lift (sub_days now (30 * i)) in
  do month_start <- lift (replace_day month_date 1) in
  let last_day := days_in_month (year month_date) (month month_date) in
  do month_end <- lift (replace_day month_date last_day) in
  do _ <- db_op in
  fun w =>
    let month_schedules :=
      List.filter (fun s => date_leb month_start (due_date s)
                            && date_leb (due_date s) month_end)
                  (schedule_table w) in
    ret (mkChartMonth (month_abbr (month month_date)) month_start month_end
           (sum_hundredths (Sum (has_status PAID) month_schedules))
           (sum_hundredths (Sum (fun s => negb (has_status PAID s)) month_schedules)))
        w.

Fixpoint for_each {A B : Type} (f : A -> View B) (l : list A) : View (list B) :=
  match l with
  | [] => ret []
  | x :: l' => do y <- f x in do ys <- for_each f l' in ret (y :: ys)
  end.

(** [PaymentScheduleListView.get_chart_data]: [range(5, -1, -1)] *)
Definition get_chart_data (now : date) : View (list ChartMonth) :=
  for_each (chart_month now) [5; 4; 3; 2; 1; 0].

(** Python truth value of an optional string ([None] and [""] are false). *)
Definition truthy_opt (s : option string) : bool :=
  match s with Some t => nonempty t | None => false end.

(** [a or b] on optional strings *)
Definition or_else (a b : option string) : option string :=
  if truthy_opt a then a else b.

(** [status in dict(PaymentSchedule.Status.choices)] *)
Definition is_status_choice (s : string) : bool :=
  existsb (fun c => String.eqb (fst c) s) Status_choices.

(** The three [icontains] lookups joined by [|]. *)
Definition customer_matches (customer_search : string) (s : PaymentSchedule) : bool :=
  icontains (schedule_attr "loan_application__applicant_first_name" s) customer_search
  || icontains (schedule_attr "loan_application__applicant_last_name" s) customer_search
  || icontains (schedule_attr "loan_application__applicant_email" s) customer_search.

(** The [sort_fields] dictionary of [PaymentScheduleListView.get_queryset]. *)
Definition schedule_sort_fields : gmap string string :=
  list_to_map
    [("customer", "loan_application__applicant_last_name");
     ("due_date", "due_date");
     ("amount", "total_amount");
     ("status", "status")].

(** [PaymentScheduleListView.get_queryset] *)
Definition PaymentScheduleListView_get_queryset (request : Request)
    : View (QuerySet.t PaymentSchedule) :=
  let reference_date := today request in
  do _ <- mark_overdue reference_date in
  let schedules := QuerySet.order_by ["due_date"; "sequence"] QuerySet.all in
  let customer_search := or_else (GET request !! "customer") (GET request !! "q") in
  let schedules :=
    match customer_search with
    | Some c =>
        if nonempty c then QuerySet.filter (customer_matches c) schedules
        else schedules
    | None => schedules
    end in
  let status := GET request !! "status" in
  let schedules :=
    match status with
    | Some st =>
        if is_status_choice st
        then QuerySet.filter (fun s => exact (schedule_attr "status" s) st) schedules
        else schedules
    | None => schedules
    end in
  let sort_by := get_param (GET request) "sort" "" in
  let order := get_param (GET request) "order" "asc" in
  let schedules :=
    match schedule_sort_fields !! sort_by with
    | Some field =>
        let field := if String.eqb order "desc" then "-" +:+ field else field in
        QuerySet.order_by [field] schedules
    | None => schedules
    end in
  ret schedules.

Unset Elimination Schemes.

(** A JSON document. *)
Inductive Json : Type :=
| JNull
| JNum (n : Z)
| JStr (s : string)
| JArr (items : list Json)
| JObj (members : list (string * Json)).

Set Elimination Schemes.

Record JsonResponse : Type := mkJsonResponse { status_code : Z; content : Json }.

(** [obj.name] where [obj] may be [None] *)
Definition getattr {A : Type} (obj : option A) (name : string) : result A :=
  match obj with
  | Some a => Ok a
  | None => Raise (mkExn AttributeError
                     ("'NoneType' object has no attribute '" +:+ name +:+ "'"))
  end.

(** The dictionary that the loop of [PaymentScheduleSearchView.get] appends
    for one schedule. *)
Definition search_row (schedule : PaymentSchedule) : result Json :=
  let* loan := getattr (loan_application schedule) "applicant_first_name" in
  let* motor := getattr (motor loan) "display_name" in
  Ok (JObj
        [("id", JNum (id schedule));
         ("schedule_id", JStr ("SCH-" +:+ format_06d (id schedule)));
         ("customer",
          JStr (applicant_first_name loan +:+ " " +:+ applicant_last_name loan));
         ("email", JStr (applicant_email loan));
         ("motor", JStr (display_name motor));
         ("due_date", JStr (strftime_ymd (due_date schedule)));
         ("amount", JStr (str_hundredths (total_amount schedule)));
         ("status", JStr (Status_value (status schedule)));
         ("status_display", JStr (Status_label (status schedule)))]).

(** [except (AttributeError, TypeError)] *)
Definition is_attribute_or_type_error (e : exn) : bool :=
  match exn_cls e with
  | AttributeError | TypeError => true
  | _ => false
  end.

(** The [for] loop of [PaymentScheduleSearchView.get]: a row whose
    construction raises [AttributeError] or [TypeError] is skipped. *)
Fixpoint search_rows (schedules : list PaymentSchedule) : result (list Json) :=
  match schedules with
  | [] => Ok []
  | schedule :: rest =>
      match search_row schedule with
      | Ok row => let* data := search_rows rest in Ok (row :: data)
      | Raise e =>
          if is_attribute_or_type_error e then search_rows rest else Raise e
      end
  end.

Section SearchEndpoint.

(** The order in which the database sorts column values. *)
Variable leb : Value -> Value -> bool.

(** The [try] block of [PaymentScheduleSearchView.get]. *)
Definition PaymentScheduleSearchView_get_try (request : Request) : View JsonResponse :=
  let customer_search := strip (get_param (GET request) "customer" "") in
  let status := strip (get_param (GET request) "status" "") in
  let reference_date := today request in
  do _ <- mark_overdue reference_date in
  let schedules := QuerySet.order_by ["due_date"; "sequence"] QuerySet.all in
  let schedules :=
    if nonempty customer_search
    then QuerySet.filter (customer_matches customer_search) schedules
    else schedules in
  let schedules :=
    if nonempty status && is_status_choice status
    then QuerySet.filter (fun s => exact (schedule_attr "status" s) status) schedules
    else schedules in
  do _ <- db_op in
  fun w =>
    let page := firstn 50 (QuerySet.fetch schedule_attr leb (schedule_table w) schedules) in
    (do data <- lift (search_rows page) in
     ret (mkJsonResponse 200
            (JObj [("results", JArr data);
                   ("count", JNum (Z.of_nat (List.length data)))]))) w.

(** [PaymentScheduleSearchView.get] *)
Definition PaymentScheduleSearchView_get (request : Request) : View JsonResponse :=
  try_except (PaymentScheduleSearchView_get_try request) is_Exception
    (fun e =>
       do _ <- print_exc e in
       ret (mkJsonResponse 400
              (JObj [("error", JStr (exn_msg e));
                     ("results", JArr []);
                     ("count", JNum 0)]))).

End SearchEndpoint.

(** ** Search, sort and filter: motofinai/apps/core/mixins.py *)

(** The class attributes that configure [SearchSortFilterMixin]. *)
Record MixinConfig : Type := mkMixinConfig {
  search_fields : list string;
  filter_fields : list string;
  sort_fields : gmap string string;
  default_sort : string
}.

Section SearchSortFilterMixin.

Context {Row : Type}.

Variable attr : string -> Row -> Value.

Variable config : MixinConfig.

Variable request : Request.

(** Python truth value of a list *)
Definition nonempty_list {A : Type} (l : list A) : bool :=
  match l with [] => false | _ => true end.

(** The [Q] object that [apply_search] accumulates with [|=]. *)
Definition search_condition (search_query : string) (r : Row) : bool :=
  existsb (fun field => icontains (attr field r) search_query) (search_fields config).

(** [SearchSortFilterMixin.apply_search] *)
Definition apply_search (queryset : QuerySet.t Row) : QuerySet.t Row :=
  let search_query := strip (get_param (GET request) "q" "") in
  if nonempty search_query && nonempty_list (search_fields config)
  then QuerySet.filter (search_condition search_query) queryset
  else queryset.

(** [SearchSortFilterMixin.apply_filters] *)
Definition apply_filters (queryset : QuerySet.t Row) : QuerySet.t Row :=
  fold_left
    (fun queryset field =>
       let value := strip (get_param (GET request) field "") in
       if nonempty value
       then QuerySet.filter (fun r => exact (attr field r) value) queryset
       else queryset)
    (filter_fields config) queryset.

(** [SearchSortFilterMixin.apply_sorting] *)
Definition apply_sorting (queryset : QuerySet.t Row) : QuerySet.t Row :=
  let sort_by := get_param (GET request) "sort" "" in
  let order := get_param (GET request) "order" "asc" in
  match sort_fields config !! sort_by with
  | Some field =>
      let field := if String.eqb order "desc" then "-" +:+ field else field in
      QuerySet.order_by [field] queryset
  | None =>
      if nonempty (default_sort config)
      then QuerySet.order_by [default_sort config] queryset
      else queryset
  end.

(** [SearchSortFilterMixin.get_queryset]; [base] is [super().get_queryset()]. *)
Definition get_queryset (base : QuerySet.t Row) : QuerySet.t Row :=
  apply_sorting (apply_filters (apply_search base)).

End SearchSortFilterMixin.

(** ** Motor approval: motofinai/apps/inventory/views.py *)

Definition ApprovalStatus_eqb (a b : ApprovalStatus) : bool :=
  match a, b with
  | PENDING, PENDING | APPROVED, APPROVED | REJECTED, REJECTED => true
  | _, _ => false
  end.

(** [motor.save()] *)
Definition save_motor (m : Motor) : View unit :=
  do _ <- db_op in
  fun w => set_motor_table (<[motor_pk m := m]> (motor_table w)) w.

(** Modelled from the spec: [Motor.approve] of
    motofinai/apps/inventory/models.py, which is not part of the sources:
    "valid only from PENDING; fails with InvalidTransition otherwise; records
    actor and notes, transitions to APPROVED"; the change is "committed to
    persistent storage synchronously". *)
Definition Motor_approve (m : Motor) (actor notes : string) : View Motor :=
  match approval_status m with
  | PENDING =>
      let m' := mkMotor (motor_pk m) (display_name m) APPROVED (Some actor) notes in
      do _ <- save_motor m' in ret m'
  | _ => raise (mkExn InvalidTransition "Only pending motors can be approved.")
  end.

(** Modelled from the spec: [Motor.reject] of
    motofinai/apps/inventory/models.py, which is not part of the sources:
    "valid only from PENDING; fails with InvalidTransition if not PENDING;
    fails with ValidationError if notes is empty/whitespace; transitions to
    REJECTED". *)
Definition Motor_reject (m : Motor) (actor notes : string) : View Motor :=
  match approval_status m with
  | PENDING =>
      if nonempty (strip notes) then
        let m' := mkMotor (motor_pk m) (display_name m) REJECTED (Some actor) notes in
        do _ <- save_motor m' in ret m'
      else raise (mkExn ValidationError "A reason is required to reject a motor.")
  | _ => raise (mkExn InvalidTransition "Only pending motors can be rejected.")
  end.

(** [get_object_or_404(Motor, pk=pk)] *)
Definition get_object_or_404 (pk : Z) : View Motor :=
  do _ <- db_op in
  fun w =>
    match motor_table w !! pk with
    | Some m => ret m w
    | None => raise (mkExn Http404 "No Motor matches the given query.") w
    end.

(** [redirect(name, pk=...)] *)
Record Redirect : Type := mkRedirect { url_name : string; url_pk : option Z }.

(** [except ValidationError] *)
Definition is_ValidationError (e : exn) : bool :=
  match exn_cls e with ValidationError => true | _ => false end.

(** [MotorApproveView.post] *)
Definition MotorApproveView_post (request : Request) (pk : Z) : View Redirect :=
  do motor <- get_object_or_404 pk in
  if negb (ApprovalStatus_eqb (approval_status motor) PENDING) then
    do _ <- add_message msg_error "Only pending motors can be approved." in
    ret (mkRedirect "inventory:motor-approval-detail" (Some (motor_pk motor)))
  else
    let notes := strip (get_param (POST request) "approval_notes" "") in
    do _ <- try_except
              (do motor' <- Motor_approve motor (user request) notes in
               add_message msg_success
                 ("Motorcycle '" +:+ display_name motor' +:+ "' has been approved."))
              is_ValidationError
              (fun e => add_message msg_error ("Error approving motorcycle: " +:+ exn_msg e)) in
    ret (mkRedirect "inventory:motor-approval-detail" (Some (motor_pk motor))).

(** [MotorRejectView.post] *)
Definition MotorRejectView_post (request : Request) (pk : Z) : View Redirect :=
  do motor <- get_object_or_404 pk in
  if negb (ApprovalStatus_eqb (approval_status motor) PENDING) then
    do _ <- add_message msg_error "Only pending motors can be rejected." in
    ret (mkRedirect "inventory:motor-approval-detail" (Some (motor_pk motor)))
  else
    let notes := strip (get_param (POST request) "rejection_notes" "") in
    if negb (nonempty notes) then
      do _ <- add_message msg_error "Please provide a reason for rejection." in
      ret (mkRedirect "inventory:motor-approval-detail" (Some (motor_pk motor)))
    else
      do _ <- try_except
                (do motor' <- Motor_reject motor (user request) notes in
                 add_message msg_warning
                   ("Motorcycle '" +:+ display_name motor' +:+ "' has been rejected."))
                is_ValidationError
                (fun e => add_message msg_error ("Error rejecting motorcycle: " +:+ exn_msg e)) in
      ret (mkRedirect "inventory:motor-approval-list" None).

(** ** Python dictionaries and values *)

(** A [dict] with text keys.  The entries are held in insertion order, the
    order in which [items()] yields them. *)
Module PyDict.

Section Dict.

Context {V : Type}.

(** [d.get(key)] *)
Fixpoint get (key : string) (d : list (string * V)) : option V :=
  match d with
  | [] => None
  | (k, v) :: d' => if String.eqb k key then Some v else get key d'
  end.

(** [d[key] = v]: a key that is there keeps its place, a new key goes to
    the end. *)
Fixpoint setitem (key : string) (v : V) (d : list (string * V)) : list (string * V) :=
  match d with
  | [] => [(key, v)]
  | (k, v0) :: d' =>
      if String.eqb k key then (k, v) :: d' else (k, v0) :: setitem key v d'
  end.

(** [d.update(other)] *)
Definition update (d other : list (string * V)) : list (string * V) :=
  fold_left (fun d kv => setitem (fst kv) (snd kv) d) other d.

End Dict.

End PyDict.

(** A value passed as a keyword argument: [None], a number or a text. *)
Inductive PyVal : Type :=
| PyNone
| PyInt (n : Z)
| PyStr (s : string).

(** The truth value of [v] *)
Definition py_truthy (v : PyVal) : bool :=
  match v with
  | PyNone => false
  | PyInt n => negb (n =? 0)
  | PyStr s => nonempty s
  end.

(** [str(v)], as an f-string formats it *)
Definition py_str (v : PyVal) : string :=
  match v with
  | PyNone => "None"
  | PyInt n => pretty n
  | PyStr s => s
  end.

(** [sep.join(parts)] *)
Fixpoint str_join (sep : string) (parts : list string) : string :=
  match parts with
  | [] => ""
  | [p] => p
  | p :: rest => p +:+ sep +:+ str_join sep rest
  end.

(** ** Links: motofinai/apps/core/mixins.py and the list views *)

Section SearchSortFilterMixinLinks.

Variable config : MixinConfig.

Variable request : Request.

(** [SearchSortFilterMixin.build_query_string]; [overrides] are the keyword
    arguments, in the order of the call. *)
Definition build_query_string (overrides : list (string * PyVal)) : string :=
  let params :=
    [("q", PyStr (get_param (GET request) "q" ""));
     ("sort", PyStr (get_param (GET request) "sort" ""));
     ("order", PyStr (get_param (GET request) "order" ""))] in
  let params :=
    fold_left
      (fun params field =>
         PyDict.setitem field (PyStr (get_param (GET request) field "")) params)
      (filter_fields config) params in
  let params := PyDict.update params overrides in
  let params := List.filter (fun kv => py_truthy (snd kv)) params in
  if nonempty_list params
  then "?" +:+ str_join "&" (map (fun kv => fst kv +:+ "=" +:+ py_str (snd kv)) params)
  else "".

End SearchSortFilterMixinLinks.

(** [request.GET] as the [QueryDict] it is: every key with the list of its
    values, in the order of the query string. *)
Definition QueryDict : Type := list (string * list string).

(** [QueryDict.get(key, default)]: the last value of the key; the default
    when the key is missing or has no value. *)
Definition QueryDict_get (query : QueryDict) (key default : string) : string :=
  match PyDict.get key query with
  | Some values => List.last values default
  | None => default
  end.

(** The function [get_sort_url] that the [get_context_data] of
    [PaymentScheduleListView], [MotorListView] and [StockListView] define,
    with the same body in the three places.  [dict(self.request.GET)] holds
    each key with the list of its values. *)
Definition get_sort_url (query : QueryDict) (field : string) : string :=
  let current_sort := QueryDict_get query "sort" "" in
  let current_order := QueryDict_get query "order" "asc" in
  let new_order :=
    if String.eqb current_sort field && String.eqb current_order "asc"
    then "desc" else "asc" in
  let params := query in
  let params := PyDict.setitem "sort" [field] params in
  let params := PyDict.setitem "order" [new_order] params in
  str_join "&"
    (map (fun kv => fst kv +:+ "=" +:+ hd "" (snd kv))
       (List.filter (fun kv => nonempty_list (snd kv) && nonempty (hd "" (snd kv)))
          params)).

(** ** The approval list: motofinai/apps/inventory/views.py *)

(** What a view reads from a filter form after validation. *)
Record FilterForm : Type := mkFilterForm {
  is_valid : bool;
  cleaned_data : gmap string string
}.

(** The rows of the [Motor] table. *)
Definition Motor_objects (w : World) : list Motor :=
  map snd (map_to_list (motor_table w)).

Section MotorApprovalListView.

(** The columns of [Motor] that the approval workflow does not write:
    brand, model name, type, chassis plate number, creation time. *)
Variable motor_attr : string -> Motor -> Value.

(** [MotorFilterForm] of motofinai/apps/inventory/forms.py, which is not
    part of the sources: from the data it is bound to ([None] leaves it
    unbound) to what validation yields. *)
Variable MotorFilterForm : option (gmap string string) -> FilterForm.

(** [MotorApprovalListView.filter_form]: [self.request.GET or None] *)
Definition MotorApprovalListView_filter_form (request : Request) : FilterForm :=
  MotorFilterForm (if decide (GET request = ∅) then None else Some (GET request)).

(** [MotorApprovalListView.get_queryset] *)
Definition MotorApprovalListView_get_queryset (request : Request) : QuerySet.t Motor :=
  let queryset :=
    QuerySet.order_by ["-created_at"]
      (QuerySet.filter (fun m => ApprovalStatus_eqb (approval_status m) PENDING)
         QuerySet.all) in
  let form := MotorApprovalListView_filter_form request in
  if is_valid form then
    match cleaned_data form !! "q" with
    | Some query =>
        if nonempty query then
          QuerySet.filter
            (fun m => icontains (motor_attr "brand" m) query
                      || icontains (motor_attr "model_name" m) query
                      || icontains (motor_attr "type" m) query
                      || icontains (motor_attr "chassis_plate_number" m) query)
            queryset
        else queryset
    | None => queryset
    end
  else queryset.

(** The [pending_count] of [MotorApprovalListView.get_context_data] *)
Definition MotorApprovalListView_pending_count (w : World) : Z :=
  Z.of_nat
    (length
       (List.filter (fun m => ApprovalStatus_eqb (approval_status m) PENDING)
          (Motor_objects w))).

End MotorApprovalListView.

(** ** The first superuser: motofinai/apps/pos and theme/apps.py *)

(** The columns of [auth.User] that [create_superuser] sets. *)
Record User : Type := mkUser {
  username : string;
  email : string;
  password : string;
  is_staff : bool;
  is_superuser : bool
}.

Section Superuser.

(** [make_password]: the stored form of a password. *)
Variable make_password : string -> string.

(** [User.objects.filter(username=name).exists()] *)
Definition username_exists (name : string) (users : list User) : bool :=
  existsb (fun u => String.eqb (username u) name) users.

(** [User.objects.create_superuser(username, email, password)] *)
Definition User_objects_create_superuser (name mail pass : string) (users : list User)
    : list User :=
  users ++ [mkUser name mail (make_password pass) true true].

(** [create_superuser] of motofinai/apps/pos/create_superuser_view.py: the
    body of the response and the user table afterwards. *)
Definition create_superuser_view (users : list User) : string * list User :=
  if negb (username_exists "admin" users)
  then ("Superuser created!",
        User_objects_create_superuser "admin" "admin@example.com" "yourpassword" users)
  else ("Already exists.", users).

(** [create_superuser] of motofinai/apps/pos/migration_create_superuser.py *)
Definition create_superuser_migration (users : list User) : list User :=
  if negb (username_exists "admin" users)
  then User_objects_create_superuser "admin" "admin@example.com" "yourpassword" users
  else users.

(** [YourAppConfig.ready] of theme/apps.py *)
Definition YourAppConfig_ready (users : list User) : list User :=
  if negb (username_exists "admin" users)
  then User_objects_create_superuser "admin" "admin@example.com" "admin123" users
  else users.

End Superuser.

(** ** Recording a payment: motofinai/apps/payments/views.py *)

(** What a [ValidationError] carries: a dictionary from field names to
    messages ([message_dict]), or a list of messages. *)
Inductive ValidationErrorData : Type :=
| ErrorDict (message_dict : list (string * list string))
| ErrorList (error_messages : list string).

(** The parts of a bound form that [form_valid] reads and writes: the names
    of its fields, the cleaned data and the errors per field. *)
Record Form : Type := mkForm {
  form_fields : list string;
  form_cleaned_data : gmap string Value;
  form_errors : list (string * list string)
}.

(** [django.core.exceptions.NON_FIELD_ERRORS] *)
Definition NON_FIELD_ERRORS : string := "__all__".

(** [field in d] for a list of names *)
Definition name_in (field : string) (names : list string) : bool :=
  existsb (String.eqb field) names.

(** [form.add_error(field, message)] for one message: the message goes to
    the end of the errors of the field, or of [NON_FIELD_ERRORS] when the
    field is [None]; the field leaves the cleaned data; a field that the
    form does not have raises ValueError. *)
Definition add_error (field : option string) (message : string) (form : Form)
    : result Form :=
  let key := match field with Some f => f | None => NON_FIELD_ERRORS end in
  let known := PyDict.get key (form_errors form) in
  match known with
  | None =>
      if negb (String.eqb key NON_FIELD_ERRORS) && negb (name_in key (form_fields form))
      then Raise (mkExn ValueError
                    ("'PaymentRecordForm' has no field named '" +:+ key +:+ "'."))
      else Ok (mkForm (form_fields form) (delete key (form_cleaned_data form))
                 (PyDict.setitem key [message] (form_errors form)))
  | Some errors =>
      Ok (mkForm (form_fields form) (delete key (form_cleaned_data form))
            (PyDict.setitem key (errors ++ [message]) (form_errors form)))
  end.

(** A [for] loop over a list whose body updates a value and may raise. *)
Fixpoint for_loop {A S : Type} (body : A -> S -> result S) (items : list A) (s : S)
    : result S :=
  match items with
  | [] => Ok s
  | x :: items' => let* s' := body x s in for_loop body items' s'
  end.

(** What a view answers to a form: a redirect, or the page with the form
    and a status code. *)
Inductive FormResponse : Type :=
| Redirected (to : string)
| Rendered (status : Z) (form : Form).

(** How [Payment.objects.create] ends: the payment is stored, or a
    [ValidationError] is raised, or another exception is. *)
Inductive CreateOutcome : Type :=
| Created
| Invalid (exc : ValidationErrorData)
| Failed (e : exn).

Section RecordPaymentView.

(** [Payment.objects.create] with the arguments that [form_valid] takes
    from the form, the schedule and the request; the [Payment] model of
    motofinai/apps/payments/models.py is not part of the sources. *)
Variable Payment_objects_create : Form -> World -> CreateOutcome * World.

(** The [except ValidationError] clause of [RecordPaymentView.form_valid] *)
Definition form_valid_errors (exc : ValidationErrorData) (form : Form) : result Form :=
  match exc with
  | ErrorDict message_dict =>
      for_loop
        (fun item form =>
           for_loop
             (fun message form =>
                if name_in (fst item) (form_fields form)
                then add_error (Some (fst item)) message form
                else add_error None message form)
             (snd item) form)
        message_dict form
  | ErrorList error_messages =>
      add_error None (str_join "; " error_messages) form
  end.

(** [RecordPaymentView.form_invalid] *)
Definition form_invalid (form : Form) : View FormResponse :=
  ret (Rendered 400 form).

(** [RecordPaymentView.form_valid] *)
Definition form_valid (form : Form) : View FormResponse :=
  fun w =>
    match Payment_objects_create form w with
    | (Created, w') =>
        (do _ <- add_message msg_success "Payment recorded successfully." in
         ret (Redirected "payments:schedule-list")) w'
    | (Invalid exc, w') =>
        (do form' <- lift (form_valid_errors exc form) in form_invalid form') w'
    | (Failed e, w') => (Raise e, w')
    end.

End RecordPaymentView.

(** * Specification vocabulary *)

(** ** Rounding *)

(** [t] is the integer nearest to [n / d], the even one of the two when
    [n / d] lies half way between them. *)
Definition nearest_even (n d t : Z) : Prop :=
  2 * Z.abs (n - t * d) <= d /\ (2 * Z.abs (n - t * d) = d -> Z.even t = true).

(** [c * 10 ^ (- m)] is [p / d], or its rounding to 28 digits. *)
Definition approximates (c m p d : Z) : Prop :=
  c * d = p * 10 ^ m \/ (2 * Z.abs (c * d - p * 10 ^ m) <= d /\ 10 ^ 27 <= c).

(** What [__truediv__] hands to [_fix]: the exact quotient, or a truncation
    of it made safe for rounding by the adjustment of a last digit 0 or 5. *)
Definition truncates (c m p d : Z) : Prop :=
  c * d = p * 10 ^ m
  \/ (Z.abs (c * d - p * 10 ^ m) < d /\ c mod 5 <> 0 /\ 28 < ndigits c).

(** The opposite of a decimal. *)
Definition neg (d : Decimal) : Decimal := mkDec (- coef d) (expo d).

(** ** Schedule sets *)

(** The sum of the amounts of the rows that satisfy [cond], in hundredths. *)
Definition amount_where (cond : PaymentSchedule -> bool) (rows : list PaymentSchedule) : Z :=
  fold_right Z.add 0 (map total_amount (List.filter cond rows)).

(** The sum of all amounts, in hundredths. *)
Definition amount_sum (rows : list PaymentSchedule) : Z :=
  fold_right Z.add 0 (map total_amount rows).

(** The sum of the magnitudes of all amounts, in hundredths. *)
Definition abs_amount_sum (rows : list PaymentSchedule) : Z :=
  fold_right Z.add 0 (map (fun s => Z.abs (total_amount s)) rows).

(** Three schedules: 100.00 paid, 50.00 due and 50.00 overdue. *)
Definition example_schedules : list PaymentSchedule :=
  [mkSchedule 1 None 1 (mkDate 2024 1 10) 10000 PAID;
   mkSchedule 2 None 2 (mkDate 2024 2 10) 5000 DUE;
   mkSchedule 3 None 3 (mkDate 2024 1 10) 5000 OVERDUE].

(** Their summary: a collection rate of 50.00. *)
Definition example_summary : Summary :=
  mkSummary (mkDec 5000 (-2)) (mkDec 5000 (-2)) (mkDec 10000 (-2)) 1 1 1
            (mkDec 5000 (-2)) (mkDec 10000 (-2)) (mkDec 10000 (-2)).

(** A schedule set with a negative amount: 100.00 paid, -50.00 due. *)
Definition negative_schedules : list PaymentSchedule :=
  [mkSchedule 1 None 1 (mkDate 2024 1 10) 10000 PAID;
   mkSchedule 2 None 2 (mkDate 2024 2 10) (-5000) DUE].

(** A schedule set beyond 28 digits: 10^28 + 1 hundredths paid out of a
    total of 2 * 10^32 hundredths. *)
Definition huge_schedules : list PaymentSchedule :=
  [mkSchedule 1 None 1 (mkDate 2024 1 10) (10 ^ 28 + 1) PAID;
   mkSchedule 2 None 2 (mkDate 2024 2 10) (2 * 10 ^ 32 - (10 ^ 28 + 1)) DUE].

(** ** Worlds *)

(** The database answers the next operation without raising. *)
Definition next_db_op_succeeds (w : World) : Prop :=
  match db_faults w with
  | Some _ :: _ => False
  | _ => True
  end.

(** A world with the example schedules and no pending database failure. *)
Definition example_world : World :=
  mkWorld example_schedules ∅ [] [] [].

(** A world with one schedule, due on 2024-01-10 and still DUE. *)
Definition due_world : World :=
  mkWorld [mkSchedule 4 None 1 (mkDate 2024 1 10) 5000 DUE] ∅ [] [] [].

(** A world whose database refuses the next operation. *)
Definition broken_world : World :=
  mkWorld example_schedules ∅ [Some (mkExn DatabaseError "connection refused")] [] [].

(** ** Approval *)

(** Empty or made of whitespace only. *)
Fixpoint blank (s : string) : bool :=
  match s with
  | EmptyString => true
  | String c s' => is_space c && blank s'
  end.

(** The motor that [approve] leaves behind. *)
Definition approved (m : Motor) (actor notes : string) : Motor :=
  mkMotor (motor_pk m) (display_name m) APPROVED (Some actor) notes.

(** A motor that was approved earlier and one that awaits a decision, the
    table that holds them, and a request with notes for either decision. *)
Definition example_motor : Motor :=
  mkMotor 7 "Honda Click 125i" APPROVED (Some "finance1") "documents complete".

Definition example_pending_motor : Motor :=
  mkMotor 8 "Yamaha Mio" PENDING None "".

Definition example_inventory : World :=
  mkWorld [] (<[8 := example_pending_motor]> (<[7 := example_motor]> ∅)) [] [] [].

Definition example_request : Request :=
  mkRequest ∅ (<["rejection_notes" := "   "]> (<["approval_notes" := " ok "]> ∅))
            "finance2" (mkDate 2024 2 1).

(** ** Searching and ordering *)

(** A column whose text contains [s], letter case aside. *)
Definition icontains_text (v : Value) (s : string) : Prop :=
  exists t pre post, text_of v = Some t /\ lower t = pre +:+ lower s +:+ post.

Section Orderings.

Context {Row : Type}.

Variable attr : string -> Row -> Value.

Variable leb : Value -> Value -> bool.

(** Every row comes before the rows after it under the ORDER BY clause. *)
Definition ordered_as (terms : list QuerySet.OrderTerm) (l : list Row) : Prop :=
  StronglySorted (fun a b => QuerySet.row_leb attr leb terms a b = true) l.

(** Ascending in column [f]. *)
Definition ascending_by (f : string) (l : list Row) : Prop :=
  StronglySorted (fun a b => leb (attr f a) (attr f b) = true) l.

(** Descending in column [f]. *)
Definition descending_by (f : string) (l : list Row) : Prop :=
  StronglySorted (fun a b => leb (attr f b) (attr f a) = true) l.

End Orderings.

(** A column name that does not ask for descending order by itself. *)
Definition plain_column (f : string) : Prop :=
  match f with
  | String "-"%char _ => False
  | _ => True
  end.

(** A total preorder on column values: numbers by size. *)
Definition int_leb (a b : Value) : bool :=
  let key v := match v with VInt n | VDec n => n | _ => 0 end in
  key a <=? key b.

(** Items priced 10, 30 and 20 are rows of one column, [purchase_price],
    sorted through the key [price], descending. *)
Definition price_attr (f : string) (r : Z) : Value :=
  match f with
  | "purchase_price" => VInt r
  | _ => VNull
  end.

Definition price_config : MixinConfig :=
  mkMixinConfig ["brand"] [] (<["price" := "purchase_price"]> ∅) "-created_at".

Definition price_request : Request :=
  mkRequest (<["order" := "desc"]> (<["sort" := "price"]> ∅)) ∅ "finance1"
            (mkDate 2024 2 1).

(** Motors by brand, searched through the field [brand] with a search text
    that ends in a space. *)
Definition brand_attr (f : string) (r : string) : Value :=
  match f with
  | "brand" => VStr r
  | _ => VNull
  end.

Definition brand_request : Request :=
  mkRequest (<["q" := "hon "]> ∅) ∅ "finance1" (mkDate 2024 2 1).

(** ** The search endpoint *)

(** The query set that [PaymentScheduleSearchView.get] builds from the
    request: the schedules by due date and sequence, narrowed by the
    customer text and the status when these are given. *)
Definition search_schedules (request : Request) : QuerySet.t PaymentSchedule :=
  let customer_search := strip (get_param (GET request) "customer" "") in
  let status := strip (get_param (GET request) "status" "") in
  let schedules := QuerySet.order_by ["due_date"; "sequence"] QuerySet.all in
  let schedules :=
    if nonempty customer_search
    then QuerySet.filter (customer_matches customer_search) schedules
    else schedules in
  if nonempty status && is_status_choice status
  then QuerySet.filter (fun s => exact (schedule_attr "status" s) status) schedules
  else schedules.

(** The rows that can be built, in order; the others are left out. *)
Fixpoint built_rows (schedules : list PaymentSchedule) : list Json :=
  match schedules with
  | [] => []
  | schedule :: rest =>
      match search_row schedule with
      | Ok row => row :: built_rows rest
      | Raise _ => built_rows rest
      end
  end.

(** The body of the error response of the search endpoint. *)
Definition error_payload (e : exn) : Json :=
  JObj [("error", JStr (exn_msg e)); ("results", JArr []); ("count", JNum 0)].

(** A schedule with its loan application and motor, in a world with three
    schedules that lack their loan application. *)
Definition complete_schedule : PaymentSchedule :=
  mkSchedule 12 (Some (mkLoan "Ana" "Reyes" "ana@example.com" (Some example_motor)))
             1 (mkDate 2024 1 10) 250050 DUE.

Definition search_world : World :=
  mkWorld (complete_schedule :: example_schedules) ∅ [] [] [].

(** ** Proof automation *)

(** Unfolds the view monad on a world given by its fields. *)
Ltac run_view :=
  repeat match goal with
         | w : World |- _ => destruct w as [? ? ? ? ?]
         end;
  cbn [db_faults motor_table schedule_table messages stderr] in *;
  cbv [vbind try_except get_object_or_404 save_motor db_op add_message
       set_motor_table ret raise lift
       db_faults motor_table schedule_table messages stderr tail].

(** ** The payment list *)

(** A schedule that the filters of the payment list let through: the
    search text is [customer], or [q] when [customer] is missing or empty,
    and a status that is not among the choices does not filter. *)
Definition list_keeps (request : Request) (s : PaymentSchedule) : bool :=
  match or_else (GET request !! "customer") (GET request !! "q") with
  | Some c => negb (nonempty c) || customer_matches c s
  | None => true
  end
  && match GET request !! "status" with
     | Some st => negb (is_status_choice st) || exact (schedule_attr "status" s) st
     | None => true
     end.

(** Two requests of one day: one asks for the amounts in descending order,
    the other asks for nothing. *)
Definition sorted_request : Request :=
  mkRequest (<["order" := "desc"]> (<["sort" := "amount"]> ∅)) ∅ "finance1"
            (mkDate 2024 2 1).

Definition plain_request : Request :=
  mkRequest ∅ ∅ "finance1" (mkDate 2024 2 1).

(** [c] is the text that the payment list searches for: the parameter
    [customer] when it is there and not empty, else the parameter [q] when
    that one is there and not empty. *)
Definition searches_for (request : Request) (c : string) : Prop :=
  c <> ""
  /\ (GET request !! "customer" = Some c
      \/ ((GET request !! "customer" = None \/ GET request !! "customer" = Some "")
          /\ GET request !! "q" = Some c)).

(** The first name, the last name or the email address of the applicant
    contains [c], letter case aside. *)
Definition applicant_contains (c : string) (s : PaymentSchedule) : Prop :=
  icontains_text (schedule_attr "loan_application__applicant_first_name" s) c
  \/ icontains_text (schedule_attr "loan_application__applicant_last_name" s) c
  \/ icontains_text (schedule_attr "loan_application__applicant_email" s) c.

(** The payment list asked for the overdue schedules of the customers
    whose names or addresses contain [rey]. *)
Definition overdue_reyes_request : Request :=
  mkRequest (<["status" := "overdue"]> (<["customer" := "rey"]> ∅)) ∅ "finance1"
            (mkDate 2024 2 1).

(** ** The search endpoint, continued *)

(** A schedule that the filters of the search endpoint let through: both
    parameters are taken without their surrounding whitespace, and a status
    that is not among the choices does not filter. *)
Definition search_keeps (request : Request) (s : PaymentSchedule) : Prop :=
  (strip (get_param (GET request) "customer" "") <> ""
   -> applicant_contains (strip (get_param (GET request) "customer" "")) s)
  /\ (forall x, strip (get_param (GET request) "status" "") = Status_value x
                -> status s = x).

(** The database answers the next two operations, which are all that the
    search endpoint asks for. *)
Definition db_answers_twice (w : World) : Prop :=
  Forall (fun fate => fate = None) (firstn 2 (db_faults w)).

(** A schedule for which the search endpoint can build a row. *)
Definition has_row (s : PaymentSchedule) : bool :=
  match search_row s with Ok _ => true | Raise _ => false end.

(** ** The mixin as a whole *)

Section MixinVocabulary.

Context {Row : Type}.

Variable attr : string -> Row -> Value.

Variable config : MixinConfig.

Variable request : Request.

(** The row passes the search: when there is a search text and a search
    field, one of the search fields contains the text, letter case aside. *)
Definition passes_search (r : Row) : Prop :=
  let s := strip (get_param (GET request) "q" "") in
  s <> "" -> search_fields config <> [] ->
  exists field, In field (search_fields config) /\ icontains_text (attr field r) s.

(** The row passes the filters: each filter field whose parameter is not
    blank holds the text of the parameter, surrounding whitespace aside. *)
Definition passes_filters (r : Row) : Prop :=
  forall field, In field (filter_fields config) ->
    let value := strip (get_param (GET request) field "") in
    value <> "" -> text_of (attr field r) = Some value.

End MixinVocabulary.

(** ** Approval, continued *)

(** The example inventory with a database that answers the first operation
    and fails at the second. *)
Definition failing_inventory : World :=
  mkWorld [] (motor_table example_inventory)
          [None; Some (mkExn DatabaseError "connection lost")] [] [].

(** The motor that [reject] leaves behind. *)
Definition rejected (m : Motor) (actor notes : string) : Motor :=
  mkMotor (motor_pk m) (display_name m) REJECTED (Some actor) notes.

(** A request to reject with a reason. *)
Definition reject_request : Request :=
  mkRequest ∅ (<["rejection_notes" := " no papers "]> ∅) "finance2" (mkDate 2024 2 1).

(** Every motor is stored under its own primary key. *)
Definition keyed_by_pk (table : gmap Z Motor) : Prop :=
  forall k m, table !! k = Some m -> motor_pk m = k.

(** ** Links *)

(** The query [?status=due&sort=amount&order=asc&page=]: one value for
    each key, in the order of the query string. *)
Definition amount_query : QueryDict :=
  [("status", ["due"]); ("sort", ["amount"]); ("order", ["asc"]); ("page", [""])].

(** A filter form that is never valid, and motors without further
    columns. *)
Definition invalid_form (data : option (gmap string string)) : FilterForm :=
  mkFilterForm false ∅.

Definition no_columns (f : string) (m : Motor) : Value := VNull.

(** ** Form errors *)

(** The errors that a form holds for a field, or for [NON_FIELD_ERRORS]. *)
Definition errors_of (form : Form) (key : string) : list string :=
  default [] (PyDict.get key (form_errors form)).

(** Where the form shows a message that names a field: at the field when
    the form has it, else among the errors that belong to no field. *)
Definition error_slot (form : Form) (field : string) : string :=
  if name_in field (form_fields form) then field else NON_FIELD_ERRORS.

(** The messages of a [ValidationError] that go to one slot of the form,
    in the order in which the error holds them. *)
Definition reported (exc : ValidationErrorData) (form : Form) (key : string)
    : list string :=
  match exc with
  | ErrorDict message_dict =>
      concat (map (fun item =>
                     if String.eqb (error_slot form (fst item)) key
                     then snd item else [])
                message_dict)
  | ErrorList error_messages =>
      if String.eqb NON_FIELD_ERRORS key then [str_join "; " error_messages] else []
  end.

(** ** The calendar *)

(** Months counted from year 0, so that consecutive months differ by one. *)
Definition month_index (d : date) : Z := 12 * year d + month d.

(** The month is one of the twelve and the day is a day of that month. *)
Definition in_month (d : date) : bool :=
  (1 <=? month d) && (month d <=? 12) && (1 <=? day d)
  && (day d <=? days_in_month (year d) (month d)).

(** The same day [k] years later. *)
Definition shift_years (k : Z) (d : date) : date :=
  mkDate (year d + k) (month d) (day d).

(** The dates of [count] consecutive ordinals. *)
Fixpoint dates_from (start : Z) (count : nat) : list date :=
  match count with
  | O => []
  | S count' => ord2ymd start :: dates_from (start + 1) count'
  end.

(** [a <= b + slack] for the numbers at the same places of two lists. *)
Fixpoint le_pairs (slack : Z) (l l' : list Z) : bool :=
  match l, l' with
  | a :: l1, b :: l1' => (a <=? b + slack) && le_pairs slack l1 l1'
  | _, _ => true
  end.

(** The check of [count] consecutive ordinals from 1 on: every ordinal
    gives a day of a month, the month of the day 30 days earlier is not a
    later one, and the month of the day 150 days earlier is at most five
    months back. *)
Definition ordinals_checked (count : nat) : bool :=
  let dates := dates_from 1 count in
  let months := map month_index dates in
  forallb in_month dates
  && le_pairs 0 months (skipn 30 months)
  && le_pairs 5 (skipn 150 months) months.

(** ** The chart *)

(** The schedule is due from [first] to [last], both days included. *)
Definition due_within (first last : date) (s : PaymentSchedule) : bool :=
  date_leb first (due_date s) && date_leb (due_date s) last.

(** The bucket runs from the first to the last day of one calendar month
    and is labelled with the name of that month. *)
Definition calendar_month (m : ChartMonth) : Prop :=
  day (month_start m) = 1
  /\ month_end m
     = mkDate (year (month_start m)) (month (month_start m))
              (days_in_month (year (month_start m)) (month (month_start m)))
  /\ month_label m = month_abbr (month (month_start m)).

(** The two sums of the bucket are those of the schedules of [table] that
    are due within it: the PAID ones and the others. *)
Definition sums_of (table : list PaymentSchedule) (m : ChartMonth) : Prop :=
  let due := List.filter (due_within (month_start m) (month_end m)) table in
  collected m = amount_where (has_status PAID) due
  /\ pending m = amount_where (fun s => negb (has_status PAID s)) due.

(** The bucket of the month of [d]. *)
Definition bucket_of (table : list PaymentSchedule) (d : date) : ChartMonth :=
  let first := mkDate (year d) (month d) 1 in
  let last := mkDate (year d) (month d) (days_in_month (year d) (month d)) in
  let due := List.filter (due_within first last) table in
  mkChartMonth (month_abbr (month d)) first last
    (amount_where (has_status PAID) due)
    (amount_where (fun s => negb (has_status PAID s)) due).

(** ** Proof automation, continued *)

(** Splits a view of the approval workflow into its cases: the fate of
    the database operations, the motor found or not, its status, and the
    tests of the view. *)
Ltac split_view :=
  repeat match goal with
         | _ => progress cbn [tail negb ApprovalStatus_eqb fst snd motor_pk display_name
                              approval_status approved_by approval_notes]
         | |- context [match ?f with [] => _ | _ :: _ => _ end] => destruct f as [| [?e |] ?rest]
         | |- context [match ?t !! ?k with Some _ => _ | None => _ end] =>
             destruct (t !! k) as [?m |] eqn:?Hlookup
         | |- context [approval_status ?m] => destruct (approval_status m) eqn:?Hstatus
         | |- context [if ?c then _ else _] => destruct c eqn:?Hcond
         end.

(** * Properties *)

(** ** Decimal digits and rounding *)

Section DecimalFacts.

Local Open Scope Z_scope.

Lemma pow10_pos (k : Z) : 0 <= k -> 0 < 10 ^ k.
Proof. intros Hk. apply Z.pow_pos_nonneg; lia. Qed.

Lemma pow10_add (a b : Z) : 0 <= a -> 0 <= b -> 10 ^ (a + b) = 10 ^ a * 10 ^ b.
Proof. intros Ha Hb. apply Z.pow_add_r; assumption. Qed.

Lemma pow10_succ (k : Z) : 0 <= k -> 10 ^ (k + 1) = 10 * 10 ^ k.
Proof. intros Hk. rewrite pow10_add by lia. change (10 ^ 1) with 10. lia. Qed.

Lemma pow10_le (a b : Z) : 0 <= a <= b -> 10 ^ a <= 10 ^ b.
Proof. intros H. apply Z.pow_le_mono_r; lia. Qed.

Lemma pow10_lt (a b : Z) : 0 <= a < b -> 10 ^ a < 10 ^ b.
Proof. intros H. apply Z.pow_lt_mono_r; lia. Qed.

Lemma pow10_lt_inv (a b : Z) : 0 <= a -> 0 <= b -> 10 ^ a < 10 ^ b -> a < b.
Proof.
  intros Ha Hb H. destruct (Z_lt_le_dec a b) as [Hlt | Hge]; [assumption |].
  assert (10 ^ b <= 10 ^ a) by (apply pow10_le; lia). lia.
Qed.

Lemma ndigits_aux_bounds (fuel : nat) :
  forall n, 0 < n -> n < 10 ^ (Z.of_nat fuel + 1) ->
  1 <= ndigits_aux fuel n /\
  10 ^ (ndigits_aux fuel n - 1) <= n < 10 ^ (ndigits_aux fuel n).
Proof.
  induction fuel as [| fuel IH]; intros n Hpos Hlt.
  - simpl in *. change (10 ^ (1 - 1)) with 1. change (10 ^ 1) with 10 in *. lia.
  - cbn [ndigits_aux]. destruct (Z.ltb_spec n 10) as [Hsmall | Hbig].
    + change (10 ^ (1 - 1)) with 1. change (10 ^ 1) with 10. lia.
    + assert (Hq : 0 < n / 10) by (apply Z.div_str_pos; lia).
      assert (Hqlt : n / 10 < 10 ^ (Z.of_nat fuel + 1)).
      { apply Z.div_lt_upper_bound; [lia |].
        rewrite <- pow10_succ by lia.
        replace (Z.of_nat fuel + 1 + 1) with (Z.of_nat (S fuel) + 1) by lia.
        exact Hlt. }
      destruct (IH (n / 10) Hq Hqlt) as (H1 & Hlo & Hhi).
      set (k := ndigits_aux fuel (n / 10)) in *.
      replace (1 + k - 1) with (k - 1 + 1) by lia.
      replace (1 + k) with (k + 1) by lia.
      rewrite !pow10_succ by lia.
      pose proof (Z.div_mod n 10 ltac:(lia)) as Hdm.
      pose proof (Z.mod_pos_bound n 10 ltac:(lia)) as Hm.
      lia.
Qed.

Lemma ndigits_bounds (n : Z) :
  0 < n -> 1 <= ndigits n /\ 10 ^ (ndigits n - 1) <= n < 10 ^ (ndigits n).
Proof.
  intros Hpos. unfold ndigits. rewrite (Z.abs_eq n) by lia.
  apply ndigits_aux_bounds; [assumption |].
  rewrite Z2Nat.id by apply Z.log2_nonneg.
  destruct (Z.log2_spec n Hpos) as [_ Hhi].
  apply Z.lt_le_trans with (2 ^ Z.succ (Z.log2 n)); [assumption |].
  unfold Z.succ. apply Z.pow_le_mono_l. lia.
Qed.

Lemma ndigits_unique (n k : Z) :
  1 <= k -> 10 ^ (k - 1) <= n < 10 ^ k -> ndigits n = k.
Proof.
  intros Hk [Hlo Hhi].
  assert (Hpos : 0 < n) by (pose proof (pow10_pos (k - 1)); lia).
  destruct (ndigits_bounds n Hpos) as (H1 & Hlo' & Hhi').
  assert (ndigits n - 1 < k) by (apply pow10_lt_inv; lia).
  assert (k - 1 < ndigits n) by (apply pow10_lt_inv; lia).
  lia.
Qed.

Lemma ndigits_abs (n : Z) : ndigits (Z.abs n) = ndigits n.
Proof. unfold ndigits. rewrite Z.abs_idemp. reflexivity. Qed.

Lemma ndigits_zero : ndigits 0 = 1.
Proof. reflexivity. Qed.

Lemma ndigits_le (n k : Z) : 0 <= k -> 0 <= n < 10 ^ k -> 1 <= k -> ndigits n <= k.
Proof.
  intros Hk [Hlo Hhi] Hk1.
  destruct (Z.eq_dec n 0) as [-> | Hn]; [rewrite ndigits_zero; lia |].
  destruct (ndigits_bounds n ltac:(lia)) as (H1 & Hlo' & _).
  assert (ndigits n - 1 < k) by (apply pow10_lt_inv; lia). lia.
Qed.

Lemma ndigits_mul_pow10 (n j : Z) :
  0 < n -> 0 <= j -> ndigits (n * 10 ^ j) = ndigits n + j.
Proof.
  intros Hn Hj. destruct (ndigits_bounds n Hn) as (H1 & Hlo & Hhi).
  apply ndigits_unique; [lia |].
  replace (ndigits n + j - 1) with (ndigits n - 1 + j) by lia.
  rewrite !pow10_add by lia.
  pose proof (pow10_pos j Hj). split; nia.
Qed.

End DecimalFacts.


Section RoundingFacts.

Local Open Scope Z_scope.


Lemma round_half_even_nearest (n d : Z) :
  0 < d -> nearest_even n d (round_half_even n d).
Proof.
  intros Hd. unfold nearest_even, round_half_even.
  pose proof (Z.div_mod n d ltac:(lia)) as Hdm.
  pose proof (Z.mod_pos_bound n d Hd) as Hm.
  set (q := n / d) in *. set (r := n mod d) in *.
  destruct (Z.ltb_spec (2 * r) d) as [H1 | H1].
  - replace (n - q * d) with r by lia. rewrite Z.abs_eq by lia. lia.
  - destruct (Z.ltb_spec d (2 * r)) as [H2 | H2].
    + replace (n - (q + 1) * d) with (r - d) by lia.
      rewrite Z.abs_neq by lia. lia.
    + destruct (Z.even q) eqn:Hev.
      * replace (n - q * d) with r by lia. rewrite Z.abs_eq by lia. split; auto; lia.
      * replace (n - (q + 1) * d) with (r - d) by lia.
        rewrite Z.abs_neq by lia. split; [lia |]. intros _.
        replace (q + 1) with (Z.succ q) by lia. rewrite Z.even_succ.
        rewrite <- Z.negb_even. rewrite Hev. reflexivity.
Qed.

Lemma nearest_even_unique (n d t t' : Z) :
  0 < d -> nearest_even n d t -> nearest_even n d t' -> t = t'.
Proof.
  intros Hd [H1 E1] [H2 E2].
  assert (Hclose : Z.abs (t - t') <= 1) by nia.
  destruct (Z.eq_dec t t') as [| Hne]; [assumption | exfalso].
  assert (Hcase : t' = t + 1 \/ t = t' + 1) by lia.
  assert (Ht : 2 * Z.abs (n - t * d) = d) by nia.
  assert (Ht' : 2 * Z.abs (n - t' * d) = d) by nia.
  specialize (E1 Ht). specialize (E2 Ht').
  destruct Hcase as [-> | ->].
  - replace (t + 1) with (Z.succ t) in E2 by lia.
    rewrite Z.even_succ, <- Z.negb_even, E1 in E2. discriminate.
  - replace (t' + 1) with (Z.succ t') in E1 by lia.
    rewrite Z.even_succ, <- Z.negb_even, E2 in E1. discriminate.
Qed.

Lemma round_half_even_unique (n d t : Z) :
  0 < d -> nearest_even n d t -> round_half_even n d = t.
Proof.
  intros Hd Ht. apply (nearest_even_unique n d); auto using round_half_even_nearest.
Qed.

Lemma round_half_even_exact (a w : Z) : 0 < w -> round_half_even (a * w) w = a.
Proof.
  intros Hw. apply round_half_even_unique; [assumption |].
  unfold nearest_even. replace (a * w - a * w) with 0 by lia. simpl. lia.
Qed.

(** Equal fractions round alike. *)
Lemma round_half_even_cross (a b a' b' : Z) :
  0 < b -> 0 < b' -> a * b' = a' * b ->
  round_half_even a b = round_half_even a' b'.
Proof.
  intros Hb Hb' Heq. apply round_half_even_unique; [assumption |].
  destruct (round_half_even_nearest a' b' Hb') as [H1 E1].
  set (t := round_half_even a' b') in *.
  assert (Hscale : b' * (a - t * b) = b * (a' - t * b')) by lia.
  assert (Habs : b' * Z.abs (a - t * b) = b * Z.abs (a' - t * b')).
  { rewrite <- (Z.abs_eq b') at 1 by lia. rewrite <- Z.abs_mul, Hscale, Z.abs_mul.
    rewrite (Z.abs_eq b) by lia. reflexivity. }
  split.
  - nia.
  - intros Htie. apply E1. nia.
Qed.

(** Rounding an approximation [c / w] of [p / d] to the nearest integer is
    rounding [p / d] itself, when the approximation is within half a unit of
    [1 / w] and [w] is more than [d] times the scale [s] of the final
    rounding. *)
Lemma round_half_even_twice (p d c w s : Z) :
  0 < d -> 0 < s -> s * d < w -> (2 * s | w) ->
  2 * Z.abs (c * d - p * w) <= d ->
  round_half_even (s * c) w = round_half_even (s * p) d.
Proof.
  intros Hd Hs Hgap [w' Hw'] Hnear.
  assert (Hw : 0 < w) by nia.
  symmetry. apply round_half_even_unique; [assumption |].
  destruct (round_half_even_nearest (s * c) w Hw) as [H1 E1].
  set (t := round_half_even (s * c) w) in *.
  assert (Hid : w * (s * p - t * d) = d * (s * c - t * w) - s * (c * d - p * w)) by lia.
  assert (Hle : 2 * (w * Z.abs (s * p - t * d)) <= d * w + s * d).
  { rewrite <- (Z.abs_eq w) at 1 by lia. rewrite <- Z.abs_mul, Hid.
    pose proof (Z.abs_triangle (d * (s * c - t * w)) (- (s * (c * d - p * w)))) as Htri.
    rewrite Z.abs_opp, !Z.abs_mul, (Z.abs_eq d), (Z.abs_eq s) in Htri by lia.
    replace (d * (s * c - t * w) - s * (c * d - p * w))
      with (d * (s * c - t * w) + - (s * (c * d - p * w))) by lia.
    nia. }
  assert (Hbound : 2 * Z.abs (s * p - t * d) <= d) by nia.
  split; [assumption |].
  intros Htie. apply E1.
  (* a tie means p / d is a multiple of 1 / w, so the approximation is exact *)
  assert (Hexact : c * d = p * w).
  { assert (Hmul : exists j, p * w = j * d).
    { destruct (Z.abs_eq_or_opp (s * p - t * d)) as [Ha | Ha]; rewrite Ha in Htie.
      - exists ((2 * t + 1) * w'). nia.
      - exists ((2 * t - 1) * w'). nia. }
    destruct Hmul as [j Hj].
    assert (Hcj : 2 * (d * Z.abs (c - j)) <= d).
    { rewrite <- (Z.abs_eq d) at 1 by lia. rewrite <- Z.abs_mul.
      replace (d * (c - j)) with (c * d - p * w) by lia. assumption. }
    assert (c = j) by nia. subst j. lia. }
  assert (Hid' : w * (s * p - t * d) = d * (s * c - t * w)) by nia.
  assert (Habs : w * Z.abs (s * p - t * d) = d * Z.abs (s * c - t * w)).
  { rewrite <- (Z.abs_eq w) at 1 by lia. rewrite <- Z.abs_mul, Hid', Z.abs_mul.
    rewrite (Z.abs_eq d) by lia. reflexivity. }
  nia.
Qed.

End RoundingFacts.


Section DivisionFacts.

Local Open Scope Z_scope.

Lemma pow10_le_inv (a b : Z) : 0 <= a -> 0 <= b -> 10 ^ a <= 10 ^ b -> a <= b.
Proof.
  intros Ha Hb H. destruct (Z_le_gt_dec a b) as [Hle | Hgt]; [assumption |].
  assert (10 ^ b < 10 ^ a) by (apply pow10_lt; lia). lia.
Qed.

Lemma ndigits_gt (n k : Z) : 0 <= k -> 10 ^ k <= n -> k < ndigits n.
Proof.
  intros Hk Hn. pose proof (pow10_pos k Hk).
  destruct (ndigits_bounds n ltac:(lia)) as (H1 & _ & Hhi).
  apply pow10_lt_inv; lia.
Qed.

Lemma ndigits_opp (n : Z) : ndigits (- n) = ndigits n.
Proof. unfold ndigits. rewrite Z.abs_opp. reflexivity. Qed.

Lemma round_half_even_opp (n d : Z) :
  0 < d -> round_half_even (- n) d = - round_half_even n d.
Proof.
  intros Hd. apply round_half_even_unique; [assumption |].
  destruct (round_half_even_nearest n d Hd) as [H1 E1].
  unfold nearest_even.
  replace (- n - - round_half_even n d * d) with (- (n - round_half_even n d * d)) by lia.
  rewrite Z.abs_opp, Z.even_opp. auto.
Qed.

Lemma round_sticky (c0 w' tn d : Z) :
  0 < d -> 0 < w' ->
  c0 * d = tn \/ (Z.abs (c0 * d - tn) < d /\ c0 mod 5 <> 0) ->
  2 * Z.abs (round_half_even c0 (10 * w') * (10 * w') * d - tn) <= 10 * w' * d.
Proof.
  intros Hd Hw' Hpre.
  destruct (round_half_even_nearest c0 (10 * w') ltac:(lia)) as [H1 _].
  set (c' := round_half_even c0 (10 * w')) in *.
  destruct Hpre as [Hex | [Hlt Hmod]].
  - subst tn. replace (c' * (10 * w') * d - c0 * d) with (- ((c0 - c' * (10 * w')) * d)) by lia.
    rewrite Z.abs_opp, Z.abs_mul, (Z.abs_eq d) by lia. nia.
  - assert (Hx : 2 * Z.abs (c0 - c' * (10 * w')) <= 10 * w' - 2).
    { assert (Hne : 2 * Z.abs (c0 - c' * (10 * w')) <> 10 * w').
      { intros Heq. apply Hmod. apply Z.mod_divide; [lia |].
        destruct (Z.abs_eq_or_opp (c0 - c' * (10 * w'))) as [Ha | Ha]; rewrite Ha in Heq.
        - exists (2 * c' * w' + w'). lia.
        - exists (2 * c' * w' - w'). lia. }
      lia. }
    replace (c' * (10 * w') * d - tn)
      with (- ((c0 - c' * (10 * w')) * d) + (c0 * d - tn)) by lia.
    pose proof (Z.abs_triangle (- ((c0 - c' * (10 * w')) * d)) (c0 * d - tn)) as Htri.
    rewrite Z.abs_opp, Z.abs_mul, (Z.abs_eq d) in Htri by lia. nia.
Qed.

Lemma truncates_le (c m p d : Z) :
  0 < p -> 0 < d -> 0 <= m -> truncates c m p d -> c <= p * 10 ^ m.
Proof.
  intros Hp Hd Hm Hpre. pose proof (pow10_pos m Hm).
  destruct (Z_le_gt_dec c 0) as [| Hc]; [nia |].
  destruct Hpre as [Hex | (Hlt & _ & _)]; [nia |].
  assert ((c - 1) * d < p * 10 ^ m) by lia. nia.
Qed.

Lemma approximates_le (c m p d : Z) :
  0 < p -> 0 < d -> 0 <= m -> approximates c m p d -> c <= p * 10 ^ m.
Proof.
  intros Hp Hd Hm Hpre. pose proof (pow10_pos m Hm).
  destruct (Z_le_gt_dec c 0) as [| Hc]; [nia |].
  destruct Hpre as [Hex | (Hlt & _)]; [nia |].
  assert ((2 * c - 1) * d <= 2 * (p * 10 ^ m)) by lia. nia.
Qed.

(** The bounds of a rounding of a coefficient with more than 28 digits. *)
Lemma round_long (c0 : Z) :
  0 < c0 -> 28 < ndigits c0 ->
  let k := ndigits c0 - 28 in
  10 ^ 27 * 10 ^ k <= c0 < 10 ^ 28 * 10 ^ k
  /\ 10 ^ 27 <= round_half_even c0 (10 ^ k) <= 10 ^ 28.
Proof.
  intros Hc0 Hlong k.
  assert (Hk : 1 <= k) by (unfold k; lia).
  destruct (ndigits_bounds c0 Hc0) as (_ & Hlo & Hhi).
  replace (ndigits c0 - 1) with (27 + k) in Hlo by (unfold k; lia).
  replace (ndigits c0) with (28 + k) in Hhi by (unfold k; lia).
  rewrite pow10_add in Hlo, Hhi by lia.
  pose proof (pow10_pos k ltac:(lia)) as Hw.
  destruct (round_half_even_nearest c0 (10 ^ k) Hw) as [Hn _].
  split; [lia |]. split; nia.
Qed.

Lemma fix_round (c0 m0 p d : Z) :
  0 < p < 10 ^ 23 -> 0 < d -> 0 < c0 -> 0 <= m0 -> truncates c0 m0 p d ->
  exists c m,
    fix_ (mkDec c0 (- m0)) = mkDec c (- m)
    /\ 0 <= m /\ 0 < c /\ ndigits c <= 28 /\ approximates c m p d.
Proof.
  intros Hp Hd Hc0 Hm0 Hpre. unfold fix_. cbn [coef expo].
  destruct (Z.eqb_spec c0 0) as [| _]; [lia |].
  unfold prec.
  destruct (Z.ltb_spec (- m0) (ndigits c0 + - m0 - 28)) as [Hlong | Hshort].
  - destruct (round_long c0 Hc0 ltac:(lia)) as ([Hlo Hhi] & Hc'lo & Hc'hi).
    set (k := ndigits c0 - 28) in *.
    assert (Hk : 1 <= k) by (unfold k; lia).
    replace (ndigits c0 + - m0 - 28 - - m0) with k by (unfold k; lia).
    assert (Hle : c0 <= p * 10 ^ m0) by (apply (truncates_le c0 m0 p d); assumption || lia).
    assert (Hm : 27 + k <= 23 + m0).
    { apply pow10_le_inv; try lia. rewrite !pow10_add by lia.
      pose proof (pow10_pos m0 Hm0). nia. }
    set (w' := 10 ^ (k - 1)).
    assert (Hw' : 0 < w') by (apply pow10_pos; lia).
    assert (Hw : 10 ^ k = 10 * w').
    { unfold w'. rewrite <- pow10_succ by lia. f_equal. lia. }
    rewrite Hw in *.
    assert (Hnear : 2 * Z.abs (round_half_even c0 (10 * w') * (10 * w') * d - p * 10 ^ m0)
                    <= 10 * w' * d).
    { apply round_sticky; try lia.
      destruct Hpre as [Hex | (Hlt & Hmod & _)]; [left | right]; auto. }
    set (c' := round_half_even c0 (10 * w')) in *.
    assert (Hsplit : 10 ^ m0 = 10 ^ (m0 - k) * (10 * w')).
    { rewrite <- Hw, <- pow10_add by lia. f_equal. lia. }
    assert (Hnear' : 2 * Z.abs (c' * d - p * 10 ^ (m0 - k)) <= d).
    { rewrite Hsplit in Hnear.
      replace (c' * (10 * w') * d - p * (10 ^ (m0 - k) * (10 * w')))
        with ((c' * d - p * 10 ^ (m0 - k)) * (10 * w')) in Hnear by lia.
      rewrite Z.abs_mul, (Z.abs_eq (10 * w')) in Hnear by lia. nia. }
    destruct (Z.ltb_spec 28 (ndigits c')) as [Hcarry | Hfit].
    + assert (Hc' : c' = 10 ^ 28).
      { destruct (Z.eq_dec c' (10 ^ 28)) as [| Hne]; [assumption | exfalso].
        assert (ndigits c' <= 28) by (apply ndigits_le; lia). lia. }
      exists (10 ^ 27), (m0 - k - 1). rewrite Hc'.
      change (10 ^ 28 / 10) with (10 ^ 27).
      split; [f_equal; unfold k; lia |].
      split; [lia |]. split; [lia |]. split; [vm_compute; discriminate |].
      right. split; [| lia].
      rewrite Hc' in Hnear'.
      assert (Hs : 10 ^ (m0 - k) = 10 * 10 ^ (m0 - k - 1)).
      { rewrite <- pow10_succ by lia. f_equal. lia. }
      rewrite Hs in Hnear'. change (10 ^ 28) with (10 * 10 ^ 27) in Hnear'.
      replace (10 * 10 ^ 27 * d - p * (10 * 10 ^ (m0 - k - 1)))
        with (10 * (10 ^ 27 * d - p * 10 ^ (m0 - k - 1))) in Hnear' by lia.
      rewrite Z.abs_mul in Hnear'. change (Z.abs 10) with 10 in Hnear'. lia.
    + exists c', (m0 - k).
      split; [f_equal; unfold k; lia |].
      split; [lia |]. split; [lia |]. split; [lia |].
      right. split; assumption.
  - exists c0, m0. split; [reflexivity |]. split; [assumption |].
    split; [assumption |]. split; [lia |].
    destruct Hpre as [Hex | (_ & _ & Hlong)]; [left; assumption | lia].
Qed.

(** [_fix] treats a coefficient and its opposite alike. *)
Lemma fix_opp (c e : Z) :
  0 < c -> fix_ (mkDec (- c) e) = neg (fix_ (mkDec c e)).
Proof.
  intros Hc. unfold fix_, neg, prec. cbn [coef expo]. rewrite ndigits_opp.
  destruct (Z.eqb_spec (- c) 0) as [| _]; [lia |].
  destruct (Z.eqb_spec c 0) as [| _]; [lia |].
  destruct (Z.ltb_spec e (ndigits c + e - 28)) as [Hlong | Hshort]; [| reflexivity].
  destruct (round_long c Hc ltac:(lia)) as (_ & Hlo & Hhi).
  replace (ndigits c + e - 28 - e) with (ndigits c - 28) by lia.
  rewrite round_half_even_opp by (apply pow10_pos; lia).
  set (c' := round_half_even c (10 ^ (ndigits c - 28))) in *.
  rewrite ndigits_opp.
  destruct (Z.ltb_spec 28 (ndigits c')) as [Hcarry | Hfit]; [| reflexivity].
  assert (Hc' : c' = 10 ^ 28).
  { destruct (Z.eq_dec c' (10 ^ 28)) as [| Hne]; [assumption | exfalso].
    assert (ndigits c' <= 28) by (apply ndigits_le; lia). lia. }
  rewrite Hc'. reflexivity.
Qed.

End DivisionFacts.

Section QuotientFacts.

Local Open Scope Z_scope.

Lemma strip_zeros_spec (fuel : nat) :
  forall c e ideal c' e',
  e <= ideal -> strip_zeros fuel c e ideal = (c', e') ->
  e <= e' <= ideal /\ c = c' * 10 ^ (e' - e).
Proof.
  induction fuel as [| fuel IH]; intros c e ideal c' e' Hle Heq; cbn [strip_zeros] in Heq.
  - inversion Heq; subst. rewrite Z.sub_diag. simpl. lia.
  - destruct (Z.ltb_spec e ideal) as [Hlt | Hge]; cbn [andb] in Heq.
    + destruct (Z.eqb_spec (c mod 10) 0) as [Hmod | Hmod].
      * apply IH in Heq; [| lia]. destruct Heq as [Hrange Hc].
        split; [lia |].
        replace (e' - e) with (e' - (e + 1) + 1) by lia.
        rewrite pow10_succ by lia.
        pose proof (Z.div_mod c 10 ltac:(lia)) as Hdm. rewrite Hmod in Hdm.
        rewrite Hc in Hdm. lia.
      * inversion Heq; subst. rewrite Z.sub_diag. simpl. lia.
    + inversion Heq; subst. rewrite Z.sub_diag. simpl. lia.
Qed.

(** What [__truediv__] hands to [_fix] for two decimals of one exponent, the
    dividend of magnitude [p] and sign [sign], the divisor [d] positive. *)
Lemma div_truncates (sign p d e : Z) :
  0 < p < 10 ^ 23 -> 0 < d -> sign = 1 \/ sign = -1 ->
  exists c0 m0,
    div (mkDec (sign * p) e) (mkDec d e) = Ok (fix_ (mkDec (sign * c0) (- m0)))
    /\ 0 < c0 /\ 0 <= m0 /\ truncates c0 m0 p d.
Proof.
  intros Hp Hd Hsign. unfold div. cbn [coef expo].
  destruct (Z.eqb_spec d 0) as [| _]; [lia |].
  destruct (Z.eqb_spec (sign * p) 0) as [| _]; [lia |].
  replace (Z.abs (sign * p)) with p by lia. rewrite (Z.abs_eq d) by lia.
  replace (Z.sgn (sign * p) * Z.sgn d) with sign by lia.
  unfold prec.
  destruct (ndigits_bounds p ltac:(lia)) as (Hp1 & Hplo & _).
  destruct (ndigits_bounds d ltac:(lia)) as (Hd1 & _ & Hdhi).
  assert (Hp23 : ndigits p <= 23) by (apply ndigits_le; lia).
  set (s := ndigits d - ndigits p + 28 + 1).
  assert (Hs : 7 <= s) by (unfold s; lia).
  destruct (Z.leb_spec 0 s) as [_ |]; [| lia].
  replace (e - e - s) with (- s) by lia. rewrite Z.sub_diag.
  pose proof (Z.div_mod (p * 10 ^ s) d ltac:(lia)) as Hdm.
  pose proof (Z.mod_pos_bound (p * 10 ^ s) d ltac:(lia)) as Hr.
  set (q := p * 10 ^ s / d) in *. set (r := (p * 10 ^ s) mod d) in *.
  assert (Hq : 10 ^ 28 <= q).
  { apply Z.div_le_lower_bound; [lia |].
    assert (Hpd : 10 ^ (ndigits d) * 10 ^ 28 <= p * 10 ^ s).
    { rewrite <- pow10_add by lia.
      replace (ndigits d + 28) with ((ndigits p - 1) + s) by (unfold s; lia).
      rewrite pow10_add by lia. pose proof (pow10_pos s ltac:(lia)). nia. }
    nia. }
  destruct (Z.eqb_spec r 0) as [Hr0 | Hr0].
  - destruct (strip_zeros (Z.to_nat s) q (- s) 0) as [c e'] eqn:Hstrip.
    apply strip_zeros_spec in Hstrip; [| lia]. destruct Hstrip as [Hrange Hc].
    pose proof (pow10_pos (e' - - s) ltac:(lia)) as Hpos.
    exists c, (- e'). rewrite Z.opp_involutive.
    split; [reflexivity |]. split; [nia |]. split; [lia |]. left.
    assert (Hsplit : 10 ^ s = 10 ^ (- e') * 10 ^ (e' - - s)).
    { rewrite <- pow10_add by lia. f_equal. lia. }
    nia.
  - set (c0 := if q mod 5 =? 0 then q + 1 else q).
    assert (Hc0 : q <= c0 <= q + 1) by (unfold c0; destruct (q mod 5 =? 0); lia).
    exists c0, s. split; [reflexivity |]. split; [lia |]. split; [lia |]. right.
    split; [| split].
    + unfold c0. destruct (q mod 5 =? 0); rewrite Z.abs_lt; lia.
    + unfold c0. destruct (Z.eqb_spec (q mod 5) 0) as [H5 | H5]; [| assumption].
      rewrite Z.add_mod, H5 by lia. vm_compute. discriminate.
    + apply ndigits_gt; lia.
Qed.

(** The division of two decimals of one exponent, the divisor positive and
    the dividend not zero and below 10^23 in magnitude. *)
Lemma div_spec (sign p d e : Z) :
  0 < p < 10 ^ 23 -> 0 < d -> sign = 1 \/ sign = -1 ->
  exists c m,
    div (mkDec (sign * p) e) (mkDec d e) = Ok (mkDec (sign * c) (- m))
    /\ 0 <= m /\ 0 < c /\ ndigits c <= 28 /\ approximates c m p d.
Proof.
  intros Hp Hd Hsign.
  destruct (div_truncates sign p d e Hp Hd Hsign) as (c0 & m0 & Hdiv & Hc0 & Hm0 & Hpre).
  destruct (fix_round c0 m0 p d Hp Hd Hc0 Hm0 Hpre) as (c & m & Hfix & Hrest).
  exists c, m. split; [| exact Hrest]. rewrite Hdiv. f_equal.
  destruct Hsign as [-> | ->].
  - rewrite !Z.mul_1_l. exact Hfix.
  - replace (-1 * c0) with (- c0) by lia. replace (-1 * c) with (- c) by lia.
    rewrite fix_opp, Hfix by assumption. reflexivity.
Qed.

(** [d * Decimal("100")] keeps the value: a coefficient of more than 28
    digits only loses the zeros gained. *)
Lemma mul_100_spec (sign c g : Z) :
  0 < c -> ndigits c <= 28 -> sign = 1 \/ sign = -1 ->
  exists c2 g2,
    mul (mkDec (sign * c) g) (mkDec 100 0) = mkDec (sign * c2) g2
    /\ g <= g2 <= g + 2 /\ c2 * 10 ^ (g2 - g) = 100 * c /\ 0 < c2.
Proof.
  intros Hc Hnd Hsign.
  assert (Hpos : exists c2 g2,
             fix_ (mkDec (c * 100) (g + 0)) = mkDec c2 g2
             /\ g <= g2 <= g + 2 /\ c2 * 10 ^ (g2 - g) = 100 * c /\ 0 < c2).
  { unfold fix_. cbn [coef expo].
    destruct (Z.eqb_spec (c * 100) 0) as [| _]; [lia |].
    assert (Hd : ndigits (c * 100) = ndigits c + 2).
    { change 100 with (10 ^ 2). apply ndigits_mul_pow10; lia. }
    rewrite Hd. unfold prec.
    destruct (ndigits_bounds c Hc) as (H1 & Hlo & Hhi).
    destruct (Z.ltb_spec (g + 0) (ndigits c + 2 + (g + 0) - 28)) as [Hlong | Hshort].
    - set (k := ndigits c - 26) in *.
      replace (ndigits c + 2 + (g + 0) - 28 - (g + 0)) with k by (unfold k; lia).
      assert (Hk : 1 <= k <= 2) by (unfold k; lia).
      assert (Hsplit : c * 100 = c * 10 ^ (2 - k) * 10 ^ k).
      { rewrite <- Z.mul_assoc, <- pow10_add by lia.
        replace (2 - k + k) with 2 by lia. reflexivity. }
      rewrite Hsplit, round_half_even_exact by (apply pow10_pos; lia).
      assert (Hd2 : ndigits (c * 10 ^ (2 - k)) = 28).
      { rewrite ndigits_mul_pow10 by lia. unfold k. lia. }
      rewrite Hd2. simpl (28 <? 28).
      exists (c * 10 ^ (2 - k)), (ndigits c + 2 + (g + 0) - 28).
      split; [reflexivity |]. split; [lia |].
      pose proof (pow10_pos (2 - k) ltac:(lia)).
      split; [| nia].
      replace (ndigits c + 2 + (g + 0) - 28 - g) with k by (unfold k; lia). lia.
    - exists (c * 100), (g + 0). split; [reflexivity |]. split; [lia |].
      replace (g + 0 - g) with 0 by lia. simpl. lia. }
  destruct Hpos as (c2 & g2 & Hfix & Hrest). exists c2, g2. split; [| exact Hrest].
  unfold mul. cbn [coef expo]. destruct Hsign as [-> | ->].
  - rewrite !Z.mul_1_l. exact Hfix.
  - replace (-1 * c * 100) with (- (c * 100)) by lia.
    replace (-1 * c2) with (- c2) by lia.
    rewrite fix_opp, Hfix by lia. reflexivity.
Qed.

End QuotientFacts.

Section RateFacts.

Local Open Scope Z_scope.

Lemma fix_short (c e : Z) : ndigits c <= 28 -> fix_ (mkDec c e) = mkDec c e.
Proof.
  intros Hnd. unfold fix_, prec. cbn [coef expo].
  destruct (c =? 0); [reflexivity |].
  destruct (Z.ltb_spec e (ndigits c + e - 28)); [lia | reflexivity].
Qed.

Lemma quantize_hundredths (c g : Z) :
  c <> 0 -> ndigits c + g <= 26 ->
  let f := if -2 <=? g then c * 10 ^ (g - -2)
           else round_half_even c (10 ^ (-2 - g)) in
  ndigits f <= 28 ->
  quantize (mkDec c g) (mkDec 1 (-2)) = Ok (mkDec f (-2)).
Proof.
  intros Hc Hadj f Hf. unfold quantize, adjusted, rescale, prec. cbn [coef expo].
  destruct (Z.eqb_spec c 0) as [| _]; [lia |].
  destruct (Z.ltb_spec 28 (g + ndigits c - 1 - -2 + 1)) as [| _]; [lia |].
  fold f.
  replace (coef (if -2 <=? g then mkDec (c * 10 ^ (g - -2)) (-2)
                 else mkDec (round_half_even c (10 ^ (-2 - g))) (-2))) with f
    by (unfold f; destruct (-2 <=? g); reflexivity).
  destruct (Z.ltb_spec 28 (ndigits f)) as [| _]; [lia |].
  replace (if -2 <=? g then mkDec (c * 10 ^ (g - -2)) (-2)
           else mkDec (round_half_even c (10 ^ (-2 - g))) (-2)) with (mkDec f (-2))
    by (unfold f; destruct (-2 <=? g); reflexivity).
  rewrite fix_short by assumption. reflexivity.
Qed.

Lemma round_half_even_ratio_bounds (p d : Z) :
  0 <= p <= d -> 0 < d -> 0 <= round_half_even (10000 * p) d <= 10000.
Proof.
  intros Hp Hd.
  destruct (round_half_even_nearest (10000 * p) d Hd) as [Hn _].
  set (t := round_half_even (10000 * p) d) in *.
  assert (2 * (t * d) <= 2 * (10000 * p) + d) by lia.
  assert (2 * (10000 * p) <= 2 * (t * d) + d) by lia.
  split; nia.
Qed.

Lemma round_half_even_magnitude (p d : Z) :
  0 < p -> 0 < d -> 0 <= round_half_even (10000 * p) d <= 10000 * p.
Proof.
  intros Hp Hd.
  destruct (round_half_even_nearest (10000 * p) d Hd) as [Hn _].
  set (t := round_half_even (10000 * p) d) in *.
  assert (2 * (t * d) <= 2 * (10000 * p) + d) by lia.
  assert (2 * (10000 * p) <= 2 * (t * d) + d) by lia.
  split; nia.
Qed.

(** The hundredths that the quantization of [100 * (c * 10 ^ (- m))]
    leaves are the rounding of [10000 * p / d]. *)
Lemma quantized_ratio (p d c m c2 g2 : Z) :
  0 < p < 10 ^ 23 -> 0 < d < 10 ^ 23 -> 0 <= m -> 0 < c ->
  approximates c m p d ->
  - m <= g2 <= - m + 2 -> c2 * 10 ^ (g2 + m) = 100 * c ->
  (if -2 <=? g2 then c2 * 10 ^ (g2 - -2) else round_half_even c2 (10 ^ (-2 - g2)))
  = round_half_even (10000 * p) d.
Proof.
  intros Hp Hd Hm Hc Happ Hg2 Hc2.
  pose proof (pow10_pos m Hm) as Hpm.
  pose proof (pow10_pos (g2 + m) ltac:(lia)) as Hpgm.
  assert (H23 : 10 ^ 23 = 100000000000000000000000) by reflexivity.
  assert (H27 : 10 ^ 27 = 1000000000000000000000000000) by reflexivity.
  assert (Hbig : 10 ^ 27 <= c -> 10000 * d < 10 ^ m).
  { intros Hc27. destruct Happ as [Hex | [Hnear _]]; [nia |].
    assert (Hcd : (2 * c - 1) * d <= 2 * p * 10 ^ m) by lia.
    assert (Hlow : (2 * 10 ^ 27 - 1) * d <= 2 * p * 10 ^ m) by nia.
    assert (Hup : 2 * p * (10000 * d) < (2 * 10 ^ 27 - 1) * d) by nia.
    nia. }
  destruct (Z.leb_spec (-2) g2) as [Hpad | Hround].
  - assert (Hex : c * d = p * 10 ^ m).
    { destruct Happ as [Hex | [_ Hc27]]; [assumption | exfalso].
      specialize (Hbig Hc27).
      assert (10 ^ m <= 10 ^ 4) by (apply pow10_le; lia).
      change (10 ^ 4) with 10000 in *. nia. }
    replace (10000 * p) with (c2 * 10 ^ (g2 - -2) * d).
    { symmetry. apply round_half_even_exact. lia. }
    assert (Hs : 10 ^ (g2 - -2) * 10 ^ m = 100 * 10 ^ (g2 + m)).
    { rewrite <- pow10_add by lia. replace (g2 - -2 + m) with (2 + (g2 + m)) by lia.
      rewrite pow10_add by lia. reflexivity. }
    apply (Z.mul_reg_r _ _ (10 ^ m)); [lia |]. nia.
  - transitivity (round_half_even (10000 * c) (10 ^ m)).
    + apply round_half_even_cross; [apply pow10_pos; lia | lia |].
      assert (Hs : 10 ^ m * 1 = 10 ^ (g2 + m) * 10 ^ (- g2)).
      { rewrite <- pow10_add by lia. rewrite Z.mul_1_r. f_equal. lia. }
      assert (Hs2 : 10 ^ (- g2) = 100 * 10 ^ (-2 - g2)).
      { change 100 with (10 ^ 2). rewrite <- pow10_add by lia. f_equal. lia. }
      nia.
    + destruct Happ as [Hex | [Hnear Hc27]].
      * apply round_half_even_cross; [lia | lia | lia].
      * specialize (Hbig Hc27).
        assert (H5 : 5 <= m).
        { apply pow10_le_inv; try lia. change (10 ^ 5) with 100000.
          destruct (Z_le_gt_dec 5 m) as [H5 | H5].
          - assert (10 ^ 5 <= 10 ^ m) by (apply pow10_le; lia).
            change (10 ^ 5) with 100000 in *. lia.
          - assert (10 ^ m <= 10 ^ 4) by (apply pow10_le; lia).
            change (10 ^ 4) with 10000 in *. lia. }
        apply round_half_even_twice; [lia | lia | lia | | assumption].
        exists (5 * 10 ^ (m - 5)).
        replace m with (5 + (m - 5)) at 1 by lia.
        rewrite pow10_add by lia. change (10 ^ 5) with 100000. lia.
Qed.

(** The expression [(paid_total / denominator * Decimal("100")).quantize(
    Decimal("0.01"))] for operands in hundredths, the denominator positive. *)
Lemma rate_spec (sign p d : Z) :
  0 < p < 10 ^ 23 -> 0 < d < 10 ^ 23 -> sign = 1 \/ sign = -1 ->
  (let* ratio := div (mkDec (sign * p) (-2)) (mkDec d (-2)) in
   quantize (mul ratio (mkDec 100 0)) (mkDec 1 (-2)))
  = Ok (mkDec (round_half_even (10000 * (sign * p)) d) (-2)).
Proof.
  intros Hp Hd Hsign.
  destruct (div_spec sign p d (-2) Hp ltac:(lia) Hsign)
    as (c & m & Hdiv & Hm & Hc & Hnd & Happ).
  rewrite Hdiv. cbn [bind].
  destruct (mul_100_spec sign c (- m) Hc Hnd Hsign) as (c2 & g2 & Hmul & Hg2 & Hc2 & Hc2pos).
  rewrite Hmul.
  replace (g2 - - m) with (g2 + m) in Hc2 by lia.
  pose proof (quantized_ratio p d c m c2 g2 Hp Hd Hm Hc Happ Hg2 Hc2) as Hgoal.
  pose proof (approximates_le c m p d ltac:(lia) ltac:(lia) Hm Happ) as Hle.
  pose proof (pow10_pos m Hm) as Hpm.
  pose proof (pow10_pos (g2 + m) ltac:(lia)) as Hpgm.
  assert (Hc2le : c2 < 10 ^ (25 - g2)).
  { assert (Hs : 100 * (10 ^ 23 * 10 ^ m) = 10 ^ (25 - g2) * 10 ^ (g2 + m)).
    { rewrite <- !pow10_add by lia. change 100 with (10 ^ 2).
      rewrite <- pow10_add by lia. f_equal. lia. }
    nia. }
  assert (Hadj : ndigits c2 + g2 <= 26).
  { assert (ndigits c2 <= 25 - g2) by (apply ndigits_le; lia). lia. }
  pose proof (round_half_even_magnitude p d ltac:(lia) ltac:(lia)) as Hb.
  assert (H23 : 10 ^ 23 = 100000000000000000000000) by reflexivity.
  assert (Hf : ndigits (round_half_even (10000 * p) d) <= 28).
  { apply ndigits_le; lia. }
  destruct Hsign as [-> | ->].
  - rewrite !Z.mul_1_l in *. rewrite quantize_hundredths; try lia.
    + rewrite Hgoal. reflexivity.
    + cbv zeta. rewrite Hgoal. exact Hf.
  - replace (-1 * c2) with (- c2) by lia. replace (-1 * p) with (- p) by lia.
    replace (10000 * - p) with (- (10000 * p)) by lia.
    rewrite round_half_even_opp by lia.
    assert (Hneg : (if -2 <=? g2 then - c2 * 10 ^ (g2 - -2)
                    else round_half_even (- c2) (10 ^ (-2 - g2)))
                   = - round_half_even (10000 * p) d).
    { rewrite <- Hgoal. destruct (Z.leb_spec (-2) g2); [lia |].
      apply round_half_even_opp. apply pow10_pos. lia. }
    rewrite quantize_hundredths.
    + rewrite Hneg. reflexivity.
    + lia.
    + rewrite ndigits_opp. exact Hadj.
    + cbv zeta. rewrite Hneg, ndigits_opp. exact Hf.
Qed.

End RateFacts.


(** ** The payment summary *)

Section SummaryFacts.

Local Open Scope Z_scope.



Lemma or_zero_Sum (cond : PaymentSchedule -> bool) (rows : list PaymentSchedule) :
  or_zero (Sum cond rows) = mkDec (amount_where cond rows) (-2).
Proof.
  unfold Sum, amount_where.
  destruct (List.filter cond rows) as [| s l]; [reflexivity |].
  cbn [or_zero]. unfold truthy. cbn [coef].
  destruct (Z.eqb_spec (fold_right Z.add 0 (map total_amount (s :: l))) 0) as [H0 | H0];
    cbn [negb]; [rewrite H0 |]; reflexivity.
Qed.

Lemma amount_where_split (rows : list PaymentSchedule) :
  amount_where (has_status DUE) rows + amount_where (has_status OVERDUE) rows
  + amount_where (has_status PAID) rows = amount_sum rows.
Proof.
  unfold amount_where, amount_sum, has_status.
  induction rows as [| s rows IH]; [reflexivity |].
  cbn [List.filter map fold_right]. destruct (status s); cbn [Status_eqb map fold_right]; lia.
Qed.

Lemma amount_where_none (cond : PaymentSchedule -> bool) (rows : list PaymentSchedule) :
  (forall s, In s rows -> cond s = false) -> amount_where cond rows = 0.
Proof.
  intros Hnone. unfold amount_where.
  induction rows as [| s rows IH]; [reflexivity |].
  cbn [List.filter]. rewrite (Hnone s) by (left; reflexivity).
  apply IH. intros s' Hin. apply Hnone. right. assumption.
Qed.

Lemma amount_where_nonneg (cond : PaymentSchedule -> bool) (rows : list PaymentSchedule) :
  Forall (fun s => 0 <= total_amount s) rows ->
  0 <= amount_where cond rows <= amount_sum rows.
Proof.
  unfold amount_where, amount_sum. induction 1 as [| s rows Hs _ IH]; [simpl; lia |].
  cbn [List.filter map fold_right]. destruct (cond s); cbn [map fold_right]; lia.
Qed.

Lemma amount_where_abs (rows : list PaymentSchedule) :
  Z.abs (amount_where (has_status DUE) rows)
  + Z.abs (amount_where (has_status OVERDUE) rows)
  + Z.abs (amount_where (has_status PAID) rows) <= abs_amount_sum rows.
Proof.
  unfold amount_where, abs_amount_sum, has_status.
  induction rows as [| s rows IH]; [simpl; lia |].
  cbn [List.filter map fold_right]. destruct (status s); cbn [Status_eqb map fold_right]; lia.
Qed.

Lemma add_hundredths (a b : Z) :
  Z.abs (a + b) < 10 ^ 28 -> add (mkDec a (-2)) (mkDec b (-2)) = mkDec (a + b) (-2).
Proof.
  intros Hsmall. unfold add. cbn [coef expo].
  change (Z.min (-2) (-2)) with (-2). change (10 ^ (-2 - -2)) with 1.
  rewrite !Z.mul_1_r. apply fix_short.
  rewrite <- ndigits_abs. apply ndigits_le; lia.
Qed.

Lemma div_nonzero (a b : Decimal) : coef b <> 0 -> exists r, div a b = Ok r.
Proof.
  intros Hb. unfold div. destruct (Z.eqb_spec (coef b) 0) as [| _]; [contradiction |].
  destruct (coef a =? 0); [eauto |].
  match goal with |- context [if ?c then _ else _] => destruct c end.
  - match goal with |- context [strip_zeros ?f ?c ?e ?i] => destruct (strip_zeros f c e i) end.
    eauto.
  - eauto.
Qed.

Lemma quantize_raises (d e : Decimal) (x : exn) :
  quantize d e = Raise x -> exn_cls x = InvalidOperation.
Proof.
  unfold quantize. repeat match goal with |- context [if ?c then _ else _] => destruct c end;
    intros H; inversion H; reflexivity.
Qed.

End SummaryFacts.

Section SummaryTheorems.

Local Open Scope Z_scope.

Lemma get_summary_totals (rows : list PaymentSchedule) (summary : Summary) :
  get_summary rows = Ok summary ->
  due_total summary = mkDec (amount_where (has_status DUE) rows) (-2)
  /\ overdue_total summary = mkDec (amount_where (has_status OVERDUE) rows) (-2)
  /\ paid_total summary = mkDec (amount_where (has_status PAID) rows) (-2).
Proof.
  unfold get_summary. rewrite !or_zero_Sum.
  match goal with |- context [bind ?r _] => destruct r as [rate | e] end;
    cbn [bind]; intros H; inversion H; subst; cbn; auto.
Qed.

Lemma get_summary_rate (rows : list PaymentSchedule) :
  abs_amount_sum rows < 10 ^ 23 ->
  exists summary,
    get_summary rows = Ok summary
    /\ collection_rate summary =
       mkDec (if 0 <? amount_sum rows
              then round_half_even (10000 * amount_where (has_status PAID) rows)
                                   (amount_sum rows)
              else 0) (-2).
Proof.
  intros Hsmall.
  pose proof (amount_where_abs rows) as Habs.
  pose proof (amount_where_split rows) as Hsplit.
  assert (Hbig : 10 ^ 23 < 10 ^ 28) by (vm_compute; reflexivity).
  unfold get_summary. rewrite !or_zero_Sum.
  rewrite (add_hundredths (amount_where (has_status DUE) rows)) by lia.
  rewrite add_hundredths by lia. rewrite Hsplit.
  unfold gt0. cbn [coef].
  set (paid := amount_where (has_status PAID) rows) in *.
  destruct (Z.ltb_spec 0 (amount_sum rows)) as [Hpos | Hzero].
  - destruct (Z_dec paid 0) as [[Hneg | Hgt] | Hp0].
    + pose proof (rate_spec (-1) (- paid) (amount_sum rows) ltac:(lia) ltac:(lia)
                    ltac:(right; reflexivity)) as Hrate.
      replace (-1 * - paid) with paid in Hrate by lia.
      rewrite Hrate. cbn [bind]. eexists. split; reflexivity.
    + pose proof (rate_spec 1 paid (amount_sum rows) ltac:(lia) ltac:(lia)
                    ltac:(left; reflexivity)) as Hrate.
      rewrite Z.mul_1_l in Hrate.
      rewrite Hrate. cbn [bind]. eexists. split; reflexivity.
    + rewrite Hp0. unfold div. cbn [coef expo].
      destruct (Z.eqb_spec (amount_sum rows) 0) as [| _]; [lia |].
      cbn [bind]. eexists. split; [reflexivity |]. cbn [collection_rate].
      replace (10000 * 0) with (0 * amount_sum rows) by lia.
      rewrite round_half_even_exact by lia. reflexivity.
  - cbn [bind]. eexists. split; reflexivity.
Qed.

End SummaryTheorems.

(** C5: the three totals of the summary add up to the sum of all amounts of
    the schedule set (all in hundredths, each total a decimal with two
    places), and the total of a status that no record has is 0.00. *)
Theorem get_summary_totals_partition (rows : list PaymentSchedule) (summary : Summary) :
  get_summary rows = Ok summary ->
  (expo (due_total summary) = -2 /\ expo (overdue_total summary) = -2
   /\ expo (paid_total summary) = -2)
  /\ coef (due_total summary) + coef (overdue_total summary)
     + coef (paid_total summary) = amount_sum rows
  /\ ((forall s, In s rows -> status s <> DUE) -> due_total summary = mkDec 0 (-2))
  /\ ((forall s, In s rows -> status s <> OVERDUE) -> overdue_total summary = mkDec 0 (-2))
  /\ ((forall s, In s rows -> status s <> PAID) -> paid_total summary = mkDec 0 (-2)).
Proof.
  intros Hsum. destruct (get_summary_totals rows summary Hsum) as (Hd & Ho & Hp).
  rewrite Hd, Ho, Hp. cbn [coef expo].
  assert (Hnone : forall st, (forall s, In s rows -> status s <> st) ->
                             amount_where (has_status st) rows = 0).
  { intros st Hst. apply amount_where_none. intros s Hin. specialize (Hst s Hin).
    unfold has_status. destruct (status s), st; try reflexivity; contradiction. }
  split; [auto |]. split; [apply amount_where_split |].
  repeat split; intros Hst; rewrite (Hnone _ Hst); reflexivity.
Qed.

(** On three schedules: 100.00 paid, 50.00 due and 50.00 overdue. *)
Lemma get_summary_totals_partition_witness :
  get_summary example_schedules = Ok example_summary
  /\ coef (due_total example_summary) + coef (overdue_total example_summary)
     + coef (paid_total example_summary) = amount_sum example_schedules.
Proof.
  split; [reflexivity |].
  apply (get_summary_totals_partition example_schedules example_summary).
  reflexivity.
Defined.

(** C1 (as the code has it): [get_summary] never divides by a zero
    denominator.  For a schedule set whose amounts add up, in magnitude, to
    less than 10^23 hundredths (so that the 28 digits of the decimal context
    lose nothing that matters), it returns a summary whose collection rate
    is a decimal with two places: paid_total / (due_total + overdue_total
    + paid_total) x 100 rounded to the nearest hundredth (ties to even) when
    the denominator is positive, and 0.00 when it is 0 (or negative).  The
    rate lies between 0 and 100 when no amount is negative. *)
Theorem get_summary_collection_rate (rows : list PaymentSchedule) :
  (forall e, get_summary rows = Raise e ->
             exn_cls e <> DivisionByZero /\ exn_cls e <> DivisionUndefined)
  /\ (abs_amount_sum rows < 10 ^ 23 ->
      exists summary,
        get_summary rows = Ok summary
        /\ (expo (due_total summary) = -2 /\ expo (overdue_total summary) = -2
            /\ expo (paid_total summary) = -2)
        /\ expo (collection_rate summary) = -2
        /\ (let paid := coef (paid_total summary) in
            let denominator :=
              coef (due_total summary) + coef (overdue_total summary)
              + coef (paid_total summary) in
            (0 < denominator ->
             nearest_even (10000 * paid) denominator (coef (collection_rate summary)))
            /\ (denominator <= 0 -> coef (collection_rate summary) = 0))
        /\ (Forall (fun s => 0 <= total_amount s) rows ->
            0 <= coef (collection_rate summary) <= 10000)).
Proof.
  split.
  - intros e. unfold get_summary.
    match goal with |- context [gt0 ?d] => destruct (gt0 d) eqn:Hgt end.
    + unfold gt0 in Hgt. apply Z.ltb_lt in Hgt.
      match goal with |- context [div ?a ?b] =>
        destruct (div_nonzero a b ltac:(lia)) as [r Hr]; rewrite Hr end.
      cbn [bind].
      match goal with |- context [quantize ?a ?b] => destruct (quantize a b) eqn:Hq end;
        cbn [bind]; intros H; inversion H; subst.
      apply quantize_raises in Hq. rewrite Hq. split; discriminate.
    + cbn [bind]. intros H; inversion H.
  - intros Hsmall.
    destruct (get_summary_rate rows Hsmall) as (summary & Hsum & Hrate).
    exists summary. split; [assumption |].
    destruct (get_summary_totals rows summary Hsum) as (Hd & Ho & Hp).
    rewrite Hd, Ho, Hp, Hrate. cbn [coef expo].
    rewrite amount_where_split.
    split; [auto |]. split; [reflexivity |].
    destruct (Z.ltb_spec 0 (amount_sum rows)) as [Hpos | Hzero].
    + split; [split |].
      * intros _. apply round_half_even_nearest. assumption.
      * lia.
      * intros Hnonneg.
        pose proof (amount_where_nonneg (has_status PAID) rows Hnonneg) as Hpaid.
        apply round_half_even_ratio_bounds; lia.
    + split; [split |]; lia.
Qed.

Lemma get_summary_collection_rate_witness :
  abs_amount_sum example_schedules < 10 ^ 23
  /\ Forall (fun s => 0 <= total_amount s) example_schedules
  /\ exists summary,
       get_summary example_schedules = Ok summary
       /\ expo (collection_rate summary) = -2
       /\ 0 <= coef (collection_rate summary) <= 10000.
Proof.
  assert (H1 : abs_amount_sum example_schedules < 10 ^ 23) by (vm_compute; reflexivity).
  assert (H2 : Forall (fun s => 0 <= total_amount s) example_schedules).
  { repeat constructor; simpl; lia. }
  split; [exact H1 |]. split; [exact H2 |].
  destruct (proj2 (get_summary_collection_rate example_schedules) H1)
    as (summary & Hsum & _ & Hexpo & _ & Hrange).
  exists summary. split; [exact Hsum |]. split; [exact Hexpo |]. exact (Hrange H2).
Defined.

(** C1 (as the claim has it) fails on two schedule sets.  With 100.00 paid
    and -50.00 due the denominator is 50.00 and the rate 200.00, above 100.
    With 10^28 + 1 hundredths paid out of 2 * 10^32 the quotient is rounded
    to 28 digits before it is quantized, and the rate is 0.00 although
    paid / denominator x 100 is nearer to 0.01. *)
Lemma collection_rate_counterexample :
  (exists summary,
     get_summary negative_schedules = Ok summary
     /\ collection_rate summary = mkDec 20000 (-2)
     /\ ~ (0 <= coef (collection_rate summary) <= 10000))
  /\ (exists summary,
        get_summary huge_schedules = Ok summary
        /\ collection_rate summary = mkDec 0 (-2)
        /\ (let paid := coef (paid_total summary) in
            let denominator :=
              coef (due_total summary) + coef (overdue_total summary)
              + coef (paid_total summary) in
            0 < denominator
            /\ nearest_even (10000 * paid) denominator 1
            /\ ~ nearest_even (10000 * paid) denominator
                   (coef (collection_rate summary)))).
Proof.
  split.
  - eexists. split; [vm_compute; reflexivity |]. split; [reflexivity |].
    cbn [collection_rate coef]. lia.
  - eexists. split; [vm_compute; reflexivity |]. split; [reflexivity |].
    cbn [paid_total due_total overdue_total collection_rate coef].
    split; [reflexivity |]. split.
    + split; [vm_compute; discriminate |]. intros H. exfalso. revert H. vm_compute. discriminate.
    + intros [H _]. revert H. vm_compute. intros H. apply H. reflexivity.
Qed.

(** ** The overdue refresh *)

Lemma mark_overdue_row_idempotent (reference_date : date) (s : PaymentSchedule) :
  mark_overdue_row reference_date (mark_overdue_row reference_date s)
  = mark_overdue_row reference_date s.
Proof.
  unfold mark_overdue_row.
  destruct (Status_eqb (status s) DUE && date_ltb (due_date s) reference_date) eqn:Hcond.
  - reflexivity.
  - rewrite Hcond. reflexivity.
Qed.

Lemma mark_overdue_table (reference_date : date) (w : World) :
  schedule_table (snd (mark_overdue reference_date w))
  = match fst (mark_overdue reference_date w) with
    | Ok _ => map (mark_overdue_row reference_date) (schedule_table w)
    | Raise _ => schedule_table w
    end.
Proof.
  unfold mark_overdue, vbind, db_op, set_schedule_table.
  destruct (db_faults w) as [| [e |] rest]; reflexivity.
Qed.

Lemma get_queryset_world (request : Request) (w : World) :
  snd (PaymentScheduleListView_get_queryset request w)
  = snd (mark_overdue (today request) w).
Proof.
  unfold PaymentScheduleListView_get_queryset, vbind, ret.
  destruct (mark_overdue (today request) w) as [[[] | e] w']; reflexivity.
Qed.

(** C8: after a refresh that went through, running [mark_overdue] again with
    the same reference date leaves every schedule as it is, so the status of
    a record changes at most once over the two calls, and so does the
    refresh at the head of [PaymentScheduleListView.get_queryset] on the
    same day; the refresh itself moves exactly the DUE records due before
    the reference date to OVERDUE. *)
Theorem mark_overdue_idempotent (reference_date : date) (w : World) :
  fst (mark_overdue reference_date w) = Ok tt ->
  let w1 := snd (mark_overdue reference_date w) in
  let w2 := snd (mark_overdue reference_date w1) in
  schedule_table w1 = map (mark_overdue_row reference_date) (schedule_table w)
  /\ schedule_table w2 = schedule_table w1
  /\ (forall request,
        today request = reference_date ->
        schedule_table (snd (PaymentScheduleListView_get_queryset request w1))
        = schedule_table w1)
  /\ Forall (fun s =>
               status (mark_overdue_row reference_date s)
               = if Status_eqb (status s) DUE && date_ltb (due_date s) reference_date
                 then OVERDUE else status s)
            (schedule_table w).
Proof.
  intros Hok. cbv zeta.
  pose proof (mark_overdue_table reference_date w) as H1. rewrite Hok in H1.
  assert (H2 : schedule_table (snd (mark_overdue reference_date
                                      (snd (mark_overdue reference_date w))))
               = schedule_table (snd (mark_overdue reference_date w))).
  { rewrite mark_overdue_table.
    destruct (fst (mark_overdue reference_date (snd (mark_overdue reference_date w))));
      [| reflexivity].
    rewrite H1, map_map. apply map_ext. intros s. apply mark_overdue_row_idempotent. }
  split; [exact H1 |]. split; [exact H2 |]. split.
  - intros request <-. rewrite get_queryset_world. exact H2.
  - apply List.Forall_forall. intros s _. unfold mark_overdue_row.
    destruct (Status_eqb (status s) DUE && date_ltb (due_date s) reference_date);
      reflexivity.
Qed.

(** A schedule due on 2024-01-10 and still DUE, refreshed on 2024-02-01,
    becomes OVERDUE and stays so. *)
Lemma mark_overdue_idempotent_witness :
  fst (mark_overdue (mkDate 2024 2 1) due_world) = Ok tt
  /\ map status (schedule_table (snd (mark_overdue (mkDate 2024 2 1) due_world)))
     = [OVERDUE]
  /\ schedule_table (snd (mark_overdue (mkDate 2024 2 1)
                            (snd (mark_overdue (mkDate 2024 2 1) due_world))))
     = schedule_table (snd (mark_overdue (mkDate 2024 2 1) due_world)).
Proof.
  split; [reflexivity |]. split; [reflexivity |].
  apply (mark_overdue_idempotent (mkDate 2024 2 1) due_world). reflexivity.
Defined.

(** ** The chart months *)

(** C2 (what the code does on 2024-03-31): the six offsets of 30 days land
    in November, December, January, January, March and March; February is
    skipped, January and March are doubled. *)
Theorem get_chart_data_2024_03_31 :
  exists months,
    fst (get_chart_data (mkDate 2024 3 31) example_world) = Ok months
    /\ map (fun m => (month_label m, month_start m, month_end m)) months
       = [("Nov", mkDate 2023 11 1, mkDate 2023 11 30);
          ("Dec", mkDate 2023 12 1, mkDate 2023 12 31);
          ("Jan", mkDate 2024 1 1, mkDate 2024 1 31);
          ("Jan", mkDate 2024 1 1, mkDate 2024 1 31);
          ("Mar", mkDate 2024 3 1, mkDate 2024 3 31);
          ("Mar", mkDate 2024 3 1, mkDate 2024 3 31)].
Proof. eexists. split; vm_compute; reflexivity. Qed.

(** ** The approval workflow *)

Lemma rstrip_empty (s : string) : rstrip s = EmptyString <-> blank s = true.
Proof.
  induction s as [| c s IH]; cbn [rstrip blank]; [tauto |].
  destruct (rstrip s) as [| c' r] eqn:Hr.
  - destruct (is_space c); cbn [andb].
    + tauto.
    + split; discriminate.
  - split; [discriminate |]. intros H. apply andb_true_iff in H. destruct H as [_ H].
    apply IH in H. discriminate.
Qed.

Lemma lstrip_blank (s : string) : blank (lstrip s) = true -> lstrip s = EmptyString.
Proof.
  induction s as [| c s IH]; cbn [lstrip]; [reflexivity |].
  destruct (is_space c) eqn:Hc; [assumption |].
  cbn [blank]. rewrite Hc. discriminate.
Qed.

Lemma lstrip_empty (s : string) : lstrip s = EmptyString <-> blank s = true.
Proof.
  induction s as [| c s IH]; cbn [lstrip blank]; [tauto |].
  destruct (is_space c); cbn [andb]; [assumption |]. split; discriminate.
Qed.

(** [s.strip()] is empty exactly when [s] is empty or whitespace only. *)
Lemma strip_empty (s : string) : strip s = EmptyString <-> blank s = true.
Proof.
  unfold strip. rewrite rstrip_empty. split.
  - intros H. apply lstrip_empty. apply lstrip_blank. assumption.
  - intros H. apply lstrip_empty in H. rewrite H. reflexivity.
Qed.

Lemma get_object_or_404_found (pk : Z) (w w1 : World) (m : Motor) :
  get_object_or_404 pk w = (Ok m, w1) ->
  motor_table w !! pk = Some m
  /\ next_db_op_succeeds w
  /\ w1 = mkWorld (schedule_table w) (motor_table w) (tail (db_faults w))
                  (messages w) (stderr w).
Proof.
  unfold next_db_op_succeeds. run_view.
  match goal with |- context [match ?f with _ => _ end] =>
    destruct f as [| [e |] rest] end; cbn [tail];
    try discriminate;
    destruct (_ !! pk) as [m' |]; intros H; inversion H; subst; auto.
Qed.

(** C3: when the request finds a motor that is not PENDING, an approve or a
    reject request leaves the motor table as it is and answers with a
    redirect and an error message; when it finds a PENDING motor and the
    database takes the write, an approve request stores the motor as
    APPROVED with the acting user and the notes; and whenever an approve or
    a reject request changes the motor table, the motor was PENDING. *)
Theorem approval_only_from_pending (request : Request) (pk : Z) (w w1 : World) (m : Motor) :
  get_object_or_404 pk w = (Ok m, w1) ->
  (approval_status m <> PENDING ->
   (exists w',
      MotorApproveView_post request pk w
      = (Ok (mkRedirect "inventory:motor-approval-detail" (Some (motor_pk m))), w')
      /\ motor_table w' = motor_table w
      /\ messages w' = messages w ++ [(msg_error, "Only pending motors can be approved.")])
   /\ (exists w',
         MotorRejectView_post request pk w
         = (Ok (mkRedirect "inventory:motor-approval-detail" (Some (motor_pk m))), w')
         /\ motor_table w' = motor_table w
         /\ messages w' = messages w ++ [(msg_error, "Only pending motors can be rejected.")]))
  /\ (approval_status m = PENDING -> next_db_op_succeeds w1 ->
      let notes := strip (get_param (POST request) "approval_notes" "") in
      exists w',
        MotorApproveView_post request pk w
        = (Ok (mkRedirect "inventory:motor-approval-detail" (Some (motor_pk m))), w')
        /\ motor_table w' = <[motor_pk m := approved m (user request) notes]> (motor_table w)
        /\ messages w'
           = messages w ++ [(msg_success,
                             "Motorcycle '" +:+ display_name m +:+ "' has been approved.")])
  /\ (motor_table (snd (MotorApproveView_post request pk w)) <> motor_table w ->
      approval_status m = PENDING)
  /\ (motor_table (snd (MotorRejectView_post request pk w)) <> motor_table w ->
      approval_status m = PENDING).
Proof.
  intros Hfound. destruct (get_object_or_404_found pk w w1 m Hfound) as (Hm & Hdb & ->).
  clear Hfound. split; [| split; [| split]].
  - intros Hst. unfold MotorApproveView_post, MotorRejectView_post, next_db_op_succeeds in *.
    run_view.
    match goal with H : match ?f with _ => _ end |- _ => destruct f as [| [e |] rest] end;
      try contradiction; cbn [tail]; rewrite Hm;
      destruct (approval_status m); try contradiction; cbn -[String.append];
      split; eexists; (split; [reflexivity | split; reflexivity]).
  - intros Hst Hsave. cbv zeta.
    unfold MotorApproveView_post, Motor_approve, next_db_op_succeeds in *.
    destruct w as [st mt faults msgs err].
    cbn [db_faults motor_table schedule_table messages stderr] in *.
    destruct faults as [| [e |] [| [e' |] rest]]; cbn [tail] in *; try contradiction;
      run_view; rewrite Hm, Hst; cbn -[String.append strip insert];
      eexists; (split; [reflexivity |]); split; reflexivity.
  - intros Hch. destruct (approval_status m) eqn:Hst; [reflexivity | exfalso ..];
      apply Hch; unfold MotorApproveView_post; run_view;
      match goal with |- context [match ?f with _ => _ end] =>
        destruct f as [| [e |] rest] end; cbn [tail snd motor_table];
      try reflexivity; rewrite Hm, Hst; reflexivity.
  - intros Hch. destruct (approval_status m) eqn:Hst; [reflexivity | exfalso ..];
      apply Hch; unfold MotorRejectView_post; run_view;
      match goal with |- context [match ?f with _ => _ end] =>
        destruct f as [| [e |] rest] end; cbn [tail snd motor_table];
      try reflexivity; rewrite Hm, Hst; reflexivity.
Qed.

Lemma approval_only_from_pending_witness :
  (exists w',
     MotorRejectView_post example_request 7 example_inventory
     = (Ok (mkRedirect "inventory:motor-approval-detail" (Some 7)), w')
     /\ motor_table w' = motor_table example_inventory
     /\ messages w' = [(msg_error, "Only pending motors can be rejected.")])
  /\ (exists w',
        MotorApproveView_post example_request 8 example_inventory
        = (Ok (mkRedirect "inventory:motor-approval-detail" (Some 8)), w')
        /\ motor_table w' !! 8 = Some (mkMotor 8 "Yamaha Mio" APPROVED (Some "finance2") "ok")).
Proof.
  split.
  - destruct (approval_only_from_pending example_request 7 example_inventory
                example_inventory example_motor ltac:(reflexivity)) as [H _].
    destruct (H ltac:(discriminate)) as [_ (w' & Hpost & Htable & Hmsg)].
    exists w'. split; [exact Hpost |]. split; [exact Htable | exact Hmsg].
  - destruct (approval_only_from_pending example_request 8 example_inventory
                example_inventory example_pending_motor ltac:(reflexivity)) as (_ & H & _).
    destruct (H ltac:(reflexivity) I) as (w' & Hpost & Htable & _).
    exists w'. split; [exact Hpost |]. rewrite Htable. reflexivity.
Defined.

(** C4: on a PENDING motor, [reject] with empty or whitespace-only notes
    raises ValidationError and stores nothing; a reject request that finds a
    PENDING motor and carries such notes is answered with a redirect and an
    error message, and the motor stays as it was, PENDING. *)
Theorem reject_requires_reason (request : Request) (pk : Z) (w w1 : World) (m : Motor) :
  get_object_or_404 pk w = (Ok m, w1) ->
  approval_status m = PENDING ->
  (forall actor notes w0,
     blank notes = true ->
     exists msg, Motor_reject m actor notes w0 = (Raise (mkExn ValidationError msg), w0))
  /\ (blank (get_param (POST request) "rejection_notes" "") = true ->
      exists w',
        MotorRejectView_post request pk w
        = (Ok (mkRedirect "inventory:motor-approval-detail" (Some (motor_pk m))), w')
        /\ messages w'
           = messages w ++ [(msg_error, "Please provide a reason for rejection.")]
        /\ motor_table w' = motor_table w
        /\ motor_table w' !! pk = Some m).
Proof.
  intros Hfound Hst.
  destruct (get_object_or_404_found pk w w1 m Hfound) as (Hm & Hdb & ->). clear Hfound.
  split.
  - intros actor notes w0 Hblank. unfold Motor_reject. rewrite Hst.
    apply strip_empty in Hblank. rewrite Hblank. cbn. eexists. reflexivity.
  - intros Hblank. apply strip_empty in Hblank.
    unfold MotorRejectView_post, next_db_op_succeeds in *. rewrite Hblank.
    run_view.
    match goal with H : match ?f with _ => _ end |- _ => destruct f as [| [e |] rest] end;
      try contradiction; rewrite Hm, Hst; cbn; eexists;
      (split; [reflexivity |]); (split; [reflexivity |]); (split; [reflexivity |]);
      exact Hm.
Qed.

Lemma reject_requires_reason_witness :
  blank (get_param (POST example_request) "rejection_notes" "") = true
  /\ exists w',
       MotorRejectView_post example_request 8 example_inventory
       = (Ok (mkRedirect "inventory:motor-approval-detail" (Some 8)), w')
       /\ motor_table w' !! 8 = Some example_pending_motor.
Proof.
  split; [reflexivity |].
  destruct (reject_requires_reason example_request 8 example_inventory example_inventory
              example_pending_motor ltac:(reflexivity) ltac:(reflexivity)) as [_ H].
  destruct (H ltac:(reflexivity)) as (w' & Hpost & _ & _ & Hthere).
  exists w'. split; [exact Hpost | exact Hthere].
Defined.

(** ** Query sets: filtering and ordering *)

Section QuerySetFacts.

Context {Row : Type}.

Variable attr : string -> Row -> Value.

Variable leb : Value -> Value -> bool.

Hypothesis leb_total : forall a b, leb a b = true \/ leb b a = true.

Hypothesis leb_trans : forall a b c, leb a b = true -> leb b c = true -> leb a c = true.

Lemma row_leb_total (terms : list QuerySet.OrderTerm) (a b : Row) :
  QuerySet.row_leb attr leb terms a b = true \/ QuerySet.row_leb attr leb terms b a = true.
Proof.
  induction terms as [| [f desc] terms IH]; cbn [QuerySet.row_leb]; [auto |].
  destruct (leb_total (attr f a) (attr f b)) as [H | H];
    destruct (leb (attr f a) (attr f b)) eqn:Hab;
    destruct (leb (attr f b) (attr f a)) eqn:Hba;
    destruct desc; cbn [andb]; auto; discriminate.
Qed.

Lemma row_leb_trans (terms : list QuerySet.OrderTerm) (a b c : Row) :
  QuerySet.row_leb attr leb terms a b = true ->
  QuerySet.row_leb attr leb terms b c = true ->
  QuerySet.row_leb attr leb terms a c = true.
Proof.
  induction terms as [| [f desc] terms IH]; cbn [QuerySet.row_leb]; [auto |].
  pose proof (leb_trans (attr f a) (attr f b) (attr f c)) as Tabc.
  pose proof (leb_trans (attr f c) (attr f b) (attr f a)) as Tcba.
  pose proof (leb_trans (attr f b) (attr f a) (attr f c)) as Tbac.
  pose proof (leb_trans (attr f c) (attr f a) (attr f b)) as Tcab.
  pose proof (leb_trans (attr f b) (attr f c) (attr f a)) as Tbca.
  pose proof (leb_trans (attr f a) (attr f c) (attr f b)) as Tacb.
  destruct (leb (attr f a) (attr f b)), (leb (attr f b) (attr f a)),
    (leb (attr f b) (attr f c)), (leb (attr f c) (attr f b)),
    (leb (attr f a) (attr f c)), (leb (attr f c) (attr f a));
    destruct desc; cbn [andb]; auto;
    try discriminate;
    try (specialize (Tabc eq_refl eq_refl); discriminate);
    try (specialize (Tcba eq_refl eq_refl); discriminate);
    try (specialize (Tbac eq_refl eq_refl); discriminate);
    try (specialize (Tcab eq_refl eq_refl); discriminate);
    try (specialize (Tbca eq_refl eq_refl); discriminate);
    try (specialize (Tacb eq_refl eq_refl); discriminate).
Qed.

Lemma insert_row_perm (terms : list QuerySet.OrderTerm) (x : Row) (l : list Row) :
  Permutation (QuerySet.insert_row attr leb terms x l) (x :: l).
Proof.
  induction l as [| y l IH]; cbn [QuerySet.insert_row]; [reflexivity |].
  destruct (QuerySet.row_leb attr leb terms x y); [reflexivity |].
  rewrite IH. apply perm_swap.
Qed.

Lemma sort_rows_perm (terms : list QuerySet.OrderTerm) (l : list Row) :
  Permutation (QuerySet.sort_rows attr leb terms l) l.
Proof.
  induction l as [| x l IH]; cbn [QuerySet.sort_rows]; [reflexivity |].
  rewrite insert_row_perm. apply perm_skip. exact IH.
Qed.

Lemma insert_row_sorted (terms : list QuerySet.OrderTerm) (x : Row) (l : list Row) :
  ordered_as attr leb terms l ->
  ordered_as attr leb terms (QuerySet.insert_row attr leb terms x l).
Proof.
  unfold ordered_as. induction 1 as [| y l Hl IH Hy]; cbn [QuerySet.insert_row].
  - constructor; constructor.
  - destruct (QuerySet.row_leb attr leb terms x y) eqn:Hxy.
    + constructor; [constructor; assumption |].
      constructor; [assumption |].
      apply List.Forall_forall. intros z Hz. rewrite List.Forall_forall in Hy.
      apply (row_leb_trans terms x y z); auto.
    + constructor; [assumption |].
      assert (Hyx : QuerySet.row_leb attr leb terms y x = true).
      { destruct (row_leb_total terms x y) as [H | H]; [congruence | assumption]. }
      apply List.Forall_forall. intros z Hz.
      apply (Permutation_in _ (insert_row_perm terms x l)) in Hz.
      destruct Hz as [<- | Hz]; [assumption |].
      rewrite List.Forall_forall in Hy. auto.
Qed.

Lemma sort_rows_sorted (terms : list QuerySet.OrderTerm) (l : list Row) :
  ordered_as attr leb terms (QuerySet.sort_rows attr leb terms l).
Proof.
  induction l as [| x l IH]; cbn [QuerySet.sort_rows].
  - constructor.
  - apply insert_row_sorted. exact IH.
Qed.

(** The rows of a filtered query set are the rows of the query set that
    satisfy the condition. *)
Lemma fetch_filter (table : list Row) (cond : Row -> bool) (qs : QuerySet.t Row) (r : Row) :
  In r (QuerySet.fetch attr leb table (QuerySet.filter cond qs))
  <-> In r (QuerySet.fetch attr leb table qs) /\ cond r = true.
Proof.
  unfold QuerySet.fetch, QuerySet.filter. cbn [QuerySet.where_ QuerySet.ordering].
  split.
  - intros H. apply (Permutation_in _ (sort_rows_perm _ _)) in H.
    apply filter_In in H. destruct H as [Hin Hc]. apply andb_true_iff in Hc.
    destruct Hc as [Hw Hc]. split; [| assumption].
    apply (Permutation_in _ (Permutation_sym (sort_rows_perm _ _))).
    apply filter_In. auto.
  - intros [H Hc]. apply (Permutation_in _ (sort_rows_perm _ _)) in H.
    apply filter_In in H. destruct H as [Hin Hw].
    apply (Permutation_in _ (Permutation_sym (sort_rows_perm _ _))).
    apply filter_In. rewrite Hw, Hc. auto.
Qed.

(** [order_by] rearranges the rows of the query set under the new clause. *)
Lemma fetch_order_by (table : list Row) (specs : list string) (qs : QuerySet.t Row) :
  ordered_as attr leb (map QuerySet.parse_order specs)
    (QuerySet.fetch attr leb table (QuerySet.order_by specs qs))
  /\ Permutation (QuerySet.fetch attr leb table (QuerySet.order_by specs qs))
                 (QuerySet.fetch attr leb table qs).
Proof.
  unfold QuerySet.fetch, QuerySet.order_by. cbn [QuerySet.where_ QuerySet.ordering].
  split; [apply sort_rows_sorted |].
  rewrite !sort_rows_perm. reflexivity.
Qed.

Lemma StronglySorted_ext (R R' : Row -> Row -> Prop) (l : list Row) :
  (forall a b, R a b -> R' a b) -> StronglySorted R l -> StronglySorted R' l.
Proof.
  intros Himp. induction 1 as [| x l Hl IH Hx]; constructor; [assumption |].
  apply List.Forall_forall. intros y Hy. rewrite List.Forall_forall in Hx. auto.
Qed.

Lemma row_leb_single (f : string) (desc : bool) (a b : Row) :
  QuerySet.row_leb attr leb [(f, desc)] a b = true ->
  (if desc then leb (attr f b) (attr f a) else leb (attr f a) (attr f b)) = true.
Proof.
  cbn [QuerySet.row_leb].
  destruct (leb (attr f a) (attr f b)) eqn:Hab, (leb (attr f b) (attr f a)) eqn:Hba,
    desc; cbn [andb]; auto.
Qed.

Lemma ordered_as_descending (f : string) (l : list Row) :
  ordered_as attr leb [(f, true)] l -> descending_by attr leb f l.
Proof.
  apply StronglySorted_ext. intros a b H. exact (row_leb_single f true a b H).
Qed.

Lemma ordered_as_ascending (f : string) (l : list Row) :
  ordered_as attr leb [(f, false)] l -> ascending_by attr leb f l.
Proof.
  apply StronglySorted_ext. intros a b H. exact (row_leb_single f false a b H).
Qed.

End QuerySetFacts.

Lemma parse_order_minus (f : string) : QuerySet.parse_order ("-" +:+ f) = (f, true).
Proof. reflexivity. Qed.

Lemma parse_order_plain (f : string) :
  plain_column f -> QuerySet.parse_order f = (f, false).
Proof.
  unfold plain_column, QuerySet.parse_order. destruct f as [| c f]; [reflexivity |].
  destruct c as [[|] [|] [|] [|] [|] [|] [|] [|]]; try reflexivity. contradiction.
Qed.

Lemma int_leb_total (a b : Value) : int_leb a b = true \/ int_leb b a = true.
Proof. unfold int_leb. destruct a, b; lia. Qed.

Lemma int_leb_trans (a b c : Value) :
  int_leb a b = true -> int_leb b c = true -> int_leb a c = true.
Proof. unfold int_leb. destruct a, b, c; lia. Qed.

(** ** Searching and sorting through the mixin *)

Lemma append_cons (c : ascii) (s t : string) :
  String c s +:+ t = String c (s +:+ t).
Proof. reflexivity. Qed.

Lemma append_nil (t : string) : EmptyString +:+ t = t.
Proof. reflexivity. Qed.

Lemma prefix_append (needle hay : string) :
  String.prefix needle hay = true <-> exists post, hay = needle +:+ post.
Proof.
  revert hay. induction needle as [| a needle IH]; intros hay.
  - destruct hay; cbn [String.prefix]; split; eauto.
  - setoid_rewrite append_cons. destruct hay as [| b hay]; cbn [String.prefix].
    + split; [discriminate | intros [post H]; discriminate].
    + destruct (ascii_dec a b) as [-> | Hne].
      * rewrite IH. split; intros [post H]; exists post; congruence.
      * split; [discriminate | intros [post H]; congruence].
Qed.

(** [contains] finds exactly the substrings. *)
Lemma contains_spec (hay needle : string) :
  contains hay needle = true <-> exists pre post, hay = pre +:+ needle +:+ post.
Proof.
  split.
  - induction hay as [| c hay IH]; cbn [contains]; intros H;
      apply orb_true_iff in H; destruct H as [H | H].
    + apply prefix_append in H. destruct H as [post H]. exists EmptyString, post. exact H.
    + discriminate.
    + apply prefix_append in H. destruct H as [post H]. exists EmptyString, post. exact H.
    + destruct (IH H) as (pre & post & ->). exists (String c pre), post. reflexivity.
  - intros (pre & post & ->). induction pre as [| c pre IH].
    + rewrite append_nil.
      assert (Hp : String.prefix needle (needle +:+ post) = true)
        by (apply prefix_append; eauto).
      destruct (needle +:+ post); cbn [contains]; rewrite Hp; reflexivity.
    + rewrite append_cons. cbn [contains]. rewrite IH. apply orb_true_r.
Qed.

Lemma icontains_spec (v : Value) (s : string) :
  icontains v s = true <-> icontains_text v s.
Proof.
  unfold icontains, icontains_text. destruct (text_of v) as [t |].
  - rewrite contains_spec. split.
    + intros (pre & post & H). exists t, pre, post. auto.
    + intros (t' & pre & post & Ht & H). inversion Ht; subst. eauto.
  - split; [discriminate | intros (t & pre & post & H & _); discriminate].
Qed.

(** C6 (as the code has it): with [s] the search text that [apply_search]
    reads, which is the parameter [q] without its surrounding whitespace:
    when [s] is empty or no search field is configured the query set is
    returned as it is; otherwise the rows of the result are rows of the
    input, and a row of the input is kept exactly when one of the search
    fields contains [s], letter case aside.  [apply_search] is a function
    from query sets to query sets: the table and the input query set are
    values and stay as they are. *)
Theorem apply_search_keeps_matches {Row : Type} (attr : string -> Row -> Value)
    (leb : Value -> Value -> bool) (config : MixinConfig) (request : Request)
    (table : list Row) (queryset : QuerySet.t Row) :
  let s := strip (get_param (GET request) "q" "") in
  let input := QuerySet.fetch attr leb table queryset in
  let output := QuerySet.fetch attr leb table (apply_search attr config request queryset) in
  (s = EmptyString \/ search_fields config = [] ->
   apply_search attr config request queryset = queryset)
  /\ (s <> EmptyString ->
      search_fields config <> [] ->
      incl output input
      /\ (length output <= length input)%nat
      /\ forall r,
           In r output
           <-> In r input
               /\ exists field, In field (search_fields config)
                                /\ icontains_text (attr field r) s).
Proof.
  intros s input output. subst input output. split.
  - unfold apply_search. fold s. intros [-> | ->]; [reflexivity |].
    rewrite andb_false_r. reflexivity.
  - intros Hs Hfields.
    unfold apply_search. fold s.
    destruct s as [| c s'] eqn:Es; [contradiction |].
    destruct (search_fields config) as [| f fs] eqn:Ef; [contradiction |].
    cbn [nonempty nonempty_list andb]. rewrite <- Es, <- Ef.
    assert (Hcond : forall r, search_condition attr config s r = true
                              <-> exists field, In field (search_fields config)
                                                /\ icontains_text (attr field r) s).
    { intros r. unfold search_condition. rewrite existsb_exists.
      split; intros (field & Hin & H); exists field; (split; [assumption |]);
        apply icontains_spec; assumption. }
    assert (Hiff : forall r,
               In r (QuerySet.fetch attr leb table
                       (QuerySet.filter (search_condition attr config s) queryset))
               <-> In r (QuerySet.fetch attr leb table queryset)
                   /\ exists field, In field (search_fields config)
                                    /\ icontains_text (attr field r) s).
    { intros r. rewrite <- Hcond. apply fetch_filter. }
    split; [| split; [| exact Hiff]].
    + intros r Hr. apply Hiff in Hr. tauto.
    + unfold QuerySet.fetch, QuerySet.filter. cbn [QuerySet.where_ QuerySet.ordering].
      rewrite !(Permutation_length (sort_rows_perm _ _ _ _)). clear Hiff Hcond.
      induction table as [| x table IH]; cbn [List.filter]; [lia |].
      destruct (QuerySet.where_ queryset x); cbn [andb].
      * destruct (search_condition attr config s x); cbn [length]; lia.
      * exact IH.
Qed.

Lemma apply_search_keeps_matches_witness :
  strip (get_param (GET brand_request) "q" "") <> EmptyString
  /\ search_fields price_config <> []
  /\ In "Honda"
        (QuerySet.fetch brand_attr int_leb ["Yamaha"; "Honda"]
           (apply_search brand_attr price_config brand_request QuerySet.all)).
Proof.
  assert (H1 : strip (get_param (GET brand_request) "q" "") <> EmptyString)
    by (vm_compute; discriminate).
  assert (H2 : search_fields price_config <> []) by (vm_compute; discriminate).
  split; [exact H1 |]. split; [exact H2 |].
  apply (proj2 (apply_search_keeps_matches brand_attr int_leb price_config brand_request
                  ["Yamaha"; "Honda"] QuerySet.all) H1 H2).
  split.
  - vm_compute. auto.
  - exists "brand". split; [left; reflexivity |].
    exists "Honda", EmptyString, "da". split; reflexivity.
Defined.

(** C6 (as the claim has it) fails on a search text with a space after it:
    for [q] = "hon " the motor "Honda" is kept, though no search field
    contains "hon " with its space. *)
Lemma apply_search_counterexample :
  get_param (GET brand_request) "q" "" <> EmptyString
  /\ search_fields price_config <> []
  /\ In "Honda"
        (QuerySet.fetch brand_attr int_leb ["Yamaha"; "Honda"]
           (apply_search brand_attr price_config brand_request QuerySet.all))
  /\ ~ (exists field,
          In field (search_fields price_config)
          /\ icontains_text (brand_attr field "Honda")
                            (get_param (GET brand_request) "q" "")).
Proof.
  split; [vm_compute; discriminate |]. split; [vm_compute; discriminate |].
  split; [vm_compute; auto |].
  intros (field & Hin & Hcontains). apply icontains_spec in Hcontains.
  destruct Hin as [<- | []]. vm_compute in Hcontains. discriminate.
Qed.

(** C7: when the [sort] parameter is a key of [sort_fields], the rows come
    out ordered by the column that the key stands for, descending when
    [order] is "desc" and ascending for every other value of [order];
    for every other value of [sort] they come out in the default ordering:
    [default_sort] for the mixin (the query set is left as it is when
    [default_sort] is empty), due date then sequence for the payment
    schedule list.  Sorting only rearranges the rows.  The database order
    [leb] on column values is any total preorder. *)
Theorem sorting_follows_request (leb : Value -> Value -> bool) :
  (forall a b, leb a b = true \/ leb b a = true) ->
  (forall a b c, leb a b = true -> leb b c = true -> leb a c = true) ->
  (forall (Row : Type) (attr : string -> Row -> Value) (config : MixinConfig)
          (request : Request) (table : list Row) (queryset : QuerySet.t Row),
     let sort_by := get_param (GET request) "sort" "" in
     let order := get_param (GET request) "order" "asc" in
     let output := QuerySet.fetch attr leb table (apply_sorting config request queryset) in
     Permutation output (QuerySet.fetch attr leb table queryset)
     /\ match sort_fields config !! sort_by with
        | Some field =>
            (order = "desc" -> descending_by attr leb field output)
            /\ (order <> "desc" -> plain_column field -> ascending_by attr leb field output)
        | None =>
            if nonempty (default_sort config)
            then ordered_as attr leb [QuerySet.parse_order (default_sort config)] output
            else output = QuerySet.fetch attr leb table queryset
        end)
  /\ (forall (request : Request) (w w' : World) (schedules : QuerySet.t PaymentSchedule),
        PaymentScheduleListView_get_queryset request w = (Ok schedules, w') ->
        let sort_by := get_param (GET request) "sort" "" in
        let order := get_param (GET request) "order" "asc" in
        let output := QuerySet.fetch schedule_attr leb (schedule_table w') schedules in
        match schedule_sort_fields !! sort_by with
        | Some field =>
            (order = "desc" -> descending_by schedule_attr leb field output)
            /\ (order <> "desc" -> ascending_by schedule_attr leb field output)
        | None =>
            ordered_as schedule_attr leb [("due_date", false); ("sequence", false)] output
        end).
Proof.
  intros Htotal Htrans. split.
  - intros Row attr config request table queryset sort_by order output.
    subst output. unfold apply_sorting. fold sort_by order.
    destruct (sort_fields config !! sort_by) as [field |].
    + destruct (String.eqb_spec order "desc") as [Hdesc | Hasc].
      * destruct (fetch_order_by attr leb Htotal Htrans table ["-" +:+ field] queryset)
          as [Hsorted Hperm].
        split; [exact Hperm |]. cbn [map] in Hsorted.
        rewrite parse_order_minus in Hsorted.
        split; [intros _ | intros Hne; contradiction].
        apply ordered_as_descending. exact Hsorted.
      * destruct (fetch_order_by attr leb Htotal Htrans table [field] queryset)
          as [Hsorted Hperm].
        split; [exact Hperm |]. cbn [map] in Hsorted.
        split; [intros Heq; contradiction | intros _ Hplain].
        rewrite parse_order_plain in Hsorted by assumption.
        apply ordered_as_ascending. exact Hsorted.
    + destruct (nonempty (default_sort config)).
      * destruct (fetch_order_by attr leb Htotal Htrans table [default_sort config] queryset)
          as [Hsorted Hperm]. split; assumption.
      * split; reflexivity.
  - intros request w w' schedules Hqs sort_by order output. subst output.
    unfold PaymentScheduleListView_get_queryset, vbind, ret in Hqs.
    destruct (mark_overdue (today request) w) as [[[] | e] w1]; [| discriminate].
    fold sort_by order in Hqs.
    destruct (schedule_sort_fields !! sort_by) as [field |] eqn:Hfield.
    + assert (Hplain : plain_column field).
      { apply elem_of_list_to_map_2 in Hfield.
        repeat (apply elem_of_cons in Hfield; destruct Hfield as [Hfield | Hfield];
                [apply (f_equal snd) in Hfield; cbn [snd] in Hfield;
                 rewrite Hfield; exact I |]).
        apply elem_of_nil in Hfield. contradiction. }
      destruct (String.eqb_spec order "desc") as [Hdesc | Hasc];
        inversion Hqs; subst schedules w1; clear Hqs;
        match goal with |- context [QuerySet.order_by ?specs ?qs] =>
          destruct (fetch_order_by schedule_attr leb Htotal Htrans (schedule_table w')
                      specs qs) as [Hsorted _] end;
        cbn [map] in Hsorted.
      * rewrite parse_order_minus in Hsorted.
        split; [intros _ | intros Hne; contradiction].
        apply ordered_as_descending. exact Hsorted.
      * split; [intros Heq; contradiction | intros _].
        rewrite parse_order_plain in Hsorted by assumption.
        apply ordered_as_ascending. exact Hsorted.
    + inversion Hqs; subst; clear Hqs.
      assert (Hord : forall qs : QuerySet.t PaymentSchedule,
                 QuerySet.ordering qs = [("due_date", false); ("sequence", false)] ->
                 ordered_as schedule_attr leb [("due_date", false); ("sequence", false)]
                   (QuerySet.fetch schedule_attr leb (schedule_table w') qs)).
      { intros qs Hq. unfold QuerySet.fetch. rewrite Hq. apply sort_rows_sorted; assumption. }
      apply Hord.
      destruct (or_else (GET request !! "customer") (GET request !! "q")) as [c |];
        [destruct (nonempty c) |];
        (destruct (GET request !! "status") as [st |]; [destruct (is_status_choice st) |]);
        reflexivity.
Qed.

Lemma sorting_follows_request_witness :
  (forall a b, int_leb a b = true \/ int_leb b a = true)
  /\ (forall a b c, int_leb a b = true -> int_leb b c = true -> int_leb a c = true)
  /\ descending_by price_attr int_leb "purchase_price"
       (QuerySet.fetch price_attr int_leb [10; 30; 20]
          (apply_sorting price_config price_request QuerySet.all)).
Proof.
  split; [exact int_leb_total |]. split; [exact int_leb_trans |].
  destruct (sorting_follows_request int_leb int_leb_total int_leb_trans) as [Hmixin _].
  destruct (Hmixin Z price_attr price_config price_request [10; 30; 20] QuerySet.all)
    as [_ Hsorted].
  change (sort_fields price_config !! get_param (GET price_request) "sort" "")
    with (Some "purchase_price") in Hsorted.
  destruct Hsorted as [Hdesc _]. apply Hdesc. reflexivity.
Defined.

(** Prices 10, 30 and 20 sorted by price, descending. *)
Lemma sort_by_price_desc :
  QuerySet.fetch price_attr int_leb [10; 30; 20]
    (apply_sorting price_config price_request QuerySet.all) = [30; 20; 10].
Proof. vm_compute. reflexivity. Qed.

(** ** The search endpoint *)

Lemma search_rows_built (schedules : list PaymentSchedule) (data : list Json) :
  search_rows schedules = Ok data -> data = built_rows schedules.
Proof.
  revert data. induction schedules as [| s rest IH]; intros data; cbn [search_rows built_rows].
  - intros H. inversion H. reflexivity.
  - destruct (search_row s) as [row | e].
    + destruct (search_rows rest) as [data' | e']; cbn [bind]; intros H; inversion H.
      f_equal. apply IH. reflexivity.
    + destruct (is_attribute_or_type_error e); [apply IH | discriminate].
Qed.

Lemma built_rows_length (schedules : list PaymentSchedule) :
  (length (built_rows schedules) <= length schedules)%nat.
Proof.
  induction schedules as [| s rest IH]; cbn [built_rows length]; [lia |].
  destruct (search_row s); cbn [length]; lia.
Qed.

Lemma search_row_missing (s : PaymentSchedule) :
  (loan_application s = None
   \/ exists loan, loan_application s = Some loan /\ motor loan = None)
  <-> exists e, search_row s = Raise e /\ exn_cls e = AttributeError.
Proof.
  unfold search_row, getattr. split.
  - intros [H | (loan & H & Hm)]; rewrite H; cbn [bind]; [eauto |].
    rewrite Hm. cbn [bind]. eauto.
  - destruct (loan_application s) as [loan |]; [| auto].
    cbn [bind]. destruct (motor loan) as [mt |] eqn:Hm; cbn [bind].
    + intros (e & H & _). discriminate.
    + intros _. right. eauto.
Qed.

Lemma get_try_outcome (leb : Value -> Value -> bool) (request : Request) (w : World) :
  match PaymentScheduleSearchView_get_try leb request w with
  | (Ok response, w') =>
      let page := firstn 50 (QuerySet.fetch schedule_attr leb (schedule_table w')
                               (search_schedules request)) in
      exists data,
        search_rows page = Ok data
        /\ response = mkJsonResponse 200
                        (JObj [("results", JArr data);
                               ("count", JNum (Z.of_nat (length data)))])
  | (Raise e, w') => True
  end.
Proof.
  unfold PaymentScheduleSearchView_get_try, mark_overdue.
  fold (search_schedules request).
  cbv [vbind db_op set_schedule_table lift ret].
  destruct (db_faults w) as [| [e |] [| [e' |] rest]];
    cbn [db_faults schedule_table tail]; try exact I.
  all: match goal with |- context [search_rows ?p] =>
         destruct (search_rows p) as [data | e0] eqn:Hrows end;
       try exact I; cbn [schedule_table]; rewrite ?Hrows; eauto.
Qed.

(** C10: a response with status 200 carries the rows built from the first
    50 matching schedules, in order, leaving out those whose construction
    raised; [count] is the length of [results], which is at most 50; a
    schedule whose loan application or motor is missing raises
    AttributeError and so is among those left out. *)
Theorem search_count_matches_results (leb : Value -> Value -> bool) (request : Request)
    (w w' : World) (response : JsonResponse) :
  PaymentScheduleSearchView_get leb request w = (Ok response, w') ->
  status_code response = 200 ->
  let page := firstn 50 (QuerySet.fetch schedule_attr leb (schedule_table w')
                           (search_schedules request)) in
  exists data,
    content response = JObj [("results", JArr data);
                             ("count", JNum (Z.of_nat (length data)))]
    /\ (length data <= 50)%nat
    /\ data = built_rows page
    /\ forall s, In s page ->
         (loan_application s = None
          \/ exists loan, loan_application s = Some loan /\ motor loan = None) ->
         exists e, search_row s = Raise e /\ is_attribute_or_type_error e = true.
Proof.
  intros Hget Hstatus page.
  unfold PaymentScheduleSearchView_get, try_except in Hget.
  pose proof (get_try_outcome leb request w) as Htry.
  destruct (PaymentScheduleSearchView_get_try leb request w) as [[response0 | e] w0].
  - inversion Hget; subst response0 w0; clear Hget.
    destruct Htry as (data & Hrows & Hresp). exists data.
    apply search_rows_built in Hrows. fold page in Hrows.
    split; [rewrite Hresp; reflexivity |]. split; [| split; [exact Hrows |]].
    + rewrite Hrows. etransitivity; [apply built_rows_length |].
      unfold page. apply firstn_le_length.
    + intros s _ Hmissing. apply search_row_missing in Hmissing.
      destruct Hmissing as (e & He & Hcls). exists e. split; [exact He |].
      unfold is_attribute_or_type_error. rewrite Hcls. reflexivity.
  - destruct (is_Exception e); [| discriminate].
    cbv [vbind print_exc ret] in Hget. inversion Hget; subst response.
    cbn in Hstatus. discriminate.
Qed.

Lemma search_count_matches_results_witness :
  exists response w' data,
    PaymentScheduleSearchView_get int_leb example_request search_world = (Ok response, w')
    /\ status_code response = 200
    /\ content response = JObj [("results", JArr data);
                                ("count", JNum (Z.of_nat (length data)))]
    /\ (length data <= 50)%nat.
Proof.
  assert (Hout : exists response w',
             PaymentScheduleSearchView_get int_leb example_request search_world
             = (Ok response, w') /\ status_code response = 200).
  { vm_compute. eexists _, _. split; reflexivity. }
  destruct Hout as (response & w' & Hget & Hstatus).
  destruct (search_count_matches_results int_leb example_request search_world w'
              response Hget Hstatus) as (data & Hcontent & Hlen & _).
  exists response, w', data. auto.
Defined.

(** The search over the example: the schedule with its loan and motor is
    listed, the three without a loan application are left out. *)
Lemma search_example_count :
  option_map content
    (match fst (PaymentScheduleSearchView_get int_leb example_request search_world) with
     | Ok response => Some response
     | Raise _ => None
     end)
  = Some (JObj [("results",
                 JArr [JObj [("id", JNum 12); ("schedule_id", JStr "SCH-000012");
                             ("customer", JStr "Ana Reyes");
                             ("email", JStr "ana@example.com");
                             ("motor", JStr "Honda Click 125i");
                             ("due_date", JStr "2024-01-10");
                             ("amount", JStr "2500.50");
                             ("status", JStr "overdue");
                             ("status_display", JStr "Overdue")]]);
                ("count", JNum 1)]).
Proof. vm_compute. reflexivity. Qed.

(** C9: whatever exception of the [Exception] hierarchy the body of the
    search endpoint raises, [get] answers with status 400 and the payload
    with the message of the exception, an empty result list and count 0,
    after printing the traceback; [get] itself raises no such exception. *)
Theorem search_errors_become_400 (leb : Value -> Value -> bool) (request : Request)
    (w : World) :
  (forall e w1,
     PaymentScheduleSearchView_get_try leb request w = (Raise e, w1) ->
     is_Exception e = true ->
     exists w',
       PaymentScheduleSearchView_get leb request w
       = (Ok (mkJsonResponse 400 (error_payload e)), w')
       /\ stderr w' = stderr w1 ++ [exn_msg e]
       /\ schedule_table w' = schedule_table w1)
  /\ (forall e w',
        PaymentScheduleSearchView_get leb request w = (Raise e, w') ->
        is_Exception e = false).
Proof.
  unfold PaymentScheduleSearchView_get, try_except. split.
  - intros e w1 Htry Hexc. rewrite Htry, Hexc.
    cbv [vbind print_exc ret]. eexists. split; [reflexivity |]. split; reflexivity.
  - intros e w' Hget.
    destruct (PaymentScheduleSearchView_get_try leb request w) as [[response | e0] w0];
      [discriminate |].
    destruct (is_Exception e0) eqn:Hexc.
    + cbv [vbind print_exc ret] in Hget. discriminate.
    + inversion Hget; subst. exact Hexc.
Qed.

Lemma search_errors_become_400_witness :
  exists w',
    PaymentScheduleSearchView_get int_leb example_request broken_world
    = (Ok (mkJsonResponse 400
             (JObj [("error", JStr "connection refused");
                    ("results", JArr []); ("count", JNum 0)])), w').
Proof.
  destruct (search_errors_become_400 int_leb example_request broken_world) as [H _].
  destruct (H (mkExn DatabaseError "connection refused")
              (mkWorld example_schedules ∅ [] [] [])
              ltac:(vm_compute; reflexivity) ltac:(reflexivity))
    as (w' & Hget & _).
  exists w'. exact Hget.
Defined.

(** ** The summary under reordering and under payments *)

Lemma amount_where_perm (cond : PaymentSchedule -> bool) (rows rows' : list PaymentSchedule) :
  Permutation rows rows' -> amount_where cond rows = amount_where cond rows'.
Proof.
  unfold amount_where. induction 1 as [| s l l' _ IH | s s' l | l l' l'' _ IH1 _ IH2].
  - reflexivity.
  - cbn [List.filter]. destruct (cond s); cbn [map fold_right]; lia.
  - cbn [List.filter]. destruct (cond s), (cond s'); cbn [map fold_right]; lia.
  - lia.
Qed.

Lemma Count_perm (cond : PaymentSchedule -> bool) (rows rows' : list PaymentSchedule) :
  Permutation rows rows' -> Count cond rows = Count cond rows'.
Proof.
  unfold Count. induction 1 as [| s l l' _ IH | s s' l | l l' l'' _ IH1 _ IH2].
  - reflexivity.
  - cbn [List.filter]. destruct (cond s); cbn [length]; lia.
  - cbn [List.filter]. destruct (cond s), (cond s'); cbn [length]; lia.
  - lia.
Qed.

(** The summary of a schedule set does not depend on the order of its
    rows. *)
Lemma get_summary_perm (rows rows' : list PaymentSchedule) :
  Permutation rows rows' -> get_summary rows = get_summary rows'.
Proof.
  intros Hperm. unfold get_summary. rewrite !or_zero_Sum.
  rewrite !(amount_where_perm _ rows rows' Hperm).
  rewrite !(Count_perm _ rows rows' Hperm). reflexivity.
Qed.

Lemma filter_perm_ext {A : Type} (f g : A -> bool) (l : list A) :
  (forall x, f x = g x) -> List.filter f l = List.filter g l.
Proof.
  intros Hext. induction l as [| x l IH]; [reflexivity |].
  cbn [List.filter]. rewrite Hext, IH. reflexivity.
Qed.

(** What [PaymentScheduleListView.get_queryset] returns when the refresh
    went through: the world after the refresh, and a query set whose
    condition is [list_keeps]. *)
Lemma list_queryset_outcome (request : Request) (w w1 : World)
    (qs : QuerySet.t PaymentSchedule) :
  PaymentScheduleListView_get_queryset request w = (Ok qs, w1) ->
  mark_overdue (today request) w = (Ok tt, w1)
  /\ forall s, QuerySet.where_ qs s = list_keeps request s.
Proof.
  unfold PaymentScheduleListView_get_queryset, vbind, ret.
  destruct (mark_overdue (today request) w) as [[[] | e] w0]; [| discriminate].
  intros H. inversion H; subst w1; clear H. split; [reflexivity |].
  intros s. unfold list_keeps.
  destruct (schedule_sort_fields !! get_param (GET request) "sort" "") as [field |];
    destruct (GET request !! "status") as [st |];
    try destruct (is_status_choice st);
    destruct (or_else (GET request !! "customer") (GET request !! "q")) as [c |];
    try destruct (nonempty c);
    cbn [QuerySet.where_ QuerySet.order_by QuerySet.filter QuerySet.all negb orb andb];
    rewrite ?andb_true_r; reflexivity.
Qed.

Lemma list_keeps_ext (request request' : Request) (s : PaymentSchedule) :
  GET request !! "customer" = GET request' !! "customer" ->
  GET request !! "q" = GET request' !! "q" ->
  GET request !! "status" = GET request' !! "status" ->
  list_keeps request s = list_keeps request' s.
Proof. unfold list_keeps. intros -> -> ->. reflexivity. Qed.

Lemma fetch_perm {Row : Type} (attr : string -> Row -> Value) (leb : Value -> Value -> bool)
    (table : list Row) (qs : QuerySet.t Row) :
  Permutation (QuerySet.fetch attr leb table qs) (List.filter (QuerySet.where_ qs) table).
Proof. unfold QuerySet.fetch. apply sort_rows_perm. Qed.

(** X1: the summary of the payment list does not depend on how the list is
    sorted: two requests on the same day with the same [customer], [q] and
    [status] parameters, whatever their [sort] and [order] parameters and
    whatever the collation of the database, give the same summary. *)
Theorem summary_ignores_sorting (leb leb' : Value -> Value -> bool)
    (request request' : Request) (w w1 : World) (qs : QuerySet.t PaymentSchedule) :
  today request = today request' ->
  GET request !! "customer" = GET request' !! "customer" ->
  GET request !! "q" = GET request' !! "q" ->
  GET request !! "status" = GET request' !! "status" ->
  PaymentScheduleListView_get_queryset request w = (Ok qs, w1) ->
  exists qs',
    PaymentScheduleListView_get_queryset request' w = (Ok qs', w1)
    /\ get_summary (QuerySet.fetch schedule_attr leb (schedule_table w1) qs)
       = get_summary (QuerySet.fetch schedule_attr leb' (schedule_table w1) qs').
Proof.
  intros Hday Hc Hq Hst Hqs.
  destruct (list_queryset_outcome request w w1 qs Hqs) as [Hmark Hwhere].
  destruct (PaymentScheduleListView_get_queryset request' w) as [[qs' | e] w1'] eqn:Hqs'.
  - destruct (list_queryset_outcome request' w w1' qs' Hqs') as [Hmark' Hwhere'].
    rewrite <- Hday, Hmark in Hmark'. inversion Hmark'; subst w1'.
    exists qs'. split; [reflexivity |].
    apply get_summary_perm. rewrite !fetch_perm.
    rewrite (filter_perm_ext (QuerySet.where_ qs) (QuerySet.where_ qs')); [reflexivity |].
    intros s. rewrite Hwhere, Hwhere'. apply list_keeps_ext; assumption.
  - exfalso. revert Hqs'.
    unfold PaymentScheduleListView_get_queryset, vbind, ret.
    rewrite <- Hday, Hmark. discriminate.
Qed.

Lemma summary_ignores_sorting_witness :
  exists qs qs' w1,
    PaymentScheduleListView_get_queryset sorted_request example_world = (Ok qs, w1)
    /\ PaymentScheduleListView_get_queryset plain_request example_world = (Ok qs', w1)
    /\ get_summary (QuerySet.fetch schedule_attr int_leb (schedule_table w1) qs)
       = get_summary (QuerySet.fetch schedule_attr int_leb (schedule_table w1) qs').
Proof.
  assert (Hqs : exists qs w1,
             PaymentScheduleListView_get_queryset sorted_request example_world
             = (Ok qs, w1)) by (vm_compute; eauto).
  destruct Hqs as (qs & w1 & Hqs).
  destruct (summary_ignores_sorting int_leb int_leb sorted_request plain_request
              example_world w1 qs eq_refl eq_refl eq_refl eq_refl Hqs)
    as (qs' & Hqs' & Hsame).
  exists qs, qs', w1. auto.
Defined.

Lemma round_half_even_mono (n n' d : Z) :
  0 < d -> n <= n' -> round_half_even n d <= round_half_even n' d.
Proof.
  intros Hd Hle.
  destruct (Z.eq_dec n n') as [-> | Hne]; [lia |].
  destruct (round_half_even_nearest n d Hd) as [H _].
  destruct (round_half_even_nearest n' d Hd) as [H' _].
  set (t := round_half_even n d) in *. set (t' := round_half_even n' d) in *.
  destruct (Z_le_gt_dec t t') as [| Hgt]; [assumption | exfalso].
  assert (Hstep : (t' + 1) * d <= t * d) by (apply Z.mul_le_mono_nonneg_r; lia).
  lia.
Qed.

Lemma amount_sum_app (l l' : list PaymentSchedule) :
  amount_sum (l ++ l') = amount_sum l + amount_sum l'.
Proof.
  unfold amount_sum. induction l as [| s l IH]; cbn [app map fold_right]; lia.
Qed.

Lemma abs_amount_sum_app (l l' : list PaymentSchedule) :
  abs_amount_sum (l ++ l') = abs_amount_sum l + abs_amount_sum l'.
Proof.
  unfold abs_amount_sum. induction l as [| s l IH]; cbn [app map fold_right]; lia.
Qed.

Lemma amount_where_app (cond : PaymentSchedule -> bool) (l l' : list PaymentSchedule) :
  amount_where cond (l ++ l') = amount_where cond l + amount_where cond l'.
Proof.
  unfold amount_where. induction l as [| s l IH]; cbn [app List.filter map fold_right];
    [lia |].
  destruct (cond s); cbn [map fold_right]; lia.
Qed.

Lemma amount_where_cons (cond : PaymentSchedule -> bool) (s : PaymentSchedule)
    (l : list PaymentSchedule) :
  amount_where cond (s :: l) = (if cond s then total_amount s else 0) + amount_where cond l.
Proof.
  unfold amount_where. cbn [List.filter]. destruct (cond s); cbn [map fold_right]; lia.
Qed.

(** X2: recording a payment never lowers the collection rate: when one
    schedule of a set of non-negative amounts becomes PAID, the collection
    rate of the set stays as it was or goes up. *)
Theorem collection_rate_monotone (before after : list PaymentSchedule) (s : PaymentSchedule) :
  Forall (fun s => 0 <= total_amount s) (before ++ s :: after) ->
  abs_amount_sum (before ++ s :: after) < 10 ^ 23 ->
  exists summary summary',
    get_summary (before ++ s :: after) = Ok summary
    /\ get_summary (before ++ set_status PAID s :: after) = Ok summary'
    /\ expo (collection_rate summary) = expo (collection_rate summary')
    /\ coef (collection_rate summary) <= coef (collection_rate summary').
Proof.
  intros Hnonneg Hsmall.
  assert (Habs : abs_amount_sum (before ++ set_status PAID s :: after)
                 = abs_amount_sum (before ++ s :: after)).
  { rewrite !abs_amount_sum_app. unfold abs_amount_sum. reflexivity. }
  assert (Hsum : amount_sum (before ++ set_status PAID s :: after)
                 = amount_sum (before ++ s :: after)).
  { rewrite !amount_sum_app. unfold amount_sum. reflexivity. }
  assert (Hs : 0 <= total_amount s).
  { rewrite List.Forall_forall in Hnonneg. apply Hnonneg.
    apply in_or_app. right. left. reflexivity. }
  assert (Hpaid : amount_where (has_status PAID) (before ++ s :: after)
                  <= amount_where (has_status PAID) (before ++ set_status PAID s :: after)).
  { rewrite !amount_where_app, !amount_where_cons. unfold has_status.
    cbn [set_status status total_amount Status_eqb].
    destruct (Status_eqb (status s) PAID); lia. }
  destruct (get_summary_rate (before ++ s :: after) Hsmall) as (summary & Hsummary & Hrate).
  destruct (get_summary_rate (before ++ set_status PAID s :: after)
              ltac:(rewrite Habs; exact Hsmall)) as (summary' & Hsummary' & Hrate').
  exists summary, summary'. split; [exact Hsummary |]. split; [exact Hsummary' |].
  rewrite Hrate, Hrate', Hsum. cbn [coef expo]. split; [reflexivity |].
  destruct (Z.ltb_spec 0 (amount_sum (before ++ s :: after))) as [Hpos | _]; [| lia].
  apply round_half_even_mono; lia.
Qed.

(** With 100.00 paid, 50.00 due and 50.00 overdue, paying the amount that
    is due takes the rate from 50.00 to 75.00. *)
Lemma collection_rate_monotone_witness :
  exists summary summary',
    get_summary example_schedules = Ok summary
    /\ get_summary [mkSchedule 1 None 1 (mkDate 2024 1 10) 10000 PAID;
                    mkSchedule 2 None 2 (mkDate 2024 2 10) 5000 PAID;
                    mkSchedule 3 None 3 (mkDate 2024 1 10) 5000 OVERDUE] = Ok summary'
    /\ coef (collection_rate summary) <= coef (collection_rate summary').
Proof.
  destruct (collection_rate_monotone
              [mkSchedule 1 None 1 (mkDate 2024 1 10) 10000 PAID]
              [mkSchedule 3 None 3 (mkDate 2024 1 10) 5000 OVERDUE]
              (mkSchedule 2 None 2 (mkDate 2024 2 10) 5000 DUE))
    as (summary & summary' & H & H' & _ & Hle).
  - repeat constructor; cbn; lia.
  - vm_compute. reflexivity.
  - exists summary, summary'. split; [exact H |]. split; [exact H' | exact Hle].
Defined.

Lemma amount_where_all (cond : PaymentSchedule -> bool) (rows : list PaymentSchedule) :
  (forall s, In s rows -> cond s = true) -> amount_where cond rows = amount_sum rows.
Proof.
  intros Hall. unfold amount_where, amount_sum.
  induction rows as [| s rows IH]; [reflexivity |].
  cbn [List.filter]. rewrite (Hall s) by (left; reflexivity). cbn [map fold_right].
  rewrite IH; [reflexivity |]. intros s' Hin. apply Hall. right. assumption.
Qed.

(** X3: the two ends of the collection rate: it is 0.00 when no schedule of
    the set is PAID, and 100.00 when every schedule is PAID and the amounts
    add up to more than zero. *)
Theorem collection_rate_extremes (rows : list PaymentSchedule) :
  abs_amount_sum rows < 10 ^ 23 ->
  exists summary,
    get_summary rows = Ok summary
    /\ (Forall (fun s => status s <> PAID) rows ->
        collection_rate summary = mkDec 0 (-2))
    /\ (Forall (fun s => status s = PAID) rows -> 0 < amount_sum rows ->
        collection_rate summary = mkDec 10000 (-2)).
Proof.
  intros Hsmall.
  destruct (get_summary_rate rows Hsmall) as (summary & Hsummary & Hrate).
  exists summary. split; [exact Hsummary |]. rewrite Hrate. split.
  - intros Hnone. rewrite (amount_where_none (has_status PAID)).
    + destruct (0 <? amount_sum rows) eqn:Hpos; [| reflexivity].
      apply Z.ltb_lt in Hpos.
      replace (10000 * 0) with (0 * amount_sum rows) by lia.
      rewrite round_half_even_exact by assumption. reflexivity.
    + intros s Hin. rewrite List.Forall_forall in Hnone. specialize (Hnone s Hin).
      unfold has_status. destruct (status s); try reflexivity. contradiction.
  - intros Hall Hpos. rewrite (amount_where_all (has_status PAID)).
    + apply Z.ltb_lt in Hpos as Hpos'. rewrite Hpos'.
      rewrite round_half_even_exact by assumption. reflexivity.
    + intros s Hin. rewrite List.Forall_forall in Hall. unfold has_status.
      rewrite (Hall s Hin). reflexivity.
Qed.

Lemma collection_rate_extremes_witness :
  exists summary,
    get_summary [mkSchedule 1 None 1 (mkDate 2024 1 10) 10000 PAID] = Ok summary
    /\ collection_rate summary = mkDec 10000 (-2).
Proof.
  destruct (collection_rate_extremes [mkSchedule 1 None 1 (mkDate 2024 1 10) 10000 PAID])
    as (summary & H & _ & Hall).
  - vm_compute. reflexivity.
  - exists summary. split; [exact H |]. apply Hall.
    + repeat constructor.
    + vm_compute. reflexivity.
Defined.

(** ** The rows of the payment list *)

Lemma customer_matches_spec (c : string) (s : PaymentSchedule) :
  customer_matches c s = true <-> applicant_contains c s.
Proof.
  unfold customer_matches, applicant_contains.
  rewrite !orb_true_iff, !icontains_spec. tauto.
Qed.

Lemma Status_value_inj (x y : Status) : Status_value x = Status_value y -> x = y.
Proof. destruct x, y; cbn; intros H; try reflexivity; discriminate. Qed.

Lemma is_status_choice_spec (st : string) :
  is_status_choice st = true <-> exists x, st = Status_value x.
Proof.
  unfold is_status_choice, Status_choices. cbn [map existsb fst].
  rewrite !orb_true_iff, !String.eqb_eq. split.
  - intros [H | [H | [H | H]]]; [exists DUE | exists OVERDUE | exists PAID | discriminate];
      symmetry; exact H.
  - intros [[] ->]; cbn; auto.
Qed.

Lemma exact_status (s : PaymentSchedule) (st : string) :
  exact (schedule_attr "status" s) st = true <-> Status_value (status s) = st.
Proof. unfold exact. cbn [schedule_attr text_of]. apply String.eqb_eq. Qed.

Lemma nonempty_spec (s : string) : nonempty s = true <-> s <> "".
Proof. destruct s; cbn; split; intros H; congruence. Qed.

Lemma list_keeps_spec (request : Request) (s : PaymentSchedule) :
  list_keeps request s = true
  <-> (forall c, searches_for request c -> applicant_contains c s)
      /\ (forall x, GET request !! "status" = Some (Status_value x) -> status s = x).
Proof.
  unfold list_keeps. rewrite andb_true_iff.
  assert (Hsearch :
    match or_else (GET request !! "customer") (GET request !! "q") with
    | Some c => negb (nonempty c) || customer_matches c s
    | None => true
    end = true
    <-> forall c, searches_for request c -> applicant_contains c s).
  { unfold or_else, truthy_opt, searches_for.
    destruct (GET request !! "customer") as [c0 |].
    - destruct (nonempty c0) eqn:Hc0; cbv beta iota.
      + rewrite Hc0. cbn [negb orb]. rewrite customer_matches_spec. split.
        * intros Hm c [Hne [Hc | [[Hc | Hc] _]]]; inversion Hc; subst; [exact Hm |].
          discriminate.
        * intros H. apply H. split; [apply nonempty_spec; exact Hc0 | left; reflexivity].
      + assert (c0 = "") as -> by (destruct c0; [reflexivity | discriminate]).
        destruct (GET request !! "q") as [q |].
        * destruct (nonempty q) eqn:Hq; cbn [negb orb].
          -- rewrite customer_matches_spec. split.
             ++ intros Hm c [Hne [Hc | [_ Hc]]]; inversion Hc; subst; [| exact Hm].
                contradiction.
             ++ intros H. apply H. split; [apply nonempty_spec; exact Hq |].
                right. split; [right |]; reflexivity.
          -- split; [| reflexivity]. intros _ c [Hne [Hc | [_ Hc]]]; inversion Hc; subst.
             ++ contradiction.
             ++ apply nonempty_spec in Hne. congruence.
        * split; [| reflexivity]. intros _ c [Hne [Hc | [_ Hc]]]; inversion Hc; subst.
          contradiction.
    - destruct (GET request !! "q") as [q |].
      + destruct (nonempty q) eqn:Hq; cbn [negb orb].
        * rewrite customer_matches_spec. split.
          -- intros Hm c [Hne [Hc | [_ Hc]]]; inversion Hc; subst. exact Hm.
          -- intros H. apply H. split; [apply nonempty_spec; exact Hq |].
             right. split; [left |]; reflexivity.
        * split; [| reflexivity]. intros _ c [Hne [Hc | [_ Hc]]]; inversion Hc; subst.
          apply nonempty_spec in Hne. congruence.
      + split; [| reflexivity]. intros _ c [Hne [Hc | [_ Hc]]]; discriminate. }
  rewrite Hsearch. clear Hsearch.
  assert (Hstatus :
    match GET request !! "status" with
    | Some st => negb (is_status_choice st) || exact (schedule_attr "status" s) st
    | None => true
    end = true
    <-> forall x, GET request !! "status" = Some (Status_value x) -> status s = x).
  { destruct (GET request !! "status") as [st |].
    - destruct (is_status_choice st) eqn:Hchoice; cbn [negb orb].
      + apply is_status_choice_spec in Hchoice. destruct Hchoice as [x0 ->].
        rewrite exact_status. split.
        * intros Hx x Hst. inversion Hst as [Heq]. apply Status_value_inj in Heq.
          apply Status_value_inj in Hx. congruence.
        * intros H. rewrite (H x0 eq_refl). reflexivity.
      + split; [| reflexivity]. intros _ x Hst. inversion Hst; subst.
        assert (is_status_choice (Status_value x) = true)
          by (apply is_status_choice_spec; eauto).
        congruence.
    - split; [| reflexivity]. intros _ x Hst. discriminate. }
  rewrite Hstatus. reflexivity.
Qed.

(** X4: the rows of the payment list are the schedules of the refreshed
    table that pass the two filters.  The search text is [customer], or [q]
    when [customer] is missing or empty, and it is looked for in the first
    name, the last name and the email address of the applicant, letter case
    aside; a [status] parameter that names one of the choices keeps the
    schedules of that status, and any other [status] parameter is ignored.
    The [sort] and [order] parameters do not change which rows there
    are. *)
Theorem payment_list_rows (leb : Value -> Value -> bool) (request : Request)
    (w w1 : World) (qs : QuerySet.t PaymentSchedule) :
  PaymentScheduleListView_get_queryset request w = (Ok qs, w1) ->
  schedule_table w1 = map (mark_overdue_row (today request)) (schedule_table w)
  /\ forall s,
       In s (QuerySet.fetch schedule_attr leb (schedule_table w1) qs)
       <-> In s (schedule_table w1)
           /\ (forall c, searches_for request c -> applicant_contains c s)
           /\ (forall x, GET request !! "status" = Some (Status_value x) -> status s = x).
Proof.
  intros Hqs. destruct (list_queryset_outcome request w w1 qs Hqs) as [Hmark Hwhere].
  split.
  - pose proof (mark_overdue_table (today request) w) as Htable.
    rewrite Hmark in Htable. exact Htable.
  - intros s. rewrite <- list_keeps_spec, <- Hwhere. split.
    + intros Hin. apply (Permutation_in _ (fetch_perm _ _ _ _)) in Hin.
      apply filter_In in Hin. exact Hin.
    + intros Hin. apply (Permutation_in _ (Permutation_sym (fetch_perm _ _ _ _))).
      apply filter_In. exact Hin.
Qed.

Lemma payment_list_rows_witness :
  exists qs w1,
    PaymentScheduleListView_get_queryset overdue_reyes_request search_world = (Ok qs, w1)
    /\ forall s,
         In s (QuerySet.fetch schedule_attr int_leb (schedule_table w1) qs) ->
         status s = OVERDUE.
Proof.
  assert (Hqs : exists qs w1,
             PaymentScheduleListView_get_queryset overdue_reyes_request search_world
             = (Ok qs, w1)) by (vm_compute; eauto).
  destruct Hqs as (qs & w1 & Hqs). exists qs, w1. split; [exact Hqs |].
  intros s Hin.
  destruct (payment_list_rows int_leb overdue_reyes_request search_world w1 qs Hqs)
    as [_ Hrows].
  apply Hrows in Hin. destruct Hin as (_ & _ & Hstatus). apply Hstatus. reflexivity.
Defined.

(** ** The answers of the search endpoint *)

Lemma search_schedules_shape (request : Request) :
  QuerySet.ordering (search_schedules request) = [("due_date", false); ("sequence", false)]
  /\ forall s, QuerySet.where_ (search_schedules request) s = true <-> search_keeps request s.
Proof.
  unfold search_schedules, search_keeps.
  set (c := strip (get_param (GET request) "customer" "")).
  set (st := strip (get_param (GET request) "status" "")).
  split.
  - destruct (nonempty st && is_status_choice st), (nonempty c); reflexivity.
  - intros s.
    assert (Hc : (if nonempty c then customer_matches c s else true) = true
                 <-> (c <> "" -> applicant_contains c s)).
    { destruct (nonempty c) eqn:Hne.
      - rewrite customer_matches_spec. apply nonempty_spec in Hne. tauto.
      - split; [| reflexivity]. intros _ Hne'. apply nonempty_spec in Hne'. congruence. }
    assert (Hst : (if nonempty st && is_status_choice st
                   then exact (schedule_attr "status" s) st else true) = true
                  <-> forall x, st = Status_value x -> status s = x).
    { destruct (is_status_choice st) eqn:Hchoice.
      - apply is_status_choice_spec in Hchoice. destruct Hchoice as [x0 Hx0].
        assert (Hne : nonempty st = true) by (rewrite Hx0; destruct x0; reflexivity).
        rewrite Hne. cbn [andb]. rewrite exact_status. split.
        + intros Hs x Hx. apply Status_value_inj. congruence.
        + intros H. rewrite (H x0 Hx0). congruence.
      - rewrite andb_false_r. split; [| reflexivity]. intros _ x Hx.
        assert (is_status_choice st = true) by (apply is_status_choice_spec; eauto).
        congruence. }
    rewrite <- Hc, <- Hst.
    destruct (nonempty st && is_status_choice st), (nonempty c);
      cbn [QuerySet.where_ QuerySet.filter QuerySet.order_by QuerySet.all andb];
      rewrite ?andb_true_iff; intuition congruence.
Qed.

(** What a 200 answer of the search endpoint tells: both database
    operations went through, the table is the refreshed one, and the rows
    come from the first 50 schedules of the query set. *)
Lemma search_get_200 (leb : Value -> Value -> bool) (request : Request) (w w' : World)
    (response : JsonResponse) :
  PaymentScheduleSearchView_get leb request w = (Ok response, w') ->
  status_code response = 200 ->
  db_answers_twice w
  /\ schedule_table w' = map (mark_overdue_row (today request)) (schedule_table w)
  /\ stderr w' = stderr w
  /\ response
     = mkJsonResponse 200
         (JObj [("results",
                 JArr (built_rows
                         (firstn 50 (QuerySet.fetch schedule_attr leb (schedule_table w')
                                       (search_schedules request)))));
                ("count",
                 JNum (Z.of_nat
                         (length
                            (built_rows
                               (firstn 50
                                  (QuerySet.fetch schedule_attr leb (schedule_table w')
                                     (search_schedules request)))))))]).
Proof.
  unfold PaymentScheduleSearchView_get, try_except, PaymentScheduleSearchView_get_try,
    mark_overdue, db_answers_twice.
  fold (search_schedules request).
  cbv [vbind db_op set_schedule_table lift ret print_exc].
  destruct (db_faults w) as [| [e |] [| [e' |] rest]];
    cbn [db_faults schedule_table stderr tail firstn];
    try (destruct (is_Exception _); intros H Hcode; inversion H; subst;
         cbn in Hcode; discriminate).
  all: match goal with |- context [search_rows ?p] =>
         destruct (search_rows p) as [data | e0] eqn:Hrows end;
       try (destruct (is_Exception _); intros H Hcode; inversion H; subst;
            cbn in Hcode; discriminate).
  all: intros H _; inversion H; subst; cbn [schedule_table stderr];
       apply search_rows_built in Hrows; rewrite <- Hrows;
       repeat split; repeat constructor.
Qed.

Lemma search_rows_total (schedules : list PaymentSchedule) :
  search_rows schedules = Ok (built_rows schedules).
Proof.
  induction schedules as [| s rest IH]; cbn [search_rows built_rows]; [reflexivity |].
  destruct (search_row s) as [row | e] eqn:Hrow.
  - rewrite IH. reflexivity.
  - assert (Hcls : exn_cls e = AttributeError).
    { destruct (proj2 (search_row_missing s)) as [H | H].
      - unfold search_row, getattr in *.
        destruct (loan_application s) as [loan |]; cbn [bind] in *.
        + destruct (motor loan); cbn [bind] in *; [discriminate |].
          inversion Hrow. eexists. split; reflexivity.
        + inversion Hrow. eexists. split; reflexivity.
      - unfold search_row, getattr in Hrow. rewrite H in Hrow. cbn [bind] in Hrow.
        inversion Hrow. reflexivity.
      - destruct H as (loan & Hl & Hm). unfold search_row, getattr in Hrow.
        rewrite Hl in Hrow. cbn [bind] in Hrow. rewrite Hm in Hrow. cbn [bind] in Hrow.
        inversion Hrow. reflexivity. }
    unfold is_attribute_or_type_error. rewrite Hcls. exact IH.
Qed.

(** X5: the search endpoint answers 200 whenever the database answers its
    two operations, whatever the parameters of the request and whatever
    relations the schedules lack, and then it prints no traceback; an answer
    other than 200 is the answer 400 that carries the message of a failed
    database operation. *)
Theorem search_fails_only_with_database (leb : Value -> Value -> bool)
    (request : Request) (w : World) :
  (db_answers_twice w ->
   exists response w',
     PaymentScheduleSearchView_get leb request w = (Ok response, w')
     /\ status_code response = 200
     /\ stderr w' = stderr w)
  /\ (forall response w',
        PaymentScheduleSearchView_get leb request w = (Ok response, w') ->
        status_code response <> 200 ->
        exists e,
          In (Some e) (firstn 2 (db_faults w))
          /\ response = mkJsonResponse 400 (error_payload e)).
Proof.
  unfold PaymentScheduleSearchView_get, try_except, PaymentScheduleSearchView_get_try,
    mark_overdue, db_answers_twice, error_payload.
  cbv [vbind db_op set_schedule_table lift ret print_exc].
  destruct (db_faults w) as [| [e |] [| [e' |] rest]];
    cbn [db_faults schedule_table stderr tail firstn];
    rewrite ?search_rows_total; split.
  all: try (intros _; eexists _, _; split; [reflexivity |]; split; reflexivity).
  all: try (intros Hdb; exfalso; inversion Hdb as [| ? ? Hfate Hrest]; subst;
            try discriminate; inversion Hrest; subst; discriminate).
  all: intros response w' H Hcode; try (inversion H; subst; cbn in Hcode; congruence).
  all: match type of H with context [is_Exception ?x] =>
         destruct (is_Exception x); inversion H; subst; exists x end;
       (split; [(left; reflexivity) || (right; left; reflexivity) | reflexivity]).
Qed.

Lemma search_fails_only_with_database_witness :
  exists response w',
    PaymentScheduleSearchView_get int_leb example_request search_world = (Ok response, w')
    /\ status_code response = 200
    /\ stderr w' = [].
Proof.
  destruct (search_fails_only_with_database int_leb example_request search_world) as [H _].
  apply H. constructor.
Defined.

Lemma built_rows_kept (schedules : list PaymentSchedule) :
  Forall2 (fun s row => search_row s = Ok row) (List.filter has_row schedules)
          (built_rows schedules).
Proof.
  induction schedules as [| s rest IH]; cbn [List.filter built_rows]; [constructor |].
  unfold has_row at 1. destruct (search_row s) as [row | e] eqn:Hrow; [| exact IH].
  constructor; assumption.
Qed.

Lemma firstn_subset {A : Type} (n : nat) (l : list A) (x : A) :
  In x (firstn n l) -> In x l.
Proof.
  revert l. induction n as [| n IH]; intros [| y l]; cbn [firstn In]; try tauto.
  intros [H | H]; [left; exact H | right; apply IH; exact H].
Qed.

Lemma StronglySorted_firstn {A : Type} (R : A -> A -> Prop) (n : nat) (l : list A) :
  StronglySorted R l -> StronglySorted R (firstn n l).
Proof.
  intros Hsorted. revert n. induction Hsorted as [| x l _ IH Hx]; intros [| n];
    cbn [firstn]; try constructor.
  - apply IH.
  - rewrite List.Forall_forall in *. intros y Hy. apply Hx.
    exact (firstn_subset _ _ _ Hy).
Qed.

Lemma StronglySorted_filter {A : Type} (R : A -> A -> Prop) (f : A -> bool) (l : list A) :
  StronglySorted R l -> StronglySorted R (List.filter f l).
Proof.
  induction 1 as [| x l _ IH Hx]; cbn [List.filter]; [constructor |].
  destruct (f x); [| exact IH]. constructor; [exact IH |].
  rewrite List.Forall_forall in *. intros y Hy. apply Hx.
  apply filter_In in Hy. tauto.
Qed.

Lemma refreshed_due (reference_date : date) (table : list PaymentSchedule)
    (s : PaymentSchedule) :
  In s (map (mark_overdue_row reference_date) table) ->
  status s = DUE -> date_ltb (due_date s) reference_date = false.
Proof.
  intros Hin Hdue. apply in_map_iff in Hin. destruct Hin as (s0 & <- & _).
  revert Hdue. unfold mark_overdue_row.
  destruct (Status_eqb (status s0) DUE) eqn:Hst; cbn [andb].
  - destruct (date_ltb (due_date s0) reference_date) eqn:Hlt; [discriminate |].
    intros _. exact Hlt.
  - intros Hdue. rewrite Hdue in Hst. discriminate.
Qed.

(** X6: what a 200 answer of the search endpoint lists: each row is built
    from a schedule of the refreshed table that passes the filters of the
    request and has its loan application and motor; the rows follow the
    schedules by due date and then by sequence; and no listed schedule is
    DUE with a due date before the day of the request. *)
Theorem search_results_sound (leb : Value -> Value -> bool) (request : Request)
    (w w' : World) (response : JsonResponse) :
  (forall a b, leb a b = true \/ leb b a = true) ->
  (forall a b c, leb a b = true -> leb b c = true -> leb a c = true) ->
  PaymentScheduleSearchView_get leb request w = (Ok response, w') ->
  status_code response = 200 ->
  exists kept rows,
    content response = JObj [("results", JArr rows);
                             ("count", JNum (Z.of_nat (length rows)))]
    /\ Forall2 (fun s row => search_row s = Ok row) kept rows
    /\ ordered_as schedule_attr leb [("due_date", false); ("sequence", false)] kept
    /\ Forall (fun s =>
                 In s (map (mark_overdue_row (today request)) (schedule_table w))
                 /\ search_keeps request s
                 /\ (status s = DUE -> date_ltb (due_date s) (today request) = false))
              kept.
Proof.
  intros Htotal Htrans Hget Hcode.
  destruct (search_get_200 leb request w w' response Hget Hcode)
    as (_ & Htable & _ & ->).
  destruct (search_schedules_shape request) as [Hord Hwhere].
  set (page := firstn 50 (QuerySet.fetch schedule_attr leb (schedule_table w')
                            (search_schedules request))).
  exists (List.filter has_row page), (built_rows page).
  split; [reflexivity |]. split; [apply built_rows_kept |]. split.
  - apply StronglySorted_filter, StronglySorted_firstn.
    unfold QuerySet.fetch. rewrite Hord. apply sort_rows_sorted; assumption.
  - apply List.Forall_forall. intros s Hs.
    apply filter_In in Hs. destruct Hs as [Hs _].
    apply firstn_subset in Hs.
    apply (Permutation_in _ (fetch_perm _ _ _ _)) in Hs.
    apply filter_In in Hs. destruct Hs as [Hin Hkeep].
    rewrite Htable in Hin. split; [exact Hin |]. split.
    + apply Hwhere. exact Hkeep.
    + apply (refreshed_due _ _ _ Hin).
Qed.

Lemma search_results_sound_witness :
  exists response w' kept rows,
    PaymentScheduleSearchView_get int_leb example_request search_world = (Ok response, w')
    /\ content response = JObj [("results", JArr rows);
                                ("count", JNum (Z.of_nat (length rows)))]
    /\ Forall2 (fun s row => search_row s = Ok row) kept rows
    /\ ordered_as schedule_attr int_leb [("due_date", false); ("sequence", false)] kept.
Proof.
  assert (Hout : exists response w',
             PaymentScheduleSearchView_get int_leb example_request search_world
             = (Ok response, w') /\ status_code response = 200).
  { vm_compute. eexists _, _. split; reflexivity. }
  destruct Hout as (response & w' & Hget & Hcode).
  destruct (search_results_sound int_leb example_request search_world w' response
              int_leb_total int_leb_trans Hget Hcode)
    as (kept & rows & Hcontent & Hrows & Hsorted & _).
  exists response, w', kept, rows. auto.
Defined.

(** ** The mixin: filters, and the three steps together *)

Section MixinFacts.

Context {Row : Type}.

Variable attr : string -> Row -> Value.

Variable leb : Value -> Value -> bool.

Variable config : MixinConfig.

Variable request : Request.

Lemma exact_spec (v : Value) (s : string) : exact v s = true <-> text_of v = Some s.
Proof.
  unfold exact. destruct (text_of v) as [t |].
  - rewrite String.eqb_eq. split; congruence.
  - split; discriminate.
Qed.

Lemma filters_fold (fields : list string) (queryset : QuerySet.t Row) :
  let result :=
    fold_left
      (fun queryset field =>
         let value := strip (get_param (GET request) field "") in
         if nonempty value
         then QuerySet.filter (fun r => exact (attr field r) value) queryset
         else queryset)
      fields queryset in
  QuerySet.ordering result = QuerySet.ordering queryset
  /\ forall r,
       QuerySet.where_ result r = true
       <-> QuerySet.where_ queryset r = true
           /\ forall field, In field fields ->
                let value := strip (get_param (GET request) field "") in
                value <> "" -> text_of (attr field r) = Some value.
Proof.
  revert queryset. induction fields as [| f fields IH]; intros queryset; cbn [fold_left].
  - split; [reflexivity |]. intros r. cbn [In]. tauto.
  - cbv zeta in *.
    set (qs1 := if nonempty (strip (get_param (GET request) f ""))
                then QuerySet.filter
                       (fun r => exact (attr f r) (strip (get_param (GET request) f "")))
                       queryset
                else queryset).
    destruct (IH qs1) as [Hord Hwhere]. split.
    + rewrite Hord. unfold qs1. destruct (nonempty _); reflexivity.
    + intros r. rewrite Hwhere. clear Hord Hwhere IH. unfold qs1.
      destruct (nonempty (strip (get_param (GET request) f ""))) eqn:Hne.
      * cbn [QuerySet.where_ QuerySet.filter]. rewrite andb_true_iff, exact_spec.
        split.
        -- intros [[Hw Hf] Hrest]. split; [exact Hw |].
           intros field [<- | Hin]; [intros _; exact Hf | apply Hrest; exact Hin].
        -- intros [Hw Hall]. split; [split; [exact Hw |] |].
           ++ apply Hall; [left; reflexivity | apply nonempty_spec; exact Hne].
           ++ intros field Hin. apply Hall. right. exact Hin.
      * split.
        -- intros [Hw Hrest]. split; [exact Hw |].
           intros field [<- | Hin]; [| apply Hrest; exact Hin].
           intros Hne'. apply nonempty_spec in Hne'. congruence.
        -- intros [Hw Hall]. split; [exact Hw |].
           intros field Hin. apply Hall. right. exact Hin.
Qed.

Lemma fetch_where (table : list Row) (queryset : QuerySet.t Row) (r : Row) :
  In r (QuerySet.fetch attr leb table queryset)
  <-> In r table /\ QuerySet.where_ queryset r = true.
Proof.
  split.
  - intros Hin. apply (Permutation_in _ (fetch_perm _ _ _ _)) in Hin.
    apply filter_In in Hin. exact Hin.
  - intros Hin. apply (Permutation_in _ (Permutation_sym (fetch_perm _ _ _ _))).
    apply filter_In. exact Hin.
Qed.

Lemma apply_filters_ordering (queryset : QuerySet.t Row) :
  QuerySet.ordering (apply_filters attr config request queryset)
  = QuerySet.ordering queryset.
Proof. exact (proj1 (filters_fold (filter_fields config) queryset)). Qed.

Lemma apply_filters_where (queryset : QuerySet.t Row) (r : Row) :
  QuerySet.where_ (apply_filters attr config request queryset) r = true
  <-> QuerySet.where_ queryset r = true /\ passes_filters attr config request r.
Proof. exact (proj2 (filters_fold (filter_fields config) queryset) r). Qed.

Lemma apply_search_where (queryset : QuerySet.t Row) (r : Row) :
  QuerySet.where_ (apply_search attr config request queryset) r = true
  <-> QuerySet.where_ queryset r = true /\ passes_search attr config request r.
Proof.
  unfold apply_search, passes_search. cbv zeta.
  set (s := strip (get_param (GET request) "q" "")).
  destruct (nonempty s) eqn:Hs; [destruct (nonempty_list (search_fields config)) eqn:Hf |];
    cbn [andb].
  - cbn [QuerySet.where_ QuerySet.filter]. rewrite andb_true_iff.
    unfold search_condition. rewrite existsb_exists. split.
    + intros [Hw (field & Hin & Hc)]. split; [exact Hw |]. intros _ _.
      exists field. split; [exact Hin |]. apply icontains_spec. exact Hc.
    + intros [Hw Hp]. split; [exact Hw |].
      destruct Hp as (field & Hin & Hc).
      * apply nonempty_spec. exact Hs.
      * destruct (search_fields config); [discriminate | discriminate].
      * exists field. split; [exact Hin |]. apply icontains_spec. exact Hc.
  - split; [| tauto]. intros Hw. split; [exact Hw |]. intros _ Hne.
    destruct (search_fields config); [contradiction | discriminate].
  - split; [| tauto]. intros Hw. split; [exact Hw |]. intros Hne.
    apply nonempty_spec in Hne. congruence.
Qed.

Lemma apply_search_ordering (queryset : QuerySet.t Row) :
  QuerySet.ordering (apply_search attr config request queryset)
  = QuerySet.ordering queryset.
Proof.
  unfold apply_search. destruct (_ && _); reflexivity.
Qed.

Lemma apply_sorting_where (queryset : QuerySet.t Row) :
  QuerySet.where_ (apply_sorting config request queryset) = QuerySet.where_ queryset.
Proof.
  unfold apply_sorting. destruct (sort_fields config !! _); [reflexivity |].
  destruct (nonempty (default_sort config)); reflexivity.
Qed.

Lemma apply_sorting_ordering (queryset queryset' : QuerySet.t Row) :
  QuerySet.ordering queryset = QuerySet.ordering queryset' ->
  QuerySet.ordering (apply_sorting config request queryset)
  = QuerySet.ordering (apply_sorting config request queryset').
Proof.
  unfold apply_sorting. intros Hord. destruct (sort_fields config !! _); [reflexivity |].
  destruct (nonempty (default_sort config)); [reflexivity | exact Hord].
Qed.

End MixinFacts.

(** X7: [apply_filters] leaves the ordering of the query set alone and
    keeps the rows in which every filter field whose parameter is not blank
    equals the text of its parameter without the surrounding whitespace;
    the filters add up, and a filter whose parameter is missing, empty or
    blank does not filter. *)
Theorem apply_filters_keeps_equal {Row : Type} (attr : string -> Row -> Value)
    (leb : Value -> Value -> bool) (config : MixinConfig) (request : Request)
    (table : list Row) (queryset : QuerySet.t Row) :
  QuerySet.ordering (apply_filters attr config request queryset)
  = QuerySet.ordering queryset
  /\ forall r,
       In r (QuerySet.fetch attr leb table (apply_filters attr config request queryset))
       <-> In r (QuerySet.fetch attr leb table queryset)
           /\ passes_filters attr config request r.
Proof.
  split; [apply apply_filters_ordering |].
  intros r. rewrite !fetch_where, apply_filters_where. tauto.
Qed.

(** X8: the three steps of [get_queryset] together: the rows are the rows
    of the base query set that pass the search and the filters; searching
    and filtering do not change the order, which is the one that
    [apply_sorting] gives to the base query set; the result has as many
    rows as pass; and searching before filtering or filtering before
    searching gives the same rows in the same order. *)
Theorem get_queryset_composes {Row : Type} (attr : string -> Row -> Value)
    (leb : Value -> Value -> bool) (config : MixinConfig) (request : Request)
    (table : list Row) (base : QuerySet.t Row) :
  let output := QuerySet.fetch attr leb table (get_queryset attr config request base) in
  (forall r,
     In r output
     <-> In r (QuerySet.fetch attr leb table base)
         /\ passes_search attr config request r
         /\ passes_filters attr config request r)
  /\ QuerySet.ordering (get_queryset attr config request base)
     = QuerySet.ordering (apply_sorting config request base)
  /\ Permutation output
       (QuerySet.fetch attr leb table
          (apply_filters attr config request (apply_search attr config request base)))
  /\ output
     = QuerySet.fetch attr leb table
         (apply_sorting config request
            (apply_search attr config request (apply_filters attr config request base))).
Proof.
  cbv zeta. unfold get_queryset.
  assert (Hwhere : forall r,
             QuerySet.where_
               (apply_filters attr config request (apply_search attr config request base)) r
             = true
             <-> QuerySet.where_ base r = true
                 /\ passes_search attr config request r
                 /\ passes_filters attr config request r).
  { intros r. rewrite apply_filters_where, apply_search_where. tauto. }
  assert (Hwhere' : forall r,
             QuerySet.where_
               (apply_search attr config request (apply_filters attr config request base)) r
             = true
             <-> QuerySet.where_ base r = true
                 /\ passes_search attr config request r
                 /\ passes_filters attr config request r).
  { intros r. rewrite apply_search_where, apply_filters_where. tauto. }
  split; [| split; [| split]].
  - intros r. rewrite !fetch_where, apply_sorting_where, Hwhere. tauto.
  - apply apply_sorting_ordering.
    rewrite apply_filters_ordering. apply apply_search_ordering.
  - rewrite !fetch_perm, apply_sorting_where. reflexivity.
  - unfold QuerySet.fetch. rewrite !apply_sorting_where. f_equal.
    + apply apply_sorting_ordering.
      rewrite apply_filters_ordering, !apply_search_ordering, apply_filters_ordering.
      reflexivity.
    + apply filter_perm_ext. intros r.
      apply eq_true_iff_eq. rewrite Hwhere, Hwhere'. reflexivity.
Qed.

(** ** The approval views: failures, the reject that goes through, the frame *)

(** X9: an approve or a reject request for a motor that does not exist
    raises Http404; it stores nothing and queues no message. *)
Theorem approval_post_unknown_motor (request : Request) (pk : Z) (w : World) :
  motor_table w !! pk = None ->
  next_db_op_succeeds w ->
  exists w',
    MotorApproveView_post request pk w
    = (Raise (mkExn Http404 "No Motor matches the given query."), w')
    /\ MotorRejectView_post request pk w
       = (Raise (mkExn Http404 "No Motor matches the given query."), w')
    /\ motor_table w' = motor_table w
    /\ messages w' = messages w.
Proof.
  intros Hnone Hdb. unfold MotorApproveView_post, MotorRejectView_post, next_db_op_succeeds in *.
  run_view.
  match goal with H : match ?f with _ => _ end |- _ => destruct f as [| [e |] rest] end;
    try contradiction; cbn [tail]; rewrite Hnone; eexists; repeat split; reflexivity.
Qed.

Lemma approval_post_unknown_motor_witness :
  exists w',
    MotorApproveView_post example_request 99 example_inventory
    = (Raise (mkExn Http404 "No Motor matches the given query."), w')
    /\ motor_table w' = motor_table example_inventory.
Proof.
  destruct (approval_post_unknown_motor example_request 99 example_inventory
              ltac:(reflexivity) I) as (w' & H & _ & Htable & _).
  exists w'. split; [exact H | exact Htable].
Defined.

(** X10: when an approve or a reject request raises, be it for a missing
    motor or for a database that fails while the motor is read or stored,
    the motor table is as it was and no message has been queued. *)
Theorem approval_post_failure_atomic (request : Request) (pk : Z) (w w' : World) (e : exn) :
  MotorApproveView_post request pk w = (Raise e, w')
  \/ MotorRejectView_post request pk w = (Raise e, w') ->
  motor_table w' = motor_table w /\ messages w' = messages w.
Proof.
  unfold MotorApproveView_post, MotorRejectView_post, Motor_approve, Motor_reject.
  run_view. intros [H | H]; revert H; split_view; intros H; inversion H; subst;
    split; reflexivity.
Qed.

Lemma approval_post_failure_atomic_witness :
  exists w',
    MotorApproveView_post example_request 8 failing_inventory
    = (Raise (mkExn DatabaseError "connection lost"), w')
    /\ motor_table w' = motor_table failing_inventory
    /\ messages w' = [].
Proof.
  assert (Hpost : exists w',
             MotorApproveView_post example_request 8 failing_inventory
             = (Raise (mkExn DatabaseError "connection lost"), w'))
    by (vm_compute; eauto).
  destruct Hpost as (w' & Hpost). exists w'. split; [exact Hpost |].
  apply (approval_post_failure_atomic example_request 8 failing_inventory w'
           (mkExn DatabaseError "connection lost")).
  left. exact Hpost.
Defined.

Lemma rstrip_cons (c : ascii) (s : string) :
  is_space c = false ->
  rstrip (String c s) = String c (rstrip s).
Proof.
  intros Hc. cbn [rstrip]. rewrite Hc. destruct (rstrip s); reflexivity.
Qed.

Lemma rstrip_idempotent (s : string) : rstrip (rstrip s) = rstrip s.
Proof.
  induction s as [| c s IH]; [reflexivity |].
  cbn [rstrip]. destruct (rstrip s) as [| c' r] eqn:Hr.
  - destruct (is_space c) eqn:Hc; [reflexivity |]. cbn [rstrip]. rewrite Hc. reflexivity.
  - cbn [rstrip]. cbn [rstrip] in IH.
    destruct (rstrip r) as [| c'' r'] eqn:Hr'.
    + destruct (is_space c') eqn:Hc'; [discriminate |]. rewrite IH. reflexivity.
    + rewrite IH. reflexivity.
Qed.

Lemma lstrip_head (s : string) :
  match lstrip s with
  | EmptyString => True
  | String c _ => is_space c = false
  end.
Proof.
  induction s as [| c s IH]; cbn [lstrip]; [exact I |].
  destruct (is_space c) eqn:Hc; [exact IH | exact Hc].
Qed.

(** [strip] leaves a stripped text as it is. *)
Lemma strip_idempotent (s : string) : strip (strip s) = strip s.
Proof.
  unfold strip. pose proof (lstrip_head s) as Hhead.
  destruct (lstrip s) as [| c t]; [reflexivity |].
  rewrite (rstrip_cons c t Hhead). cbn [lstrip]. rewrite Hhead.
  rewrite <- (rstrip_cons c t Hhead). apply rstrip_idempotent.
Qed.

Lemma blank_false (s : string) : blank s = false <-> strip s <> "".
Proof.
  pose proof (strip_empty s) as H. destruct (blank s); intuition congruence.
Qed.

(** X11: a reject request that finds a PENDING motor and carries a reason
    that is not blank stores the motor as REJECTED with the acting user and
    the reason without its surrounding whitespace, queues one warning and
    redirects to the approval list, provided the database takes the
    write. *)
Theorem reject_stores_reason (request : Request) (pk : Z) (w w1 : World) (m : Motor) :
  get_object_or_404 pk w = (Ok m, w1) ->
  approval_status m = PENDING ->
  blank (get_param (POST request) "rejection_notes" "") = false ->
  next_db_op_succeeds w1 ->
  let notes := strip (get_param (POST request) "rejection_notes" "") in
  exists w',
    MotorRejectView_post request pk w
    = (Ok (mkRedirect "inventory:motor-approval-list" None), w')
    /\ motor_table w' = <[motor_pk m := rejected m (user request) notes]> (motor_table w)
    /\ messages w'
       = messages w ++ [(msg_warning,
                         "Motorcycle '" +:+ display_name m +:+ "' has been rejected.")].
Proof.
  intros Hfound Hst Hnotes Hsave. cbv zeta.
  destruct (get_object_or_404_found pk w w1 m Hfound) as (Hm & Hdb & ->). clear Hfound.
  apply blank_false in Hnotes.
  assert (Hne : nonempty (strip (get_param (POST request) "rejection_notes" "")) = true)
    by (apply nonempty_spec; exact Hnotes).
  unfold MotorRejectView_post, Motor_reject, next_db_op_succeeds, rejected in *.
  rewrite strip_idempotent, Hne.
  destruct w as [st mt faults msgs err].
  cbn [db_faults motor_table schedule_table messages stderr] in *.
  destruct faults as [| [e |] [| [e' |] rest]]; cbn [tail] in *; try contradiction;
    run_view; rewrite Hm, Hst; cbn -[String.append strip insert];
    eexists; (split; [reflexivity |]); split; reflexivity.
Qed.

Lemma reject_stores_reason_witness :
  exists w',
    MotorRejectView_post reject_request 8 example_inventory
    = (Ok (mkRedirect "inventory:motor-approval-list" None), w')
    /\ motor_table w' !! 8
       = Some (mkMotor 8 "Yamaha Mio" REJECTED (Some "finance2") "no papers").
Proof.
  destruct (reject_stores_reason reject_request 8 example_inventory example_inventory
              example_pending_motor ltac:(reflexivity) ltac:(reflexivity)
              ltac:(reflexivity) I) as (w' & Hpost & Htable & _).
  exists w'. split; [exact Hpost |]. rewrite Htable. reflexivity.
Defined.

Lemma keyed_insert (table : gmap Z Motor) (pk : Z) (m m' : Motor) :
  keyed_by_pk table ->
  table !! pk = Some m ->
  motor_pk m' = motor_pk m ->
  (forall k, k <> pk -> <[motor_pk m := m']> table !! k = table !! k)
  /\ keyed_by_pk (<[motor_pk m := m']> table)
  /\ <[motor_pk m := m']> table !! pk = Some m'.
Proof.
  intros Hkeyed Hm Hpk. rewrite (Hkeyed pk m Hm). split; [| split].
  - intros k Hk. apply lookup_insert_ne. congruence.
  - intros k m0. destruct (decide (pk = k)) as [<- | Hne].
    + rewrite lookup_insert_eq. intros H. inversion H; subst.
      rewrite Hpk. apply Hkeyed. exact Hm.
    + rewrite lookup_insert_ne by exact Hne. apply Hkeyed.
  - apply lookup_insert_eq.
Qed.

(** X12: an approve or a reject request touches one motor at most: every
    other motor and every payment schedule stays as it was, the motor that
    the request names keeps its primary key and its display name, the table
    still holds every motor under its own key, and a request that is
    answered queues exactly one message. *)
Theorem approval_post_frame (request : Request) (pk : Z) (w w' : World)
    (outcome : result Redirect) :
  keyed_by_pk (motor_table w) ->
  MotorApproveView_post request pk w = (outcome, w')
  \/ MotorRejectView_post request pk w = (outcome, w') ->
  (forall k, k <> pk -> motor_table w' !! k = motor_table w !! k)
  /\ (forall m, motor_table w !! pk = Some m ->
        exists m', motor_table w' !! pk = Some m'
                   /\ motor_pk m' = motor_pk m /\ display_name m' = display_name m)
  /\ keyed_by_pk (motor_table w')
  /\ schedule_table w' = schedule_table w
  /\ (forall redirect, outcome = Ok redirect ->
        exists level text, messages w' = messages w ++ [(level, text)]).
Proof.
  unfold MotorApproveView_post, MotorRejectView_post, Motor_approve, Motor_reject.
  run_view. intros Hkeyed [H | H]; revert H; split_view; intros H; inversion H; subst;
    clear H;
    try (split; [intros; reflexivity |];
         split; [intros m0 Hm0;
                 first [discriminate
                       | inversion Hm0; subst; eexists;
                         split; [eassumption | split; reflexivity]] |];
         split; [exact Hkeyed |]; split; [reflexivity |];
         intros redirect Hr; try discriminate; eexists _, _; reflexivity).
  all: match goal with
       | Hl : ?t !! ?k = Some ?m |- context [<[motor_pk ?m := ?m']> ?t] =>
           destruct (keyed_insert t k m m' Hkeyed Hl eq_refl) as (Hframe & Hkeyed' & Hnew)
       end;
       (split; [exact Hframe |]);
       (split; [intros m0 Hm0; inversion Hm0; subst; eexists; split; [exact Hnew |];
                split; reflexivity |]);
       (split; [exact Hkeyed' |]); (split; [reflexivity |]);
       intros redirect Hr; try discriminate; eexists _, _; reflexivity.
Qed.

Lemma example_inventory_keyed : keyed_by_pk (motor_table example_inventory).
Proof.
  intros k m. unfold example_inventory. cbn [motor_table]. intros H.
  apply lookup_insert_Some in H. destruct H as [[<- <-] | [_ H]]; [reflexivity |].
  apply lookup_insert_Some in H. destruct H as [[<- <-] | [_ H]]; [reflexivity |].
  rewrite lookup_empty in H. discriminate.
Qed.

Lemma approval_post_frame_witness :
  exists w',
    MotorApproveView_post example_request 8 example_inventory
    = (Ok (mkRedirect "inventory:motor-approval-detail" (Some 8)), w')
    /\ motor_table w' !! 7 = Some example_motor
    /\ length (messages w') = 1%nat.
Proof.
  assert (Hpost : exists w',
             MotorApproveView_post example_request 8 example_inventory
             = (Ok (mkRedirect "inventory:motor-approval-detail" (Some 8)), w'))
    by (vm_compute; eauto).
  destruct Hpost as (w' & Hpost). exists w'. split; [exact Hpost |].
  destruct (approval_post_frame example_request 8 example_inventory w' _
              example_inventory_keyed (or_introl Hpost))
    as (Hframe & _ & _ & _ & Hmsg).
  split.
  - rewrite Hframe by discriminate. reflexivity.
  - destruct (Hmsg _ eq_refl) as (level & text & ->). reflexivity.
Defined.

(** ** Dictionaries *)

Section DictFacts.

Context {V : Type}.

Implicit Types (d : list (string * V)) (k : string) (v : V).

Lemma get_setitem k k' v d :
  PyDict.get k (PyDict.setitem k' v d)
  = if String.eqb k' k then Some v else PyDict.get k d.
Proof.
  induction d as [| [k0 v0] d IH]; cbn [PyDict.setitem PyDict.get].
  - reflexivity.
  - destruct (String.eqb_spec k0 k') as [-> | Hne]; cbn [PyDict.get].
    + destruct (String.eqb k' k); reflexivity.
    + rewrite IH. destruct (String.eqb_spec k0 k) as [-> | Hne'].
      * destruct (String.eqb_spec k' k); [congruence | reflexivity].
      * reflexivity.
Qed.

Lemma keys_setitem k k' v d :
  In k (map fst (PyDict.setitem k' v d)) <-> k = k' \/ In k (map fst d).
Proof.
  induction d as [| [k0 v0] d IH]; cbn [PyDict.setitem map fst In].
  - intuition congruence.
  - destruct (String.eqb_spec k0 k') as [-> | Hne]; cbn [map fst In].
    + intuition congruence.
    + rewrite IH. tauto.
Qed.

Lemma NoDup_setitem k v d :
  List.NoDup (map fst d) -> List.NoDup (map fst (PyDict.setitem k v d)).
Proof.
  induction d as [| [k0 v0] d IH]; cbn [PyDict.setitem map fst].
  - intros _. constructor; [intros [] | constructor].
  - intros Hnd. inversion Hnd as [| ? ? Hnotin Hnd']; subst.
    destruct (String.eqb_spec k0 k) as [-> | Hne]; cbn [map fst].
    + constructor; assumption.
    + constructor; [| apply IH; assumption].
      rewrite keys_setitem. intros [-> | Hin]; [congruence | contradiction].
Qed.

Lemma get_None k d : PyDict.get k d = None <-> ~ In k (map fst d).
Proof.
  induction d as [| [k0 v0] d IH]; cbn [PyDict.get map fst In]; [tauto |].
  destruct (String.eqb_spec k0 k) as [-> | Hne].
  - split; [discriminate | intros H; exfalso; apply H; left; reflexivity].
  - rewrite IH. tauto.
Qed.

Lemma get_In k v d : List.NoDup (map fst d) -> (In (k, v) d <-> PyDict.get k d = Some v).
Proof.
  induction d as [| [k0 v0] d IH]; cbn [PyDict.get map fst In].
  - intros _. split; [intros [] | discriminate].
  - intros Hnd. inversion Hnd as [| ? ? Hnotin Hnd']; subst.
    destruct (String.eqb_spec k0 k) as [-> | Hne].
    + split.
      * intros [H | H]; [congruence |]. exfalso. apply Hnotin.
        apply in_map_iff. exists (k, v). auto.
      * intros H. left. congruence.
    + rewrite <- (IH Hnd'). split; [intros [H | H]; [congruence | exact H] | auto].
Qed.

Lemma get_update k d other :
  List.NoDup (map fst other) ->
  PyDict.get k (PyDict.update d other)
  = match PyDict.get k other with
    | Some v => Some v
    | None => PyDict.get k d
    end.
Proof.
  unfold PyDict.update. revert d.
  induction other as [| [k0 v0] other IH]; intros d Hnd; cbn [fold_left PyDict.get fst snd].
  - reflexivity.
  - inversion Hnd as [| ? ? Hnotin Hnd']; subst. rewrite (IH _ Hnd'), get_setitem.
    destruct (String.eqb_spec k0 k) as [-> | Hne]; [| reflexivity].
    apply get_None in Hnotin. rewrite Hnotin. reflexivity.
Qed.

Lemma NoDup_update d other :
  List.NoDup (map fst d) -> List.NoDup (map fst (PyDict.update d other)).
Proof.
  unfold PyDict.update. revert d.
  induction other as [| [k0 v0] other IH]; intros d Hnd; cbn [fold_left]; [exact Hnd |].
  apply IH. apply NoDup_setitem. exact Hnd.
Qed.

Lemma NoDup_keys_filter (f : string * V -> bool) d :
  List.NoDup (map fst d) -> List.NoDup (map fst (List.filter f d)).
Proof.
  induction d as [| [k0 v0] d IH]; cbn [List.filter map fst]; [auto |].
  intros Hnd. inversion Hnd as [| ? ? Hnotin Hnd']; subst.
  destruct (f (k0, v0)); cbn [map fst]; [| auto].
  constructor; [| auto]. intros Hin. apply Hnotin.
  apply in_map_iff in Hin. destruct Hin as ([k1 v1] & <- & Hin).
  apply filter_In in Hin. apply in_map_iff. exists (k1, v1). tauto.
Qed.

End DictFacts.

(** ** Query strings *)

Lemma query_params_base (request : Request) (fields : list string)
    (params : list (string * PyVal)) :
  let result :=
    fold_left
      (fun params field =>
         PyDict.setitem field (PyStr (get_param (GET request) field "")) params)
      fields params in
  (List.NoDup (map fst params) -> List.NoDup (map fst result))
  /\ forall k,
       PyDict.get k result
       = if existsb (String.eqb k) fields
         then Some (PyStr (get_param (GET request) k ""))
         else PyDict.get k params.
Proof.
  revert params. induction fields as [| f fields IH]; intros params; cbn [fold_left existsb].
  - split; [auto | reflexivity].
  - cbv zeta in *.
    destruct (IH (PyDict.setitem f (PyStr (get_param (GET request) f "")) params))
      as [Hnd Hget].
    split.
    + intros H. apply Hnd. apply NoDup_setitem. exact H.
    + intros k. rewrite Hget, get_setitem.
      destruct (existsb (String.eqb k) fields); [rewrite orb_true_r; reflexivity |].
      rewrite orb_false_r. rewrite (String.eqb_sym k f).
      destruct (String.eqb_spec f k) as [-> | _]; reflexivity.
Qed.

(** X13: the query string that [build_query_string] builds from keyword
    arguments with distinct names.  It lists each parameter once; a
    parameter is listed when its value is not empty, and its value is the
    keyword argument of its name when there is one, else the value in the
    request when it is [q], [sort], [order] or a filter field; so a keyword
    argument that is empty, zero or [None] removes its parameter.  The
    string is empty when nothing is listed and starts with a question mark
    otherwise. *)
Theorem build_query_string_params (config : MixinConfig) (request : Request)
    (overrides : list (string * PyVal)) :
  List.NoDup (map fst overrides) ->
  exists params : list (string * PyVal),
    build_query_string config request overrides
    = (if nonempty_list params
       then "?" +:+ str_join "&" (map (fun kv => fst kv +:+ "=" +:+ py_str (snd kv)) params)
       else "")
    /\ List.NoDup (map fst params)
    /\ (forall k v,
          In (k, v) params
          <-> py_truthy v = true
              /\ (PyDict.get k overrides = Some v
                  \/ (PyDict.get k overrides = None
                      /\ In k ("q" :: "sort" :: "order" :: filter_fields config)
                      /\ v = PyStr (get_param (GET request) k ""))))
    /\ (build_query_string config request overrides = "" <-> params = []).
Proof.
  intros Hnd. unfold build_query_string.
  set (base := [("q", PyStr (get_param (GET request) "q" ""));
                ("sort", PyStr (get_param (GET request) "sort" ""));
                ("order", PyStr (get_param (GET request) "order" ""))]).
  destruct (query_params_base request (filter_fields config) base) as [Hnd1 Hget1].
  cbv zeta in Hnd1, Hget1.
  set (with_fields := fold_left _ (filter_fields config) base) in *.
  set (all_params := PyDict.update with_fields overrides).
  assert (Hnd2 : List.NoDup (map fst all_params)).
  { apply NoDup_update, Hnd1. unfold base. cbn [map fst].
    repeat constructor; cbn [In]; intuition discriminate. }
  exists (List.filter (fun kv => py_truthy (snd kv)) all_params).
  split; [reflexivity |]. split; [apply NoDup_keys_filter; exact Hnd2 |]. split.
  - intros k v. rewrite filter_In. cbn [snd]. rewrite (get_In k v all_params Hnd2).
    unfold all_params. rewrite (get_update k with_fields overrides Hnd), Hget1.
    assert (Hbase : (if existsb (String.eqb k) (filter_fields config)
                     then Some (PyStr (get_param (GET request) k ""))
                     else PyDict.get k base) = Some v
                    <-> In k ("q" :: "sort" :: "order" :: filter_fields config)
                        /\ v = PyStr (get_param (GET request) k "")).
    { destruct (existsb (String.eqb k) (filter_fields config)) eqn:Hin.
      - apply existsb_exists in Hin. destruct Hin as (f & Hin & Heq).
        apply String.eqb_eq in Heq. subst f. cbn [In]. split.
        + intros H. inversion H. auto.
        + intros [_ ->]. reflexivity.
      - assert (Hnotin : ~ In k (filter_fields config)).
        { intros Hin'. enough (existsb (String.eqb k) (filter_fields config) = true)
            by congruence.
          apply existsb_exists. exists k. split; [exact Hin' | apply String.eqb_refl]. }
        unfold base. cbn [PyDict.get In].
        destruct (String.eqb_spec "q" k) as [<- | Hq].
        { split; [intros H; inversion H; auto | intros [_ ->]; reflexivity]. }
        destruct (String.eqb_spec "sort" k) as [<- | Hs].
        { split; [intros H; inversion H; auto | intros [_ ->]; reflexivity]. }
        destruct (String.eqb_spec "order" k) as [<- | Ho].
        { split; [intros H; inversion H; auto | intros [_ ->]; reflexivity]. }
        split; [discriminate | intros [[H | [H | [H | H]]] _]; congruence]. }
    destruct (PyDict.get k overrides) as [v0 |].
    + split.
      * intros [H Ht]. split; [exact Ht | left; exact H].
      * intros [Ht [H | [H _]]]; [split; assumption | discriminate].
    + rewrite Hbase. split.
      * intros [H Ht]. split; [exact Ht | right; split; [reflexivity | exact H]].
      * intros [Ht [H | [_ H]]]; [discriminate | split; assumption].
  - destruct (List.filter _ all_params) as [| p rest]; cbn [nonempty_list].
    + tauto.
    + split; [intros H; discriminate | discriminate].
Qed.

Lemma build_query_string_params_witness :
  exists params,
    build_query_string price_config price_request [("page", PyInt 2); ("order", PyStr "")]
    = "?" +:+ str_join "&" (map (fun kv => fst kv +:+ "=" +:+ py_str (snd kv)) params)
    /\ In ("page", PyInt 2) params
    /\ ~ In "order" (map fst params).
Proof.
  destruct (build_query_string_params price_config price_request
              [("page", PyInt 2); ("order", PyStr "")])
    as (params & Hstring & _ & Hin & Hempty).
  - repeat constructor; cbn [In map fst]; intuition discriminate.
  - exists params.
    assert (Hpage : In ("page", PyInt 2) params).
    { apply Hin. split; [reflexivity | left; reflexivity]. }
    split; [| split; [exact Hpage |]].
    + rewrite Hstring. destruct params; [destruct Hpage | reflexivity].
    + intros Horder. apply in_map_iff in Horder. destruct Horder as ([k v] & Hk & Hkv).
      cbn [fst] in Hk. subst k. apply Hin in Hkv.
      destruct Hkv as [Ht [H | [H _]]]; [| discriminate].
      inversion H; subst. discriminate.
Defined.

Lemma build_query_string_example :
  build_query_string price_config price_request [("page", PyInt 2); ("order", PyStr "")]
  = "?sort=price&page=2".
Proof. vm_compute. reflexivity. Qed.

(** X14: the link that [get_sort_url] builds for a column, from a query
    whose keys are distinct.  It lists each parameter once, and only
    parameters with a value that is not empty: [sort] is the column;
    [order] is [desc] when the query already sorts by this column in
    ascending order (the last [sort] value is the column and the last
    [order] value, [asc] when there is none, is [asc]) and [asc] in every
    other case; every other parameter of the query is carried over with
    the first of its values. *)
Theorem get_sort_url_params (query : QueryDict) (field : string) :
  List.NoDup (map fst query) ->
  let order :=
    if String.eqb (QueryDict_get query "sort" "") field
       && String.eqb (QueryDict_get query "order" "asc") "asc"
    then "desc" else "asc" in
  exists params : list (string * string),
    get_sort_url query field
    = str_join "&" (map (fun kv => fst kv +:+ "=" +:+ snd kv) params)
    /\ List.NoDup (map fst params)
    /\ forall k v,
         In (k, v) params
         <-> v <> ""
             /\ ((k = "sort" /\ v = field)
                 \/ (k = "order" /\ v = order)
                 \/ (k <> "sort" /\ k <> "order"
                     /\ exists rest, PyDict.get k query = Some (v :: rest))).
Proof.
  intros Hnd order. unfold get_sort_url. fold order.
  set (params := PyDict.setitem "order" [order] (PyDict.setitem "sort" [field] query)).
  set (keep := fun kv : string * list string =>
                 nonempty_list (snd kv) && nonempty (hd "" (snd kv))).
  assert (Hnd' : List.NoDup (map fst params))
    by (unfold params; apply NoDup_setitem, NoDup_setitem, Hnd).
  exists (map (fun kv => (fst kv, hd "" (snd kv))) (List.filter keep params)).
  split; [rewrite map_map; reflexivity |]. split.
  - rewrite map_map. cbn [fst].
    change (fun x : string * list string => fst x) with (@fst string (list string)).
    apply NoDup_keys_filter. exact Hnd'.
  - intros k v. rewrite in_map_iff.
    assert (Hget : forall values,
               In (k, values) params
               <-> (if String.eqb "order" k then Some [order]
                    else if String.eqb "sort" k then Some [field]
                    else PyDict.get k query) = Some values).
    { intros values. rewrite (get_In k values params Hnd'). unfold params.
      rewrite !get_setitem. reflexivity. }
    split.
    + intros ([k0 values] & Heq & Hin). cbn [fst snd] in Heq. injection Heq as Hk Hv. subst k0 v.
      apply filter_In in Hin. destruct Hin as [Hin Hkeep].
      unfold keep in Hkeep. cbn [snd] in Hkeep. apply andb_true_iff in Hkeep.
      destruct Hkeep as [_ Hne]. apply nonempty_spec in Hne. split; [exact Hne |].
      apply Hget in Hin.
      destruct (String.eqb_spec "order" k) as [Hk' | Ho].
      { injection Hin as <-. right. left. auto. }
      destruct (String.eqb_spec "sort" k) as [Hk' | Hs].
      { injection Hin as <-. left. auto. }
      right. right. split; [congruence |]. split; [congruence |].
      destruct values as [| v0 rest]; [contradiction Hne; reflexivity |].
      exists rest. exact Hin.
    + intros [Hne Hcases].
      assert (Hvalues : exists values, In (k, values) params /\ hd "" values = v
                                       /\ nonempty_list values = true).
      { destruct Hcases as [[-> ->] | [[-> ->] | (Hs & Ho & rest & Hq)]].
        - exists [field]. split; [apply Hget; reflexivity | auto].
        - exists [order]. split; [apply Hget; reflexivity | auto].
        - exists (v :: rest). split; [| auto]. apply Hget.
          destruct (String.eqb_spec "order" k); [congruence |].
          destruct (String.eqb_spec "sort" k); [congruence |]. exact Hq. }
      destruct Hvalues as (values & Hin & Hhd & Hnonempty).
      exists (k, values). cbn [fst snd]. split; [rewrite Hhd; reflexivity |].
      apply filter_In. split; [exact Hin |]. unfold keep. cbn [snd].
      rewrite Hnonempty, Hhd. apply nonempty_spec. exact Hne.
Qed.

Lemma get_sort_url_params_witness :
  exists params,
    get_sort_url amount_query "amount"
    = str_join "&" (map (fun kv => fst kv +:+ "=" +:+ snd kv) params)
    /\ In ("order", "desc") params
    /\ In ("status", "due") params
    /\ ~ In "page" (map fst params).
Proof.
  destruct (get_sort_url_params amount_query "amount") as (params & Hurl & _ & Hin).
  - unfold amount_query. cbn [map fst].
    repeat constructor; cbn [In]; intuition discriminate.
  - exists params. split; [exact Hurl |]. split; [| split].
    + apply Hin. split; [discriminate |]. right. left. split; reflexivity.
    + apply Hin. split; [discriminate |]. right. right.
      split; [discriminate |]. split; [discriminate |]. exists []. reflexivity.
    + intros Hpage. apply in_map_iff in Hpage. destruct Hpage as ([k v] & Hk & Hkv).
      cbn [fst] in Hk. subst k. apply Hin in Hkv.
      destruct Hkv as [Hne [[H _] | [[H _] | (_ & _ & rest & H)]]]; try discriminate.
      inversion H; subst. contradiction Hne. reflexivity.
Defined.

Lemma get_sort_url_example :
  get_sort_url amount_query "amount" = "status=due&sort=amount&order=desc"
  /\ get_sort_url amount_query "customer" = "status=due&sort=customer&order=asc".
Proof. split; vm_compute; reflexivity. Qed.

(** ** The approval list *)

Lemma Motor_objects_In (w : World) (m : Motor) :
  In m (Motor_objects w) <-> exists k, motor_table w !! k = Some m.
Proof.
  unfold Motor_objects. rewrite in_map_iff. split.
  - intros ([k m'] & <- & Hin). exists k.
    apply list_elem_of_In, elem_of_map_to_list in Hin. exact Hin.
  - intros (k & Hk). exists (k, m). split; [reflexivity |].
    apply list_elem_of_In, elem_of_map_to_list. exact Hk.
Qed.

Lemma filter_length_le {A : Type} (f g : A -> bool) (l : list A) :
  (forall x, f x = true -> g x = true) ->
  (length (List.filter f l) <= length (List.filter g l))%nat.
Proof.
  intros Himp. induction l as [| x l IH]; cbn [List.filter]; [lia |].
  destruct (f x) eqn:Hf.
  - rewrite (Himp x Hf). cbn [length]. lia.
  - destruct (g x); cbn [length]; lia.
Qed.

Section ApprovalListFacts.

Variable motor_attr : string -> Motor -> Value.

Variable MotorFilterForm : option (gmap string string) -> FilterForm.

Lemma approval_list_where (request : Request) (m : Motor) :
  QuerySet.where_ (MotorApprovalListView_get_queryset motor_attr MotorFilterForm request) m
  = true ->
  approval_status m = PENDING.
Proof.
  unfold MotorApprovalListView_get_queryset.
  assert (Hp : ApprovalStatus_eqb (approval_status m) PENDING = true
               -> approval_status m = PENDING)
    by (destruct (approval_status m); [reflexivity | discriminate ..]).
  destruct (is_valid _); [destruct (cleaned_data _ !! "q") as [query |];
                          [destruct (nonempty query) |] |];
    cbn [QuerySet.where_ QuerySet.filter QuerySet.order_by QuerySet.all andb];
    rewrite ?andb_true_iff; intros H; apply Hp; tauto.
Qed.

Lemma approval_list_where_all (request : Request) (m : Motor) :
  let form := MotorApprovalListView_filter_form MotorFilterForm request in
  is_valid form = false \/ cleaned_data form !! "q" = None
  \/ cleaned_data form !! "q" = Some "" ->
  QuerySet.where_ (MotorApprovalListView_get_queryset motor_attr MotorFilterForm request) m
  = ApprovalStatus_eqb (approval_status m) PENDING.
Proof.
  cbv zeta. unfold MotorApprovalListView_get_queryset.
  intros [-> | [-> | ->]]; [reflexivity | |];
    destruct (is_valid _); reflexivity.
Qed.

Lemma approval_list_ordering (request : Request) :
  QuerySet.ordering (MotorApprovalListView_get_queryset motor_attr MotorFilterForm request)
  = [("created_at", true)].
Proof.
  unfold MotorApprovalListView_get_queryset.
  destruct (is_valid _); [destruct (cleaned_data _ !! "q") as [query |];
                          [destruct (nonempty query) |] |]; reflexivity.
Qed.

End ApprovalListFacts.

(** X15: the approval list holds PENDING motors of the table only, newest
    first, whatever the filter form makes of the request, and never more
    than [pending_count] of them; when the form is not valid or yields no
    search text, it holds every PENDING motor. *)
Theorem approval_list_only_pending (motor_attr : string -> Motor -> Value)
    (MotorFilterForm : option (gmap string string) -> FilterForm)
    (leb : Value -> Value -> bool) (request : Request) (w : World) :
  let queryset := MotorApprovalListView_get_queryset motor_attr MotorFilterForm request in
  let form := MotorApprovalListView_filter_form MotorFilterForm request in
  let listed := QuerySet.fetch motor_attr leb (Motor_objects w) queryset in
  Forall (fun m => approval_status m = PENDING /\ exists k, motor_table w !! k = Some m)
         listed
  /\ QuerySet.ordering queryset = [("created_at", true)]
  /\ Z.of_nat (length listed) <= MotorApprovalListView_pending_count w
  /\ (is_valid form = false \/ cleaned_data form !! "q" = None
      \/ cleaned_data form !! "q" = Some "" ->
      Z.of_nat (length listed) = MotorApprovalListView_pending_count w
      /\ forall m, In m listed
                   <-> approval_status m = PENDING
                       /\ exists k, motor_table w !! k = Some m).
Proof.
  cbv zeta. split; [| split; [| split]].
  - apply List.Forall_forall. intros m Hin.
    apply (Permutation_in _ (fetch_perm _ _ _ _)) in Hin. apply filter_In in Hin.
    destruct Hin as [Hin Hwhere]. split.
    + exact (approval_list_where motor_attr MotorFilterForm request m Hwhere).
    + apply Motor_objects_In. exact Hin.
  - apply approval_list_ordering.
  - unfold MotorApprovalListView_pending_count.
    rewrite (Permutation_length (fetch_perm _ _ _ _)).
    apply inj_le. apply filter_length_le. intros m Hwhere.
    rewrite (approval_list_where motor_attr MotorFilterForm request m Hwhere). reflexivity.
  - intros Hform. split.
    + unfold MotorApprovalListView_pending_count.
      rewrite (Permutation_length (fetch_perm _ _ _ _)). do 2 f_equal.
      apply filter_perm_ext. intros m. apply approval_list_where_all. exact Hform.
    + intros m. rewrite fetch_where, Motor_objects_In, approval_list_where_all by exact Hform.
      destruct (approval_status m); cbn [ApprovalStatus_eqb]; intuition congruence.
Qed.

Lemma approval_list_only_pending_witness :
  Z.of_nat
    (length (QuerySet.fetch no_columns int_leb (Motor_objects example_inventory)
               (MotorApprovalListView_get_queryset no_columns invalid_form
                  example_request)))
  = MotorApprovalListView_pending_count example_inventory.
Proof.
  destruct (approval_list_only_pending no_columns invalid_form int_leb example_request
              example_inventory) as (_ & _ & _ & Hall).
  apply Hall. left. reflexivity.
Defined.

Lemma pending_count_insert (w w' : World) (pk : Z) (m m' : Motor) :
  motor_table w !! pk = Some m ->
  motor_table w' = <[pk := m']> (motor_table w) ->
  MotorApprovalListView_pending_count w
  - (if ApprovalStatus_eqb (approval_status m) PENDING then 1 else 0)
  = MotorApprovalListView_pending_count w'
    - (if ApprovalStatus_eqb (approval_status m') PENDING then 1 else 0).
Proof.
  intros Hm Hw'. unfold MotorApprovalListView_pending_count, Motor_objects.
  rewrite Hw'.
  set (pending := fun m0 => ApprovalStatus_eqb (approval_status m0) PENDING).
  assert (Hcount : forall l l' : list (Z * Motor),
             Permutation l l' ->
             length (List.filter pending (map snd l))
             = length (List.filter pending (map snd l'))).
  { intros l l' Hperm. apply Permutation_length.
    induction Hperm as [| x l1 l2 _ IH | x y l1 | l1 l2 l3 _ IH1 _ IH2];
      cbn [map List.filter].
    - reflexivity.
    - destruct (pending (snd x)); [apply perm_skip |]; exact IH.
    - destruct (pending (snd x)), (pending (snd y)); try reflexivity. apply perm_swap.
    - etransitivity; eassumption. }
  rewrite <- (insert_delete_id (motor_table w) pk m Hm) at 1.
  rewrite <- (insert_delete_eq (motor_table w) pk m').
  rewrite (Hcount _ _ (map_to_list_insert (delete pk (motor_table w)) pk m
                         (lookup_delete_eq _ _))).
  rewrite (Hcount _ _ (map_to_list_insert (delete pk (motor_table w)) pk m'
                         (lookup_delete_eq _ _))).
  cbn [map snd List.filter]. fold (pending m) (pending m').
  destruct (pending m), (pending m'); cbn [length]; lia.
Qed.

(** X16: once an approve request, or a reject request with a reason, has
    gone through for a PENDING motor (approve and reject being what the
    specification says, their code not being among the sources), the motor
    is off the approval list, every other motor is on the list exactly when
    it was before, and [pending_count] is one less. *)
Theorem decided_motor_leaves_list (motor_attr : string -> Motor -> Value)
    (MotorFilterForm : option (gmap string string) -> FilterForm)
    (leb : Value -> Value -> bool) (request list_request : Request) (pk : Z)
    (w : World) (m : Motor) :
  keyed_by_pk (motor_table w) ->
  motor_table w !! pk = Some m ->
  approval_status m = PENDING ->
  db_answers_twice w ->
  let listed w0 :=
    QuerySet.fetch motor_attr leb (Motor_objects w0)
      (MotorApprovalListView_get_queryset motor_attr MotorFilterForm list_request) in
  let left_the_list w' :=
    (forall m', In m' (listed w') <-> In m' (listed w) /\ motor_pk m' <> pk)
    /\ MotorApprovalListView_pending_count w'
       = MotorApprovalListView_pending_count w - 1 in
  (exists redirect w',
     MotorApproveView_post request pk w = (Ok redirect, w') /\ left_the_list w')
  /\ (blank (get_param (POST request) "rejection_notes" "") = false ->
      exists redirect w',
        MotorRejectView_post request pk w = (Ok redirect, w') /\ left_the_list w').
Proof.
  intros Hkeyed Hm Hst Hdb listed left_the_list.
  assert (Hleft : forall w' m',
             motor_table w' = <[pk := m']> (motor_table w) ->
             motor_pk m' = pk -> approval_status m' <> PENDING ->
             left_the_list w').
  { intros w' m' Htable Hpk Hnot. split.
    - intros m0. unfold listed. rewrite !fetch_where, !Motor_objects_In, Htable.
      split.
      + intros [(k & Hk) Hwhere].
        destruct (decide (pk = k)) as [<- | Hne].
        * rewrite lookup_insert_eq in Hk. inversion Hk; subst m0.
          apply approval_list_where in Hwhere. contradiction.
        * rewrite lookup_insert_ne in Hk by exact Hne.
          split; [split; [eauto | exact Hwhere] |].
          rewrite (Hkeyed k m0 Hk). congruence.
      + intros [[(k & Hk) Hwhere] Hne]. split; [| exact Hwhere].
        exists k. rewrite lookup_insert_ne; [exact Hk |].
        rewrite <- (Hkeyed k m0 Hk). congruence.
    - pose proof (pending_count_insert w w' pk m m' Hm Htable) as Hcount.
      rewrite Hst in Hcount. cbn [ApprovalStatus_eqb] in Hcount.
      destruct (approval_status m'); [contradiction | |];
        cbn [ApprovalStatus_eqb] in Hcount; lia. }
  assert (Hfaults : exists rest, db_faults w = [] \/ db_faults w = [None]
                                 \/ db_faults w = None :: None :: rest).
  { unfold db_answers_twice in Hdb.
    destruct (db_faults w) as [| [e |] [| [e' |] rest]]; cbn [firstn] in Hdb;
      try (inversion Hdb as [| ? ? Hfate Hrest]; subst; try discriminate;
           inversion Hrest; subst; discriminate);
      first [exists []; auto; fail | eexists; auto]. }
  destruct Hfaults as (rest & Hfaults).
  pose proof (Hkeyed pk m Hm) as Hpk.
  split.
  - unfold MotorApproveView_post, Motor_approve.
    destruct w as [st mt faults msgs err].
    cbn [db_faults motor_table schedule_table messages stderr] in *.
    destruct Hfaults as [-> | [-> | ->]]; run_view; cbn [tail]; rewrite Hm, Hst;
      cbn -[String.append strip insert]; rewrite Hpk;
      eexists _, _; (split; [reflexivity |]);
      (eapply Hleft; [reflexivity | reflexivity | discriminate]).
  - intros Hnotes. apply blank_false in Hnotes.
    assert (Hne : nonempty (strip (get_param (POST request) "rejection_notes" "")) = true)
      by (apply nonempty_spec; exact Hnotes).
    unfold MotorRejectView_post, Motor_reject. rewrite strip_idempotent, Hne.
    destruct w as [st mt faults msgs err].
    cbn [db_faults motor_table schedule_table messages stderr] in *.
    destruct Hfaults as [-> | [-> | ->]]; run_view; cbn [tail]; rewrite Hm, Hst;
      cbn -[String.append strip insert]; rewrite Hpk;
      eexists _, _; (split; [reflexivity |]);
      (eapply Hleft; [reflexivity | reflexivity | discriminate]).
Qed.

Lemma decided_motor_leaves_list_witness :
  exists redirect w',
    MotorApproveView_post example_request 8 example_inventory = (Ok redirect, w')
    /\ MotorApprovalListView_pending_count w'
       = MotorApprovalListView_pending_count example_inventory - 1.
Proof.
  destruct (decided_motor_leaves_list no_columns invalid_form int_leb example_request
              example_request 8 example_inventory example_pending_motor
              example_inventory_keyed ltac:(reflexivity) ltac:(reflexivity)
              ltac:(constructor))
    as [(redirect & w' & Hpost & _ & Hcount) _].
  exists redirect, w'. split; [exact Hpost | exact Hcount].
Defined.

(** ** The first superuser *)

Section SuperuserFacts.

Variable make_password : string -> string.

Lemma username_exists_app (name : string) (users users' : list User) :
  username_exists name (users ++ users')
  = username_exists name users || username_exists name users'.
Proof. apply existsb_app. Qed.

Lemma create_superuser_exists (mail pass : string) (users : list User) :
  username_exists "admin"
    (User_objects_create_superuser make_password "admin" mail pass users) = true.
Proof.
  unfold User_objects_create_superuser. rewrite username_exists_app.
  cbn. apply orb_true_r.
Qed.

End SuperuserFacts.

(** X17: the three hooks that create the first superuser (the view, the
    migration and the application start-up) add a user named [admin] when
    there is none and do nothing otherwise: after any of them a user named
    [admin] exists, the users that were there are kept as they were and at
    most one user is added, and running any of the three afterwards changes
    nothing, so the password of [admin] is the one of the hook that ran
    first; the view answers accordingly. *)
Theorem create_superuser_once (make_password : string -> string) (users : list User) :
  let hooks :=
    [(fun users => snd (create_superuser_view make_password users));
     create_superuser_migration make_password;
     YourAppConfig_ready make_password] in
  (forall first, In first hooks ->
     username_exists "admin" (first users) = true
     /\ (exists added, first users = users ++ added /\ (length added <= 1)%nat
                       /\ (username_exists "admin" users = true -> added = []))
     /\ forall second, In second hooks -> second (first users) = first users)
  /\ fst (create_superuser_view make_password users)
     = (if username_exists "admin" users then "Already exists." else "Superuser created!")
  /\ forall first, In first hooks ->
       create_superuser_view make_password (first users)
       = ("Already exists.", first users).
Proof.
  cbv zeta.
  assert (Hfirst : forall first,
             In first [(fun users => snd (create_superuser_view make_password users));
                       create_superuser_migration make_password;
                       YourAppConfig_ready make_password] ->
             username_exists "admin" (first users) = true
             /\ exists added, first users = users ++ added /\ (length added <= 1)%nat
                              /\ (username_exists "admin" users = true -> added = [])).
  { intros first [<- | [<- | [<- | []]]];
      unfold create_superuser_view, create_superuser_migration, YourAppConfig_ready;
      destruct (username_exists "admin" users) eqn:Hadmin; cbn [negb snd];
      (split; [exact Hadmin || apply create_superuser_exists |]).
    all: try (exists []; rewrite app_nil_r; cbn [length]; auto; fail).
    all: eexists; (split; [reflexivity |]); cbn [length];
         split; [lia | discriminate]. }
  split; [| split].
  - intros first Hin. destruct (Hfirst first Hin) as [Hadmin Hadded].
    split; [exact Hadmin |]. split; [exact Hadded |].
    intros second [<- | [<- | [<- | []]]];
      unfold create_superuser_view, create_superuser_migration, YourAppConfig_ready;
      rewrite Hadmin; reflexivity.
  - unfold create_superuser_view. destruct (username_exists "admin" users); reflexivity.
  - intros first Hin. destruct (Hfirst first Hin) as [Hadmin _].
    unfold create_superuser_view. rewrite Hadmin. reflexivity.
Qed.

(** ** Recording a payment *)

Lemma add_error_slot (field : option string) (message : string) (form : Form) :
  let key := match field with Some f => f | None => NON_FIELD_ERRORS end in
  (forall f, field = Some f -> name_in f (form_fields form) = true) ->
  exists form',
    add_error field message form = Ok form'
    /\ form_fields form' = form_fields form
    /\ forall k, errors_of form' k
                 = errors_of form k ++ (if String.eqb key k then [message] else []).
Proof.
  intros key Hfield. unfold add_error. fold key.
  assert (Hallowed : negb (String.eqb key NON_FIELD_ERRORS)
                     && negb (name_in key (form_fields form)) = false).
  { subst key. destruct field as [f |]; [| reflexivity].
    rewrite (Hfield f eq_refl). apply andb_false_r. }
  rewrite Hallowed.
  destruct (PyDict.get key (form_errors form)) as [errors |] eqn:Hknown;
    eexists; (split; [reflexivity |]); (split; [reflexivity |]);
    intros k; unfold errors_of; cbn [form_errors]; rewrite get_setitem;
    destruct (String.eqb_spec key k) as [<- | Hne];
    rewrite ?Hknown, ?app_nil_r; reflexivity.
Qed.

Lemma form_valid_errors_inner (field : string) (messages : list string) (form : Form) :
  exists form',
    for_loop
      (fun message form =>
         if name_in field (form_fields form)
         then add_error (Some field) message form
         else add_error None message form)
      messages form = Ok form'
    /\ form_fields form' = form_fields form
    /\ forall k, errors_of form' k
                 = errors_of form k
                   ++ (if String.eqb (error_slot form field) k then messages else []).
Proof.
  revert form. induction messages as [| message messages IH]; intros form;
    cbn [for_loop].
  - exists form. split; [reflexivity |]. split; [reflexivity |].
    intros k. destruct (String.eqb _ k); rewrite app_nil_r; reflexivity.
  - assert (Hstep : exists form1,
               (if name_in field (form_fields form)
                then add_error (Some field) message form
                else add_error None message form) = Ok form1
               /\ form_fields form1 = form_fields form
               /\ forall k, errors_of form1 k
                            = errors_of form k
                              ++ (if String.eqb (error_slot form field) k
                                  then [message] else [])).
    { unfold error_slot. destruct (name_in field (form_fields form)) eqn:Hin.
      - apply (add_error_slot (Some field)). intros f Hf. inversion Hf; subst. exact Hin.
      - apply (add_error_slot None). intros f Hf. discriminate. }
    destruct Hstep as (form1 & -> & Hfields1 & Herrors1). cbn [bind].
    destruct (IH form1) as (form' & Hloop & Hfields' & Herrors').
    exists form'. split; [exact Hloop |]. split; [congruence |].
    intros k. rewrite Herrors', Herrors1. unfold error_slot. rewrite Hfields1.
    destruct (String.eqb _ k); rewrite <- app_assoc; reflexivity.
Qed.

Lemma form_valid_errors_outer (message_dict : list (string * list string)) (form : Form) :
  exists form',
    form_valid_errors (ErrorDict message_dict) form = Ok form'
    /\ form_fields form' = form_fields form
    /\ forall k, errors_of form' k
                 = errors_of form k ++ reported (ErrorDict message_dict) form k.
Proof.
  unfold form_valid_errors, reported. revert form.
  induction message_dict as [| item message_dict IH]; intros form; cbn [for_loop map concat].
  - exists form. split; [reflexivity |]. split; [reflexivity |].
    intros k. rewrite app_nil_r. reflexivity.
  - destruct (form_valid_errors_inner (fst item) (snd item) form)
      as (form1 & -> & Hfields1 & Herrors1). cbn [bind].
    destruct (IH form1) as (form' & Hloop & Hfields' & Herrors').
    exists form'. split; [exact Hloop |]. split; [congruence |].
    intros k. rewrite Herrors', Herrors1, <- app_assoc. do 2 f_equal.
    unfold error_slot. rewrite Hfields1. reflexivity.
Qed.

(** X18: how [form_valid] ends.  When the payment is stored, one success
    message is queued and the answer is a redirect to the schedule list.
    When [create] raises a ValidationError, the answer is the form again
    with status 400 and no message is queued; the form has gained the
    messages of the error and nothing else: a message for a field that the
    form has is shown at that field, any other message among the errors
    that belong to no field, in the order of the error, and an error that
    carries a plain list of messages adds the one message made of them
    joined by a semicolon; adding them never raises.  Any other exception
    is passed on, with no message queued. *)
Theorem form_valid_outcomes
    (Payment_objects_create : Form -> World -> CreateOutcome * World)
    (form : Form) (w : World) :
  match Payment_objects_create form w with
  | (Created, w1) =>
      exists w',
        form_valid Payment_objects_create form w
        = (Ok (Redirected "payments:schedule-list"), w')
        /\ messages w' = messages w1 ++ [(msg_success, "Payment recorded successfully.")]
        /\ motor_table w' = motor_table w1
        /\ schedule_table w' = schedule_table w1
  | (Invalid exc, w1) =>
      exists form',
        form_valid Payment_objects_create form w = (Ok (Rendered 400 form'), w1)
        /\ form_fields form' = form_fields form
        /\ forall key, errors_of form' key = errors_of form key ++ reported exc form key
  | (Failed e, w1) =>
      form_valid Payment_objects_create form w = (Raise e, w1)
  end.
Proof.
  unfold form_valid.
  destruct (Payment_objects_create form w) as [[| exc | e] w1].
  - eexists. cbv [vbind add_message ret]. cbn.
    split; [reflexivity |]. repeat split.
  - assert (Herrors : exists form',
               form_valid_errors exc form = Ok form'
               /\ form_fields form' = form_fields form
               /\ forall key, errors_of form' key
                              = errors_of form key ++ reported exc form key).
    { destruct exc as [message_dict | error_messages].
      - apply form_valid_errors_outer.
      - apply (add_error_slot None). intros f Hf. discriminate. }
    destruct Herrors as (form' & Hok & Hfields & Herrors).
    exists form'. cbv [vbind lift form_invalid ret]. rewrite Hok.
    split; [reflexivity |]. split; assumption.
  - reflexivity.
Qed.

(** ** The calendar: one cycle and its repetition *)

(** One cycle of 400 years, and 150 days more, checked by computation. *)
Lemma cycle_checked : ordinals_checked (Z.to_nat (DI400Y + 150)) = true.
Proof. vm_compute. reflexivity. Qed.

Lemma nth_dates_from (count : nat) (start : Z) (j : nat) (d0 : date) :
  (j < count)%nat -> nth j (dates_from start count) d0 = ord2ymd (start + Z.of_nat j).
Proof.
  revert start j. induction count as [| count IH]; intros start j Hj; [lia |].
  cbn [dates_from]. destruct j as [| j]; cbn [nth].
  - f_equal. lia.
  - rewrite IH by lia. f_equal. lia.
Qed.

Lemma length_dates_from (count : nat) (start : Z) :
  length (dates_from start count) = count.
Proof.
  revert start. induction count as [| count IH]; intros start; cbn [dates_from length];
    [reflexivity |]. rewrite IH. reflexivity.
Qed.

Lemma le_pairs_nth (slack : Z) (l l' : list Z) (j : nat) :
  le_pairs slack l l' = true ->
  (j < length l)%nat -> (j < length l')%nat ->
  nth j l 0 <= nth j l' 0 + slack.
Proof.
  revert l' j. induction l as [| a l IH]; intros [| b l'] j Hle Hj Hj';
    cbn [length] in *; try lia.
  cbn [le_pairs] in Hle. apply andb_true_iff in Hle. destruct Hle as [Hab Hrest].
  destruct j as [| j]; cbn [nth]; [lia |]. apply IH; [exact Hrest | lia | lia].
Qed.

Lemma nth_skip {A : Type} (k j : nat) (l : list A) (d : A) :
  nth j (skipn k l) d = nth (k + j) l d.
Proof.
  revert l. induction k as [| k IH]; intros l; [reflexivity |].
  destruct l as [| x l]; cbn [skipn Nat.add nth]; [destruct j; reflexivity | apply IH].
Qed.

Lemma month_index_nth (count j : nat) :
  (j < count)%nat ->
  nth j (map month_index (dates_from 1 count)) 0
  = month_index (ord2ymd (1 + Z.of_nat j)).
Proof.
  intros Hj.
  rewrite (nth_indep _ 0 (month_index (mkDate 0 0 0)))
    by (rewrite length_map, length_dates_from; exact Hj).
  rewrite map_nth, nth_dates_from by exact Hj. reflexivity.
Qed.

(** What the check of [count] consecutive ordinals gives for each of them. *)
Lemma checked_facts (count : nat) (n : Z) :
  ordinals_checked count = true ->
  1 <= n <= Z.of_nat count ->
  in_month (ord2ymd n) = true
  /\ (30 < n -> month_index (ord2ymd (n - 30)) <= month_index (ord2ymd n))
  /\ (150 < n -> month_index (ord2ymd n) <= month_index (ord2ymd (n - 150)) + 5).
Proof.
  intros Hcheck Hn. unfold ordinals_checked in Hcheck. cbv zeta in Hcheck.
  apply andb_true_iff in Hcheck. destruct Hcheck as [Hcheck H150].
  apply andb_true_iff in Hcheck. destruct Hcheck as [Hin H30].
  assert (Hlen : length (map month_index (dates_from 1 count)) = count)
    by (rewrite length_map, length_dates_from; reflexivity).
  split; [| split].
  - rewrite forallb_forall in Hin. apply Hin.
    replace n with (1 + Z.of_nat (Z.to_nat (n - 1))) by lia.
    rewrite <- (nth_dates_from count 1 _ (mkDate 0 0 0)) by lia.
    apply nth_In. rewrite length_dates_from. lia.
  - intros Hback.
    pose proof (le_pairs_nth 0 _ _ (Z.to_nat (n - 31)) H30) as Hle.
    rewrite nth_skip in Hle.
    rewrite !month_index_nth in Hle by lia.
    replace (1 + Z.of_nat (Z.to_nat (n - 31))) with (n - 30) in Hle by lia.
    replace (1 + Z.of_nat (30 + Z.to_nat (n - 31))) with n in Hle by lia.
    rewrite length_skipn, Hlen in Hle. lia.
  - intros Hback.
    pose proof (le_pairs_nth 5 _ _ (Z.to_nat (n - 151)) H150) as Hle.
    rewrite nth_skip in Hle.
    rewrite !month_index_nth in Hle by lia.
    replace (1 + Z.of_nat (Z.to_nat (n - 151))) with (n - 150) in Hle by lia.
    replace (1 + Z.of_nat (150 + Z.to_nat (n - 151))) with n in Hle by lia.
    rewrite length_skipn, Hlen in Hle. lia.
Qed.

Lemma DI400Y_value : DI400Y = 146097.
Proof. reflexivity. Qed.

(** The three facts of the checked cycle, for its ordinals. *)
Lemma cycle_facts (n : Z) :
  1 <= n <= DI400Y + 150 ->
  in_month (ord2ymd n) = true
  /\ (30 < n -> month_index (ord2ymd (n - 30)) <= month_index (ord2ymd n))
  /\ (150 < n -> month_index (ord2ymd n) <= month_index (ord2ymd (n - 150)) + 5).
Proof.
  intros Hn. apply (checked_facts (Z.to_nat (DI400Y + 150))).
  - exact cycle_checked.
  - rewrite Z2Nat.id by (rewrite DI400Y_value; lia). exact Hn.
Qed.

Lemma is_leap_shift (y k : Z) : is_leap (y + 400 * k) = is_leap y.
Proof.
  unfold is_leap.
  replace (y + 400 * k) with (y + (100 * k) * 4) at 1 by lia.
  replace (y + 400 * k) with (y + (4 * k) * 100) at 1 by lia.
  replace (y + 400 * k) with (y + k * 400) by lia.
  rewrite !Z.mod_add by lia. reflexivity.
Qed.

Lemma days_in_month_shift (y m k : Z) :
  days_in_month (y + 400 * k) m = days_in_month y m.
Proof. unfold days_in_month. rewrite is_leap_shift. reflexivity. Qed.

Lemma in_month_shift (k : Z) (d : date) : in_month (shift_years (400 * k) d) = in_month d.
Proof.
  unfold in_month, shift_years. cbn [year month day].
  rewrite days_in_month_shift. reflexivity.
Qed.

Lemma month_index_shift (k : Z) (d : date) :
  month_index (shift_years k d) = month_index d + 12 * k.
Proof. unfold month_index, shift_years. cbn [year month]. lia. Qed.

(** [ord2ymd] repeats every 400 years. *)
Lemma ord2ymd_shift (n k : Z) :
  ord2ymd (n + DI400Y * k) = shift_years (400 * k) (ord2ymd n).
Proof.
  unfold ord2ymd. cbv zeta.
  replace (n + DI400Y * k - 1) with (n - 1 + k * DI400Y) by lia.
  rewrite Z.div_add, Z.mod_add by (rewrite DI400Y_value; lia).
  set (n400 := (n - 1) / DI400Y). set (r := (n - 1) mod DI400Y).
  repeat match goal with
         | |- context [if ?c then _ else _] => destruct c
         end;
    unfold shift_years; cbn [year month day]; f_equal; lia.
Qed.

(** The three facts for every ordinal. *)
Lemma ordinal_facts (n : Z) :
  1 <= n ->
  in_month (ord2ymd n) = true
  /\ (30 < n -> month_index (ord2ymd (n - 30)) <= month_index (ord2ymd n))
  /\ (150 < n -> month_index (ord2ymd n) <= month_index (ord2ymd (n - 150)) + 5).
Proof.
  intros Hn. pose proof DI400Y_value as HD.
  split; [| split].
  - set (k := (n - 1) / DI400Y). set (n0 := (n - 1) mod DI400Y + 1).
    assert (Hsplit : n = n0 + DI400Y * k)
      by (unfold n0, k; pose proof (Z.div_mod (n - 1) DI400Y); lia).
    assert (Hn0 : 1 <= n0 <= DI400Y)
      by (unfold n0; pose proof (Z.mod_pos_bound (n - 1) DI400Y); lia).
    rewrite Hsplit, ord2ymd_shift, in_month_shift.
    apply cycle_facts. lia.
  - intros Hback.
    set (k := (n - 31) / DI400Y). set (n0 := (n - 31) mod DI400Y + 31).
    assert (Hsplit : n = n0 + DI400Y * k)
      by (unfold n0, k; pose proof (Z.div_mod (n - 31) DI400Y); lia).
    assert (Hn0 : 31 <= n0 <= DI400Y + 30)
      by (unfold n0; pose proof (Z.mod_pos_bound (n - 31) DI400Y); lia).
    replace (n - 30) with (n0 - 30 + DI400Y * k) by lia.
    rewrite Hsplit, !ord2ymd_shift, !month_index_shift.
    destruct (cycle_facts n0 ltac:(lia)) as (_ & H30 & _). specialize (H30 ltac:(lia)). lia.
  - intros Hback.
    set (k := (n - 151) / DI400Y). set (n0 := (n - 151) mod DI400Y + 151).
    assert (Hsplit : n = n0 + DI400Y * k)
      by (unfold n0, k; pose proof (Z.div_mod (n - 151) DI400Y); lia).
    assert (Hn0 : 151 <= n0 <= DI400Y + 150)
      by (unfold n0; pose proof (Z.mod_pos_bound (n - 151) DI400Y); lia).
    replace (n - 150) with (n0 - 150 + DI400Y * k) by lia.
    rewrite Hsplit, !ord2ymd_shift, !month_index_shift.
    destruct (cycle_facts n0 ltac:(lia)) as (_ & _ & H150). specialize (H150 ltac:(lia)). lia.
Qed.

(** ** The chart months, for every day *)

Lemma sum_hundredths_Sum (cond : PaymentSchedule -> bool) (rows : list PaymentSchedule) :
  sum_hundredths (Sum cond rows) = amount_where cond rows.
Proof.
  unfold sum_hundredths, Sum, amount_where.
  destruct (List.filter cond rows); reflexivity.
Qed.

Lemma in_month_days (d : date) :
  in_month d = true -> 1 <= days_in_month (year d) (month d).
Proof. unfold in_month. lia. Qed.

(** One turn of the loop, when the day 30 * i days back exists and the
    database answers. *)
Lemma chart_month_runs (now : date) (i : Z) (w : World) (d : date) :
  sub_days now (30 * i) = Ok d ->
  in_month d = true ->
  next_db_op_succeeds w ->
  chart_month now i w
  = (Ok (bucket_of (schedule_table w) d),
     mkWorld (schedule_table w) (motor_table w) (tail (db_faults w)) (messages w)
             (stderr w)).
Proof.
  intros Hback Hin Hdb. pose proof (in_month_days d Hin) as Hdays.
  unfold chart_month, bucket_of, replace_day, next_db_op_succeeds in *.
  rewrite Hback. cbv [vbind lift ret db_op].
  replace ((1 <=? 1) && (1 <=? days_in_month (year d) (month d))) with true
    by (symmetry; apply andb_true_iff; split; apply Z.leb_le; lia).
  replace ((1 <=? days_in_month (year d) (month d))
           && (days_in_month (year d) (month d) <=? days_in_month (year d) (month d)))
    with true by (symmetry; apply andb_true_iff; split; apply Z.leb_le; lia).
  destruct (db_faults w) as [| [e |] rest]; try contradiction;
    cbn [schedule_table tail]; rewrite !sum_hundredths_Sum; reflexivity.
Qed.

Lemma chart_loop_runs (now : date) (offsets : list Z) (w : World) :
  (forall i, In i offsets ->
     sub_days now (30 * i) = Ok (ord2ymd (toordinal now - 30 * i))
     /\ in_month (ord2ymd (toordinal now - 30 * i)) = true) ->
  Forall (fun fate => fate = None) (firstn (length offsets) (db_faults w)) ->
  exists w',
    for_each (chart_month now) offsets w
    = (Ok (map (fun i => bucket_of (schedule_table w) (ord2ymd (toordinal now - 30 * i)))
             offsets), w')
    /\ schedule_table w' = schedule_table w.
Proof.
  revert w. induction offsets as [| i offsets IH]; intros w Hdates Hdb; cbn [for_each map].
  - exists w. split; reflexivity.
  - destruct (Hdates i ltac:(left; reflexivity)) as [Hback Hin].
    assert (Hnext : next_db_op_succeeds w).
    { unfold next_db_op_succeeds. cbn [length firstn] in Hdb.
      destruct (db_faults w) as [| [e |] rest]; try exact I.
      inversion Hdb; discriminate. }
    cbv [vbind]. rewrite (chart_month_runs now i w _ Hback Hin Hnext).
    set (w1 := mkWorld (schedule_table w) (motor_table w) (tail (db_faults w))
                       (messages w) (stderr w)).
    destruct (IH w1) as (w' & Hloop & Htable).
    + intros j Hj. apply Hdates. right. exact Hj.
    + unfold w1. cbn [db_faults]. cbn [length firstn] in Hdb.
      destruct (db_faults w) as [| fate rest]; cbn [tail].
      * destruct (length offsets); constructor.
      * inversion Hdb; assumption.
    + cbv [vbind ret]. rewrite Hloop. exists w'. split; [reflexivity | exact Htable].
Qed.

Lemma month_index_bucket (table : list PaymentSchedule) (d : date) :
  month_index (month_start (bucket_of table d)) = month_index d.
Proof. reflexivity. Qed.

Lemma fromordinal_Ok (n : Z) (d : date) :
  fromordinal n = Ok d -> 1 <= n <= MAXORDINAL /\ ord2ymd n = d.
Proof.
  unfold fromordinal.
  destruct ((1 <=? n) && (n <=? MAXORDINAL)) eqn:Hrange; [| discriminate].
  intros H. inversion H. split; [lia | reflexivity].
Qed.

(** X19: the chart for every day.  When [now] is a date from 0001-05-31 on
    and the database answers the six queries, [get_chart_data] returns six
    buckets and leaves the schedules as they are.  Each bucket is one whole
    calendar month, labelled with its name, and holds the sums of the
    schedules due within it, the PAID ones and the others.  The months of
    the buckets never go back in time, they all lie among the six calendar
    months that end with the month of [now], and the last bucket is the
    month of [now]; the months need not differ from one another. *)
Theorem chart_months_window (now : date) (w : World) :
  fromordinal (toordinal now) = Ok now ->
  150 < toordinal now ->
  Forall (fun fate => fate = None) (firstn 6 (db_faults w)) ->
  exists months w',
    get_chart_data now w = (Ok months, w')
    /\ schedule_table w' = schedule_table w
    /\ length months = 6%nat
    /\ Forall (fun m =>
                 calendar_month m
                 /\ sums_of (schedule_table w) m
                 /\ month_index now - 5 <= month_index (month_start m) <= month_index now)
              months
    /\ StronglySorted Z.le (map (fun m => month_index (month_start m)) months)
    /\ exists earlier last,
         months = earlier ++ [last]
         /\ month_start last = mkDate (year now) (month now) 1.
Proof.
  intros Hvalid Hback Hdb.
  destruct (fromordinal_Ok _ _ Hvalid) as [Hrange Hnow].
  set (n := toordinal now) in *.
  assert (Hdates : forall i, In i [5; 4; 3; 2; 1; 0] ->
             sub_days now (30 * i) = Ok (ord2ymd (n - 30 * i))
             /\ in_month (ord2ymd (n - 30 * i)) = true).
  { intros i Hi. assert (Hi' : 0 <= i <= 5) by (cbn [In] in Hi; lia). split.
    - unfold sub_days, fromordinal. fold n.
      replace ((1 <=? n - 30 * i) && (n - 30 * i <=? MAXORDINAL)) with true; [reflexivity |].
      symmetry. apply andb_true_iff. split; apply Z.leb_le; lia.
    - apply ordinal_facts. lia. }
  destruct (chart_loop_runs now [5; 4; 3; 2; 1; 0] w Hdates Hdb) as (w' & Hloop & Htable).
  fold n in Hloop. cbn [map] in Hloop.
  replace (n - 30 * 0) with n in Hloop by lia. rewrite Hnow in Hloop.
  assert (Hstep : forall a b, b = a + 1 -> 0 <= a <= 4 ->
             month_index (ord2ymd (n - 30 * b)) <= month_index (ord2ymd (n - 30 * a))).
  { intros a b -> Ha. destruct (ordinal_facts (n - 30 * a) ltac:(lia)) as (_ & H30 & _).
    replace (n - 30 * (a + 1)) with (n - 30 * a - 30) by lia. apply H30. lia. }
  pose proof (Hstep 0 1 eq_refl ltac:(lia)) as H1.
  pose proof (Hstep 1 2 eq_refl ltac:(lia)) as H2.
  pose proof (Hstep 2 3 eq_refl ltac:(lia)) as H3.
  pose proof (Hstep 3 4 eq_refl ltac:(lia)) as H4.
  pose proof (Hstep 4 5 eq_refl ltac:(lia)) as H5.
  destruct (ordinal_facts n ltac:(lia)) as (_ & _ & H150). specialize (H150 Hback).
  replace (n - 30 * 0) with n in H1 by lia. rewrite Hnow in H1, H150.
  replace (n - 150) with (n - 30 * 5) in H150 by lia.
  clear Hstep Hdates.
  assert (Hbucket : forall d,
             month_index now - 5 <= month_index d <= month_index now ->
             calendar_month (bucket_of (schedule_table w) d)
             /\ sums_of (schedule_table w) (bucket_of (schedule_table w) d)
             /\ month_index now - 5
                <= month_index (month_start (bucket_of (schedule_table w) d))
                <= month_index now).
  { intros d Hd. unfold calendar_month, sums_of, bucket_of.
    cbn [month_start month_end month_label collected pending year month day].
    split; [repeat split |]. split; [repeat split |]. exact Hd. }
  eexists _, w'. split; [exact Hloop |]. split; [exact Htable |].
  split; [reflexivity |]. split; [| split].
  - repeat (apply List.Forall_cons; [apply Hbucket; lia |]). apply List.Forall_nil.
  - cbn [map]. rewrite !month_index_bucket.
    repeat (apply SSorted_cons;
            [| repeat (apply List.Forall_cons; [lia |]); apply List.Forall_nil]).
    apply SSorted_nil.
  - eexists [_; _; _; _; _], _. split; reflexivity.
Qed.

(** On 2024-03-31 the six buckets lie from October 2023 to March 2024. *)
Lemma chart_months_window_witness :
  exists months w',
    get_chart_data (mkDate 2024 3 31) example_world = (Ok months, w')
    /\ length months = 6%nat
    /\ Forall (fun m => 12 * 2023 + 10 <= month_index (month_start m) <= 12 * 2024 + 3)
              months.
Proof.
  destruct (chart_months_window (mkDate 2024 3 31) example_world)
    as (months & w' & Hchart & _ & Hlen & Hall & _).
  - vm_compute. reflexivity.
  - vm_compute. reflexivity.
  - constructor.
  - exists months, w'. split; [exact Hchart |]. split; [exact Hlen |].
    revert Hall. apply List.Forall_impl. intros m (_ & _ & Hidx).
    change (month_index (mkDate 2024 3 31)) with (12 * 2024 + 3) in Hidx. lia.
Defined.
